(** * The NATS subscriber of watermill-nats (pkg/nats/subscriber.go)

    A model of the subscriber: its configuration (defaulting and
    validation), the construction of a [Subscriber], [Subscribe], the
    per-message coordinator [processMessage] and [Close].

    Durations are [time.Duration] values, that is signed 64-bit counts of
    nanoseconds; the code only compares them and multiplies the constant
    [time.Second] by 30, so they are kept as [Z].  Go's [int] and [uint64]
    values are only compared or passed on, and are [Z] and [N]. *)

From Stdlib Require Import ZArith Lia.
From stdpp Require Import base tactics option list strings.

Open Scope Z_scope.

(** ** Errors *)

(** Go [error] values as the file builds them: [errors.New] and
    [errors.Wrap].  Errors of the NATS client are [New] values too. *)
Inductive error : Type :=
| New (msg : string)
| Wrap (cause : error) (msg : string).

(** A Go [(T, error)] result. *)
Inductive result (T : Type) : Type :=
| Ok (v : T)
| Err (e : error).
Arguments Ok {T} v.
Arguments Err {T} e.

(** ** Messages and frames *)

(** [message.Message] of watermill: identifier, headers and payload. *)
Record Message : Type := mkMessage {
  UUID : string;
  Metadata : list (string * string);
  Payload : list Byte.byte
}.

(** [nats.Msg], the frame the broker delivers. *)
Record NatsMsg : Type := mkNatsMsg {
  Subject : string;
  Reply : string;
  Header : list (string * list string);
  Data : list Byte.byte
}.

(** [nats.MsgMetadata]: the code reads its [NumDelivered] only. *)
Record MsgMetadata : Type := mkMsgMetadata {
  NumDelivered : N
}.

(** [SubjectDetail], the value a [SubjectCalculator] returns. *)
Record SubjectDetail : Type := mkSubjectDetail {
  Primary : string;
  All : list string
}.

(** The [Unmarshaler] interface: its one method, which returns a
    [*message.Message], nil as [None], and an error. *)
Record Unmarshaler : Type := mkUnmarshaler {
  Unmarshal : NatsMsg -> result (option Message)
}.

Definition SubjectCalculator : Type := string -> SubjectDetail.

(** The [Delay] interface: its one method. *)
Record Delay : Type := mkDelay {
  WaitTime : N -> Z
}.

(** ** Configuration *)

Record JetStreamConfig : Type := mkJetStreamConfig {
  Enabled : bool;
  AutoProvision : bool;
  ConnectOptions : list nat
}.

(** [time.Second], in nanoseconds. *)
Definition Second : Z := 1000000000.

(** [SubscriberConfig]; a nil interface or function value is [None]. *)
Record SubscriberConfig : Type := mkSubscriberConfig {
  URL : string;
  sc_QueueGroup : string;
  sc_SubscribersCount : Z;
  sc_CloseTimeout : Z;
  sc_AckWaitTimeout : Z;
  sc_SubscribeTimeout : Z;
  NatsOptions : list nat;
  sc_Unmarshaler : option Unmarshaler;
  sc_SubjectCalculator : option SubjectCalculator;
  sc_AckSync : bool;
  sc_NakDelay : option Delay;
  sc_JetStream : JetStreamConfig
}.

(** [SubscriberSubscriptionConfig]. *)
Record SubscriberSubscriptionConfig : Type := mkConfig {
  cfgUnmarshaler : option Unmarshaler;
  QueueGroup : string;
  SubscribersCount : Z;
  AckWaitTimeout : Z;
  CloseTimeout : Z;
  SubscribeTimeout : Z;
  cfgSubjectCalculator : option SubjectCalculator;
  AckSync : bool;
  NakDelay : option Delay;
  JetStream : JetStreamConfig
}.

Definition GetSubscriberSubscriptionConfig (c : SubscriberConfig)
  : SubscriberSubscriptionConfig :=
  {| cfgUnmarshaler := sc_Unmarshaler c;
     QueueGroup := sc_QueueGroup c;
     SubscribersCount := sc_SubscribersCount c;
     AckWaitTimeout := sc_AckWaitTimeout c;
     CloseTimeout := sc_CloseTimeout c;
     SubscribeTimeout := sc_SubscribeTimeout c;
     cfgSubjectCalculator := sc_SubjectCalculator c;
     AckSync := sc_AckSync c;
     NakDelay := sc_NakDelay c;
     JetStream := sc_JetStream c |}.

(** [if d <= 0 { d = time.Second * 30 }] *)
Definition defaultTimeout (d : Z) : Z :=
  if d <=? 0 then Second * 30 else d.

Definition errUnmarshalerMissing : error :=
  New "SubscriberConfig.Unmarshaler is missing".

Definition errQueueGroup : error :=
  New (String.append "to set SubscriberConfig.SubscribersCount "
       (String.append "you need to also set SubscriberConfig.QueueGroup, "
          "in other case you will receive duplicated messages")).

Definition errSubjectCalculator : error :=
  New "SubscriberSubscriptionConfig.SubjectCalculator is required.".

(** [Validate]: the first failing check decides; [None] is [nil]. *)
Definition Validate (c : SubscriberSubscriptionConfig) : option error :=
  match cfgUnmarshaler c with
  | None => Some errUnmarshalerMissing
  | Some _ =>
    if (String.eqb (QueueGroup c) "" && (1 <? SubscribersCount c))%bool
    then Some errQueueGroup
    else match cfgSubjectCalculator c with
         | None => Some errSubjectCalculator
         | Some _ => None
         end
  end.

Section Construction.

(** The default unmarshaler [&NATSMarshaler{}] and
    [DefaultSubjectCalculator] are declared in other files of the package;
    [setDefaults] only stores them. *)
Variable NATSMarshaler : Unmarshaler.
Variable DefaultSubjectCalculator : SubjectCalculator.

Definition setDefaults (c : SubscriberSubscriptionConfig)
  : SubscriberSubscriptionConfig :=
  {| cfgUnmarshaler :=
       match cfgUnmarshaler c with
       | None => Some NATSMarshaler
       | Some u => Some u
       end;
     QueueGroup := QueueGroup c;
     SubscribersCount :=
       if SubscribersCount c <=? 0 then 1 else SubscribersCount c;
     AckWaitTimeout := defaultTimeout (AckWaitTimeout c);
     CloseTimeout := defaultTimeout (CloseTimeout c);
     SubscribeTimeout := defaultTimeout (SubscribeTimeout c);
     cfgSubjectCalculator :=
       match cfgSubjectCalculator c with
       | None => Some DefaultSubjectCalculator
       | Some f => Some f
       end;
     AckSync := AckSync c;
     NakDelay := NakDelay c;
     JetStream := JetStream c |}.

(** ** The subscriber *)

(** The [Connection] a subscriber holds: the core connection, or the
    JetStream wrapper built around it. *)
Inductive Connection : Type :=
| CoreConn
| JetStreamConn.

(** [Subscriber].  The [closing] channel carries no values: all that can
    be observed of it is whether it has been closed.  [subsLock] is [true]
    while the write lock is held, and the wait-group is its counter. *)
Record Subscriber : Type := mkSubscriber {
  conn : Connection;
  config : SubscriberSubscriptionConfig;
  subsLock : bool;
  closed : bool;
  closing : bool;
  outputsWg : Z;
  topicInterpreter : bool
}.

(** [NewSubscriberWithNatsConn]; [js] is the error of
    [conn.JetStream(...)], read only when JetStream is enabled. *)
Definition NewSubscriberWithNatsConn (js : option error)
  (config : SubscriberSubscriptionConfig) : result Subscriber :=
  let config := setDefaults config in
  match Validate config with
  | Some err => Err err
  | None =>
    if Enabled (JetStream config) then
      match js with
      | Some err => Err err
      | None =>
        Ok {| conn := JetStreamConn; config := config; subsLock := false;
              closed := false; closing := false; outputsWg := 0;
              topicInterpreter := true |}
      end
    else
      Ok {| conn := CoreConn; config := config; subsLock := false;
            closed := false; closing := false; outputsWg := 0;
            topicInterpreter := false |}
  end.

(** [NewSubscriber]; [connect] is the error of [nats.Connect]. *)
Definition NewSubscriber (connect js : option error)
  (config : SubscriberConfig) : result Subscriber :=
  match connect with
  | Some err => Err (Wrap err "cannot connect to NATS")
  | None => NewSubscriberWithNatsConn js (GetSubscriberSubscriptionConfig config)
  end.

(** A construction that stops at [Validate], with the error it returns. *)
Definition failsValidation (js : option error)
  (c : SubscriberSubscriptionConfig) : Prop :=
  exists err, Validate (setDefaults c) = Some err /\
              NewSubscriberWithNatsConn js c = Err err.

End Construction.

(** ** Effects of the per-message coordinator *)

Inductive level : Type := LTrace | LDebug | LInfo | LError.

(** The acknowledgement methods of a frame that [processMessage] calls. *)
Inductive transport : Type :=
| CallAck
| CallAckSync
| CallNak
| CallNakWithDelay (delay : Z)
| CallTerm.

(** What [processMessage], [Subscribe] and [Close] do, in order: log
    lines, timers, sends on the delivery channel, calls on a frame and on
    the connection, and the closing of the [closing] channel. *)
Inductive event : Type :=
| EvLog (l : level) (text : string)
| EvNewTimer (d : Z)
| EvStopTimer
| EvCancelCtx
| EvSend (msg : Message)
| EvMetadata
| EvCall (c : transport)
| EvEnsureStream (topic : string)
| EvQueueSubscribe (subject queue : string)
| EvCloseClosing
| EvWaitGroupTimeout (d : Z)
| EvDrain.

(** The body of a goroutine as a tree: what it does next and how it goes
    on with what the rest of the system answers.  The two [select]
    statements of [processMessage] are [SelectHandoff] and [SelectAck],
    with one branch per case, in the order of the source. *)
Inductive proc : Type :=
| Return
| Panic (text : string)
| Emit (e : event) (k : proc)
| Call (c : transport) (k : option error -> proc)
| ReadMetadata (k : result MsgMetadata -> proc)
| IsClosed (k : bool -> proc)
| SelectHandoff (msg : Message) (onClosing onCtxDone onSent : proc)
| SelectAck (onAcked onNacked onTimeout onClosing onCtxDone : proc).

Definition Log (l : level) (text : string) (k : proc) : proc :=
  Emit (EvLog l text) k.

(** The deferred calls of [processMessage], run at every [return] that
    follows their registration: [timeout.Stop()], then [cancelCtx()]. *)
Definition deferred : proc :=
  Emit EvStopTimer (Emit EvCancelCtx Return).

Section Coordinator.

(** [StopTime], the delay that asks for the message to be terminated.  The
    constant is declared with the [Delay] interface, in another file of the
    package. *)
Variable StopTime : Z.

Variable cfg : SubscriberSubscriptionConfig.

(** The [case <-msg.Acked()] branch. *)
Definition onAcked (m : NatsMsg) : proc :=
  if String.eqb (Reply m) "" then
    Log LTrace "ack without a reply subject is a no-op" deferred
  else
    Call (if AckSync cfg then CallAckSync else CallAck) (fun err =>
      match err with
      | Some _ => Log LError "Cannot send ack" deferred
      | None => Log LTrace "Message Acked" deferred
      end).

(** [var nakDelay time.Duration] and the [if s.config.NakDelay != nil]
    block that may assign it. *)
Definition withNakDelay (k : Z -> proc) : proc :=
  match NakDelay cfg with
  | None => k 0
  | Some delay =>
    ReadMetadata (fun r =>
      match r with
      | Err _ =>
        Log LError "Cannot parse nats message metadata, use nak without delay"
          (k 0)
      | Ok metadata => k (WaitTime delay (NumDelivered metadata))
      end)
  end.

(** The [case <-msg.Nacked()] branch. *)
Definition onNacked (m : NatsMsg) : proc :=
  if String.eqb (Reply m) "" then
    Log LTrace "Ignoring nack without reply topic" deferred
  else
    withNakDelay (fun nakDelay =>
      if nakDelay =? StopTime then
        Call CallTerm (fun err =>
          match err with
          | Some _ => Log LError "Cannot send term" deferred
          | None =>
            Log LTrace "Message Termed via -1 NakDelay calculation" deferred
          end)
      else if 0 <? nakDelay then
        Call (CallNakWithDelay nakDelay) (fun err =>
          match err with
          | Some _ => Log LError "Cannot send nak" deferred
          | None => Log LTrace "Message Nacked" deferred
          end)
      else
        Call CallNak (fun err =>
          match err with
          | Some _ => Log LError "Cannot send nak" deferred
          | None => Log LTrace "Message Nacked" deferred
          end)).

(** The second [select] of [processMessage]. *)
Definition ackPhase (m : NatsMsg) : proc :=
  SelectAck
    (onAcked m)
    (onNacked m)
    (Log LTrace "Ack timeout" deferred)
    (Log LTrace "Closing, message discarded before ack" deferred)
    (Log LTrace "Context cancelled, message discarded before ack" deferred).

(** [processMessage].  A nil [Unmarshaler] would be a nil dereference;
    [Validate] excludes it.  A nil message returned without an error is
    one: [msg.UUID] is read with no test of [msg]. *)
Definition processMessage (m : NatsMsg) : proc :=
  Log LTrace "Received message"
  match cfgUnmarshaler cfg with
  | None => Panic "nil pointer dereference"
  | Some u =>
    match Unmarshal u m with
    | Err _ => Log LError "Cannot unmarshal message" Return
    | Ok None => Panic "nil pointer dereference"
    | Ok (Some msg) =>
      Log LTrace "Unmarshaled message"
      (Emit (EvNewTimer (AckWaitTimeout cfg))
      (IsClosed (fun flag =>
        if flag then deferred
        else
          SelectHandoff msg
            (Log LTrace "Closing, message discarded" deferred)
            (Log LTrace "Context cancelled, message discarded" deferred)
            (Log LTrace "Message sent to consumer" (ackPhase m)))))
    end
  end.

End Coordinator.

(** *** One run of a coordinator, in isolation *)

(** Which case of the first [select] is taken. *)
Inductive handoff : Type := HandoffClosing | HandoffCtxDone | HandoffSent.

(** Which case of the second [select] is taken. *)
Inductive signal : Type :=
| SigAcked | SigNacked | SigTimeout | SigClosing | SigCtxDone.

(** What the rest of the system answers during one run. *)
Record Env : Type := mkEnv {
  envClosed : bool;
  envHandoff : handoff;
  envSignal : signal;
  envMetadata : result MsgMetadata;
  envCall : transport -> option error
}.

(** The delay the claim on nacked messages speaks of: the policy applied
    to the frame's [NumDelivered], and zero without a policy or when the
    metadata cannot be read. *)
Definition nakDelayOf (cfg : SubscriberSubscriptionConfig) (env : Env) : Z :=
  match NakDelay cfg with
  | None => 0
  | Some delay =>
    match envMetadata env with
    | Ok metadata => WaitTime delay (NumDelivered metadata)
    | Err _ => 0
    end
  end.

(** The events of a run, in order. *)
Fixpoint exec (env : Env) (p : proc) : list event :=
  match p with
  | Return => []
  | Panic _ => []
  | Emit e k => e :: exec env k
  | Call c k => EvCall c :: exec env (k (envCall env c))
  | ReadMetadata k => EvMetadata :: exec env (k (envMetadata env))
  | IsClosed k => exec env (k (envClosed env))
  | SelectHandoff msg onClosing onCtxDone onSent =>
    match envHandoff env with
    | HandoffClosing => exec env onClosing
    | HandoffCtxDone => exec env onCtxDone
    | HandoffSent => EvSend msg :: exec env onSent
    end
  | SelectAck onAcked onNacked onTimeout onClosing onCtxDone =>
    match envSignal env with
    | SigAcked => exec env onAcked
    | SigNacked => exec env onNacked
    | SigTimeout => exec env onTimeout
    | SigClosing => exec env onClosing
    | SigCtxDone => exec env onCtxDone
    end
  end.

(** The transport calls of a run, and the messages it sent. *)
Definition calls (t : list event) : list transport :=
  omap (fun e => match e with EvCall c => Some c | _ => None end) t.

Definition sends (t : list event) : list Message :=
  omap (fun e => match e with EvSend msg => Some msg | _ => None end) t.

Definition metadataReads (t : list event) : list unit :=
  omap (fun e => match e with EvMetadata => Some tt | _ => None end) t.

(** ** Close *)

Definition setLock (b : bool) (s : Subscriber) : Subscriber :=
  {| conn := conn s; config := config s; subsLock := b; closed := closed s;
     closing := closing s; outputsWg := outputsWg s;
     topicInterpreter := topicInterpreter s |}.

(** [s.closed = true] *)
Definition markClosed (s : Subscriber) : Subscriber :=
  {| conn := conn s; config := config s; subsLock := subsLock s;
     closed := true; closing := closing s; outputsWg := outputsWg s;
     topicInterpreter := topicInterpreter s |}.

(** [close(s.closing)] *)
Definition closeClosing (s : Subscriber) : Subscriber :=
  {| conn := conn s; config := config s; subsLock := subsLock s;
     closed := closed s; closing := true; outputsWg := outputsWg s;
     topicInterpreter := topicInterpreter s |}.

(** [s.outputsWg.Add(delta)]; [Done()] is [Add(-1)]. *)
Definition addOutputsWg (delta : Z) (s : Subscriber) : Subscriber :=
  {| conn := conn s; config := config s; subsLock := subsLock s;
     closed := closed s; closing := closing s;
     outputsWg := outputsWg s + delta;
     topicInterpreter := topicInterpreter s |}.

Definition errWaitGroup : error := New "output wait group did not finish".

(** What the rest of the system answers to one [Close]: whether
    [WaitGroupTimeout] reports a timeout, and the error of [Drain]. *)
Record CloseEnv : Type := mkCloseEnv {
  envTimedOut : bool;
  envDrain : option error
}.

(** The part of [Close] that follows [close(s.closing)]: its result and
    its events. *)
Definition closeWait (env : CloseEnv) (s : Subscriber)
  : option error * list event :=
  if envTimedOut env then
    (Some errWaitGroup, [EvWaitGroupTimeout (CloseTimeout (config s))])
  else
    (match envDrain env with
     | Some err => Some (Wrap err "cannot close conn")
     | None => None
     end,
     [EvWaitGroupTimeout (CloseTimeout (config s)); EvDrain]).

(** [Close], run from a state in which the lock is free.  The deferred
    [Unlock] and the deferred log line end every path that registered
    them. *)
Definition Close (env : CloseEnv) (s : Subscriber)
  : option error * Subscriber * list event :=
  let s := setLock true s in
  if closed s then (None, setLock false s, [])
  else
    let s := markClosed s in
    let s := closeClosing s in
    let '(err, evs) := closeWait env s in
    (err, setLock false s,
     [EvLog LDebug "Closing subscriber"; EvCloseClosing] ++ evs ++
     [EvLog LInfo "Subscriber closed"]).

(** [isClosed], which needs the lock to be free of its writer. *)
Definition isClosed (s : Subscriber) : option bool :=
  if subsLock s then None else Some (closed s).

(** ** Subscribe *)

(** Where the watcher goroutine of a native subscription is: blocked in
    its [select], back from [Unsubscribe] with its deferred [Done] still
    to run, or gone. *)
Inductive watcherPc : Type :=
| WatcherWaiting
| WatcherUnsubscribed
| WatcherExited.

(** A native subscription made by [QueueSubscribe], with the goroutine
    that watches it and the callback the client is running for it, if
    any. *)
Record Native : Type := mkNative {
  subject : string;
  queue : string;
  subscribed : bool;
  watcher : watcherPc;
  handler : option proc
}.

(** Where the last goroutine of [Subscribe] is: in [outputWg.Wait()],
    past it, past [close(output)], or gone after its deferred [Done]. *)
Inductive finisherPc : Type :=
| FinisherWaiting
| FinisherWoken
| FinisherClosed
| FinisherExited.

(** The locals of one [Subscribe] call that its goroutines share:
    the wait-group [outputWg], the native subscriptions, the last
    goroutine once started, and how many times [close(output)] ran. *)
Record CallState : Type := mkCallState {
  outputWg : Z;
  natives : list Native;
  finisher : option finisherPc;
  outputCloses : nat
}.

Definition newCall : CallState :=
  {| outputWg := 0; natives := []; finisher := None; outputCloses := 0 |}.

(** [outputWg.Add(delta)] *)
Definition addOutputWg (delta : Z) (c : CallState) : CallState :=
  {| outputWg := outputWg c + delta; natives := natives c;
     finisher := finisher c; outputCloses := outputCloses c |}.

Definition setNatives (l : list Native) (c : CallState) : CallState :=
  {| outputWg := outputWg c; natives := l;
     finisher := finisher c; outputCloses := outputCloses c |}.

Definition setFinisher (f : finisherPc) (c : CallState) : CallState :=
  {| outputWg := outputWg c; natives := natives c;
     finisher := Some f; outputCloses := outputCloses c |}.

(** [close(output)] *)
Definition closeOutput (c : CallState) : CallState :=
  {| outputWg := outputWg c; natives := natives c;
     finisher := finisher c; outputCloses := S (outputCloses c) |}.

(** A Go call that returns, or panics on a nil dereference. *)
Inductive outcome (T : Type) : Type :=
| Returns (v : T)
| Panics.
Arguments Returns {T} v.
Arguments Panics {T}.

(** [SubscribeInitialize]; [ensure] is the error of [ensureStream]. *)
Definition SubscribeInitialize (s : Subscriber) (ensure : option error)
  : outcome (option error) :=
  if topicInterpreter s then
    match ensure with
    | Some err => Returns (Some (Wrap err "cannot initialize subscribe"))
    | None => Returns None
    end
  else Panics.

(** The tail of [subscribe]: the subject and the [QueueSubscribe] call,
    whose error is [qsub]. *)
Definition queueSubscribe (s : Subscriber) (topic : string)
  (qsub : option error) : outcome (result Native * list event) :=
  match cfgSubjectCalculator (config s) with
  | None => Panics
  | Some calculator =>
    let primarySubject := Primary (calculator topic) in
    let group := QueueGroup (config s) in
    Returns
      (match qsub with
       | Some err => Err err
       | None => Ok {| subject := primarySubject; queue := group;
                       subscribed := true; watcher := WatcherWaiting;
                       handler := None |}
       end,
       [EvQueueSubscribe primarySubject group])
  end.

(** [subscribe] *)
Definition subscribe (s : Subscriber) (topic : string)
  (ensure qsub : option error) : outcome (result Native * list event) :=
  if (Enabled (JetStream (config s)) &&
      AutoProvision (JetStream (config s)))%bool then
    match SubscribeInitialize s ensure with
    | Panics => Panics
    | Returns (Some err) => Returns (Err err, [EvEnsureStream topic])
    | Returns None =>
      match queueSubscribe s topic qsub with
      | Panics => Panics
      | Returns (r, evs) => Returns (r, EvEnsureStream topic :: evs)
      end
    end
  else queueSubscribe s topic qsub.

(** One turn of the loop of [Subscribe]: [outputWg.Add(1)], the log line,
    [subscribe], and on success the [go] statement, which adds the native
    subscription with its watcher. *)
Definition subscribeIter (s : Subscriber) (topic : string)
  (ensure qsub : option error) (c : CallState)
  : outcome (option error * CallState * list event) :=
  let c := addOutputWg 1 c in
  match subscribe s topic ensure qsub with
  | Panics => Panics
  | Returns (Err err, evs) =>
    Returns (Some (Wrap err "cannot subscribe"), c,
             EvLog LDebug "Starting subscriber" :: evs)
  | Returns (Ok sub, evs) =>
    Returns (None, setNatives (natives c ++ [sub]) c,
             EvLog LDebug "Starting subscriber" :: evs)
  end.

(** What the connection answers to the [i]-th turn of the loop. *)
Record SubscribeEnv : Type := mkSubscribeEnv {
  envEnsureStream : nat -> option error;
  envQueueSubscribe : nat -> option error
}.

(** The loop of [Subscribe] from turn [i] with [todo] turns to go, then
    the [go] statement of the last goroutine. *)
Fixpoint subscribeLoop (env : SubscribeEnv) (s : Subscriber)
  (topic : string) (todo i : nat) (c : CallState)
  : outcome (option error * CallState * list event) :=
  match todo with
  | O => Returns (None, setFinisher FinisherWaiting c, [])
  | S todo =>
    match subscribeIter s topic (envEnsureStream env i)
            (envQueueSubscribe env i) c with
    | Panics => Panics
    | Returns (Some err, c, evs) => Returns (Some err, c, evs)
    | Returns (None, c, evs) =>
      match subscribeLoop env s topic todo (S i) c with
      | Panics => Panics
      | Returns (r, c, evs') => Returns (r, c, evs ++ evs')
      end
    end
  end.

(** [Subscribe]: the error it returns ([None] with the delivery channel),
    the subscriber, and the state its goroutines start from. *)
Definition Subscribe (env : SubscribeEnv) (s : Subscriber) (topic : string)
  : outcome (option error * Subscriber * CallState * list event) :=
  let s := addOutputsWg 1 s in
  match subscribeLoop env s topic
          (Z.to_nat (SubscribersCount (config s))) 0 newCall with
  | Panics => Panics
  | Returns (r, c, evs) => Returns (r, s, c, evs)
  end.

(** ** The goroutines of a Subscribe call, interleaved

    One [Subscribe] call on a fresh subscriber, together with a [Close],
    the cancellation of the context, the broker's deliveries, and the
    goroutines these start.  Each goroutine moves by the steps between its
    blocking points; [fire] makes one such step, chosen by a [label] that
    also carries what the rest of the system answers.  [Subscribe] takes
    no lock and does not read the closed flag, so its steps come at any
    time, also between the end of the wait of [Close] and its [Drain]. *)

(** Where the [Subscribe] call is: before [s.outputsWg.Add(1)], at the
    loop test with counter [i], past the [go] statement of its last
    goroutine with [return output, nil] to come, or back with its error. *)
Inductive subscribePc : Type :=
| SubscribeEntry
| SubscribeTest (i : nat)
| SubscribeSpawned
| SubscribeReturned (err : option error)
| SubscribePanicked.

(** Where the first [Close] call is: not past the test of [s.closed],
    past [s.closed = true], in [WaitGroupTimeout], back from it with the
    wait-group drained and [Drain] to come, or back with its error.  A
    later [Close] finds the flag set and changes nothing. *)
Inductive closePc : Type :=
| CloseIdle
| CloseMarked
| CloseWaiting
| CloseDraining
| CloseReturned (err : option error).

Record World : Type := mkWorld {
  sub : Subscriber;
  ctxDone : bool;
  call : CallState;
  subscribeAt : subscribePc;
  closeAt : closePc;
  delivered : list Message;
  crashed : option string
}.

(** The start: a subscriber, a live context, no call made. *)
Definition start (s : Subscriber) : World :=
  {| sub := s; ctxDone := false; call := newCall;
     subscribeAt := SubscribeEntry; closeAt := CloseIdle;
     delivered := []; crashed := None |}.

Definition withSub (s : Subscriber) (w : World) : World :=
  {| sub := s; ctxDone := ctxDone w; call := call w;
     subscribeAt := subscribeAt w; closeAt := closeAt w;
     delivered := delivered w; crashed := crashed w |}.

Definition withCall (c : CallState) (w : World) : World :=
  {| sub := sub w; ctxDone := ctxDone w; call := c;
     subscribeAt := subscribeAt w; closeAt := closeAt w;
     delivered := delivered w; crashed := crashed w |}.

Definition withSubscribeAt (pc : subscribePc) (w : World) : World :=
  {| sub := sub w; ctxDone := ctxDone w; call := call w;
     subscribeAt := pc; closeAt := closeAt w;
     delivered := delivered w; crashed := crashed w |}.

Definition withCloseAt (pc : closePc) (w : World) : World :=
  {| sub := sub w; ctxDone := ctxDone w; call := call w;
     subscribeAt := subscribeAt w; closeAt := pc;
     delivered := delivered w; crashed := crashed w |}.

(** The context of the [Subscribe] call is cancelled. *)
Definition cancel (w : World) : World :=
  {| sub := sub w; ctxDone := true; call := call w;
     subscribeAt := subscribeAt w; closeAt := closeAt w;
     delivered := delivered w; crashed := crashed w |}.

(** The consumer receives [msg] from the delivery channel. *)
Definition deliver (msg : Message) (w : World) : World :=
  {| sub := sub w; ctxDone := ctxDone w; call := call w;
     subscribeAt := subscribeAt w; closeAt := closeAt w;
     delivered := delivered w ++ [msg]; crashed := crashed w |}.

(** A goroutine panics, which ends the program. *)
Definition crash (text : string) (w : World) : World :=
  {| sub := sub w; ctxDone := ctxDone w; call := call w;
     subscribeAt := subscribeAt w; closeAt := closeAt w;
     delivered := delivered w; crashed := Some text |}.

(** [sub.Unsubscribe()] has returned [err] in the watcher, which only
    logs it: after an error the native subscription is as it was. *)
Definition unsubscribed (err : option error) (n : Native) : Native :=
  {| subject := subject n; queue := queue n;
     subscribed := match err with
                   | Some _ => subscribed n
                   | None => false
                   end;
     watcher := WatcherUnsubscribed; handler := handler n |}.

(** The watcher has run its deferred [outputWg.Done()] and is gone. *)
Definition exited (n : Native) : Native :=
  {| subject := subject n; queue := queue n; subscribed := subscribed n;
     watcher := WatcherExited; handler := handler n |}.

Definition setHandler (p : option proc) (n : Native) : Native :=
  {| subject := subject n; queue := queue n; subscribed := subscribed n;
     watcher := watcher n; handler := p |}.

(** What a step of a callback does to the rest of the system. *)
Inductive action : Type :=
| Silent
| Deliver (msg : Message)
| Crash (text : string).

(** One step of a callback: its action and what is left of it, or [None]
    when the step [env] asks for cannot be made now.  [isClosed] waits
    for the lock; a receive from [closing] or from the context needs that
    channel closed; timer, ack and nack can come at any time; the send of
    a [select] goes through when the consumer receives, and panics on a
    closed channel. *)
Definition procStep (env : Env) (s : Subscriber) (ctxDone outputClosed : bool)
  (p : proc) : option (action * option proc) :=
  match p with
  | Return => Some (Silent, None)
  | Panic text => Some (Crash text, None)
  | Emit _ k => Some (Silent, Some k)
  | Call c k => Some (Silent, Some (k (envCall env c)))
  | ReadMetadata k => Some (Silent, Some (k (envMetadata env)))
  | IsClosed k =>
    match isClosed s with
    | Some b => Some (Silent, Some (k b))
    | None => None
    end
  | SelectHandoff msg onClosing onCtxDone onSent =>
    match envHandoff env with
    | HandoffClosing =>
      if closing s then Some (Silent, Some onClosing) else None
    | HandoffCtxDone =>
      if ctxDone then Some (Silent, Some onCtxDone) else None
    | HandoffSent =>
      if outputClosed then Some (Crash "send on closed channel", None)
      else Some (Deliver msg, Some onSent)
    end
  | SelectAck onAcked onNacked onTimeout onClosing onCtxDone =>
    match envSignal env with
    | SigAcked => Some (Silent, Some onAcked)
    | SigNacked => Some (Silent, Some onNacked)
    | SigTimeout => Some (Silent, Some onTimeout)
    | SigClosing =>
      if closing s then Some (Silent, Some onClosing) else None
    | SigCtxDone =>
      if ctxDone then Some (Silent, Some onCtxDone) else None
    end
  end.

Definition act (a : action) (w : World) : World :=
  match a with
  | Silent => w
  | Deliver msg => deliver msg w
  | Crash text => crash text w
  end.

(** The steps. *)
Inductive label : Type :=
| SubscribeEnter
| SubscribeTurn (ensure qsub : option error)
| SubscribeGo
| SubscribeReturn
| CtxCancel
| CloseEnter
| CloseSignal
| CloseWaitOver (timedOut : bool)
| CloseDrain (drain : option error)
| WatcherUnsubscribe (num : nat) (err : option error)
| WatcherExit (num : nat)
| FinisherWake
| FinisherClose
| FinisherExit
| BrokerDeliver (num : nat) (m : NatsMsg)
| Handler (num : nat) (env : Env).

(** Replace the native subscription [num] by what [f] makes of it. *)
Definition onNative (num : nat) (f : Native -> option Native) (w : World)
  : option World :=
  match natives (call w) !! num with
  | Some n =>
    match f n with
    | Some n' =>
      Some (withCall (setNatives (<[num := n']> (natives (call w))) (call w)) w)
    | None => None
    end
  | None => None
  end.

Section Interleaving.

Variable StopTime : Z.
Variable topic : string.

(** The number of turns of the loop of [Subscribe]. *)
Definition turns (w : World) : nat :=
  Z.to_nat (SubscribersCount (config (sub w))).

Definition fire (l : label) (w : World) : option World :=
  match crashed w with
  | Some _ => None
  | None =>
    match l with
    | SubscribeEnter =>
      match subscribeAt w with
      | SubscribeEntry =>
        Some (withSubscribeAt (SubscribeTest 0)
                (withSub (addOutputsWg 1 (sub w)) w))
      | _ => None
      end
    | SubscribeTurn ensure qsub =>
      match subscribeAt w with
      | SubscribeTest i =>
        if (i <? turns w)%nat then
          match subscribeIter (sub w) topic ensure qsub (call w) with
          | Panics => Some (withSubscribeAt SubscribePanicked
                              (crash "nil pointer dereference" w))
          | Returns (Some err, c, _) =>
            Some (withSubscribeAt (SubscribeReturned (Some err))
                    (withCall c w))
          | Returns (None, c, _) =>
            Some (withSubscribeAt (SubscribeTest (S i)) (withCall c w))
          end
        else None
      | _ => None
      end
    | SubscribeGo =>
      match subscribeAt w with
      | SubscribeTest i =>
        if (i <? turns w)%nat then None
        else Some (withSubscribeAt SubscribeSpawned
                     (withCall (setFinisher FinisherWaiting (call w)) w))
      | _ => None
      end
    | SubscribeReturn =>
      match subscribeAt w with
      | SubscribeSpawned => Some (withSubscribeAt (SubscribeReturned None) w)
      | _ => None
      end
    | CtxCancel => Some (cancel w)
    | CloseEnter =>
      match closeAt w with
      | CloseIdle =>
        if subsLock (sub w) then None
        else if closed (sub w) then None
        else Some (withCloseAt CloseMarked
                     (withSub (markClosed (setLock true (sub w))) w))
      | _ => None
      end
    | CloseSignal =>
      match closeAt w with
      | CloseMarked =>
        Some (withCloseAt CloseWaiting (withSub (closeClosing (sub w)) w))
      | _ => None
      end
    | CloseWaitOver timedOut =>
      match closeAt w with
      | CloseWaiting =>
        if timedOut then
          Some (withCloseAt (CloseReturned (Some errWaitGroup))
                  (withSub (setLock false (sub w)) w))
        else if outputsWg (sub w) =? 0 then Some (withCloseAt CloseDraining w)
        else None
      | _ => None
      end
    | CloseDrain drain =>
      match closeAt w with
      | CloseDraining =>
        Some (withCloseAt
                (CloseReturned
                   match drain with
                   | Some err => Some (Wrap err "cannot close conn")
                   | None => None
                   end)
                (withSub (setLock false (sub w)) w))
      | _ => None
      end
    | WatcherUnsubscribe num err =>
      if (closing (sub w) || ctxDone w)%bool then
        onNative num (fun n =>
          match watcher n with
          | WatcherWaiting => Some (unsubscribed err n)
          | _ => None
          end) w
      else None
    | WatcherExit num =>
      match
        onNative num (fun n =>
          match watcher n with
          | WatcherUnsubscribed => Some (exited n)
          | _ => None
          end) w
      with
      | Some w => Some (withCall (addOutputWg (-1) (call w)) w)
      | None => None
      end
    | FinisherWake =>
      match finisher (call w) with
      | Some FinisherWaiting =>
        if outputWg (call w) =? 0 then
          Some (withCall (setFinisher FinisherWoken (call w)) w)
        else None
      | _ => None
      end
    | FinisherClose =>
      match finisher (call w) with
      | Some FinisherWoken =>
        let w' := withCall (setFinisher FinisherClosed
                              (closeOutput (call w))) w in
        match outputCloses (call w) with
        | O => Some w'
        | S _ => Some (crash "close of closed channel" w')
        end
      | _ => None
      end
    | FinisherExit =>
      match finisher (call w) with
      | Some FinisherClosed =>
        Some (withSub (addOutputsWg (-1) (sub w))
                (withCall (setFinisher FinisherExited (call w)) w))
      | _ => None
      end
    | BrokerDeliver num m =>
      onNative num (fun n =>
        match subscribed n, handler n with
        | true, None =>
          Some (setHandler
                  (Some (processMessage StopTime (config (sub w)) m)) n)
        | _, _ => None
        end) w
    | Handler num env =>
      match natives (call w) !! num with
      | Some n =>
        match handler n with
        | Some p =>
          match procStep env (sub w) (ctxDone w)
                  (0 <? outputCloses (call w))%nat p with
          | Some (a, p') =>
            Some (act a
                    (withCall (setNatives (<[num := setHandler p' n]>
                                             (natives (call w))) (call w)) w))
          | None => None
          end
        | None => None
        end
      | None => None
      end
    end
  end.

(** One step, and the states a run can be in. *)
Definition step (w w' : World) : Prop := exists l, fire l w = Some w'.

Inductive reachable (s : Subscriber) : World -> Prop :=
| reachable_start : reachable s (start s)
| reachable_step w w' : reachable s w -> step w w' -> reachable s w'.

(** Run the steps of a list of labels. *)
Fixpoint run (ls : list label) (w : World) : option World :=
  match ls with
  | [] => Some w
  | l :: ls =>
    match fire l w with
    | Some w' => run ls w'
    | None => None
    end
  end.

(** The watchers that have not run their [Done]. *)
Definition notExited (n : Native) : bool :=
  match watcher n with WatcherExited => false | _ => true end.

Definition pending (l : list Native) : nat :=
  length (List.filter notExited l).

(** What holds of the call between any two steps.  The last goroutine
    has closed the channel exactly when it is past [close(output)], and
    it is past [outputWg.Wait()] only with the counter at zero. *)
Definition finisherInv (c : CallState) : Prop :=
  match finisher c with
  | None | Some FinisherWaiting => outputCloses c = 0%nat
  | Some FinisherWoken => outputCloses c = 0%nat /\ outputWg c = 0
  | Some FinisherClosed | Some FinisherExited =>
    outputCloses c = 1%nat /\ outputWg c = 0
  end.

(** While the loop runs and after it, the counter of [outputWg] is the
    number of watchers still there; the last goroutine exists only once
    the loop has made all its turns. *)
Definition loopInv (n : nat) (pc : subscribePc) (c : CallState) : Prop :=
  match pc with
  | SubscribeEntry => c = newCall
  | SubscribeTest i =>
    (i <= n)%nat /\ length (natives c) = i /\ finisher c = None /\
    outputWg c = Z.of_nat (pending (natives c))
  | SubscribeSpawned | SubscribeReturned None =>
    length (natives c) = n /\ finisher c <> None /\
    outputWg c = Z.of_nat (pending (natives c))
  | SubscribeReturned (Some _) | SubscribePanicked => finisher c = None
  end.

(** A native subscription stays subscribed while its watcher waits. *)
Definition watcherInv (l : list Native) : Prop :=
  Forall (fun n => watcher n = WatcherWaiting -> subscribed n = true) l.

Definition callInvariant (w : World) : Prop :=
  finisherInv (call w) /\
  loopInv (turns w) (subscribeAt w) (call w) /\
  watcherInv (natives (call w)).

(** The [Subscribe] call is past its loop: its last goroutine is started
    and it returns, or has returned, the channel. *)
Definition pastLoop (w : World) : Prop :=
  subscribeAt w = SubscribeSpawned \/ subscribeAt w = SubscribeReturned None.

(** The first part of the claim on the delivery channel: [close(output)]
    runs at most once, and when it has run each native subscription of the
    call has terminated. *)
Definition closedOnceAfterUnsubscribe (s : Subscriber) : Prop :=
  forall w, reachable s w ->
    (outputCloses (call w) <= 1)%nat /\
    (outputCloses (call w) = 1%nat ->
     Forall (fun n => subscribed n = false) (natives (call w))).

(** What the code has in its place: when [close(output)] has run, the loop
    of [Subscribe] has made all its turns and the watcher of each native
    subscription is gone, after its [Unsubscribe]. *)
Definition closedOnceAfterWatchers (s : Subscriber) : Prop :=
  forall w, reachable s w ->
    (outputCloses (call w) <= 1)%nat /\
    (outputCloses (call w) = 1%nat ->
     pastLoop w /\
     length (natives (call w)) = turns w /\
     Forall (fun n => watcher n = WatcherExited) (natives (call w))).

(** A step in which [Unsubscribe] does not fail. *)
Definition unsubscribeSucceeds (l : label) : Prop :=
  match l with
  | WatcherUnsubscribe _ (Some _) => False
  | _ => True
  end.

(** In a run in which no [Unsubscribe] fails, each native subscription of
    the call is unsubscribed when [close(output)] has run. *)
Definition closedAfterUnsubscribe (s : Subscriber) : Prop :=
  forall ls w, Forall unsubscribeSucceeds ls -> run ls (start s) = Some w ->
    outputCloses (call w) = 1%nat ->
    Forall (fun n => subscribed n = false) (natives (call w)).

(** Its second part: no step made once the subscriber is marked closed
    hands a message to the consumer. *)
Definition silentOnceClosed (s : Subscriber) : Prop :=
  forall w w', reachable s w -> step w w' ->
    closed (sub w) = true -> delivered w' = delivered w.

(** Its third part: no callback sends on the closed channel. *)
Definition neverSendsOnClosed (s : Subscriber) : Prop :=
  forall w, reachable s w -> crashed w <> Some "send on closed channel".

(** The claim on the delivery channel, as the specification states it. *)
Definition deliveryChannelClaim (s : Subscriber) : Prop :=
  closedOnceAfterUnsubscribe s /\ silentOnceClosed s /\ neverSendsOnClosed s.

(** The steps of the watchers and of the last goroutine, when
    [Unsubscribe] on the native subscription [num] answers [errs num]. *)
Definition ownStep (errs : nat -> option error) (l : label) : Prop :=
  match l with
  | WatcherUnsubscribe num err => err = errs num
  | WatcherExit _ | FinisherWake | FinisherClose | FinisherExit => True
  | _ => False
  end.

(** Once the last goroutine of the call is started and the subscriber is
    closing or the context cancelled, the goroutines of the call can run
    to the close of the channel by their own steps, whatever [Unsubscribe]
    answers: nothing they wait for is missing. *)
Definition canClose (s : Subscriber) : Prop :=
  forall errs w, reachable s w -> crashed w = None ->
    finisher (call w) <> None ->
    closing (sub w) = true \/ ctxDone w = true ->
    exists ls w', Forall (ownStep errs) ls /\ run ls w = Some w' /\
                  crashed w' = None /\ outputCloses (call w') = 1%nat.

(** Only the last goroutine of the call closes the channel. *)
Definition closedByFinisher (s : Subscriber) : Prop :=
  forall w l w', reachable s w -> fire l w = Some w' ->
    outputCloses (call w') <> outputCloses (call w) -> l = FinisherClose.

(** A closed channel hands over nothing more. *)
Definition silentOnceOutputClosed (s : Subscriber) : Prop :=
  forall w w', reachable s w -> step w w' ->
    outputCloses (call w) = 1%nat -> delivered w' = delivered w.

End Interleaving.

(** The [QueueSubscribe] calls among some events. *)
Definition queueSubscribes (t : list event) : list (string * string) :=
  omap (fun e => match e with
                 | EvQueueSubscribe subject queue => Some (subject, queue)
                 | _ => None
                 end) t.

(** The times [close(s.closing)] runs among some events. *)
Definition closings (t : list event) : list unit :=
  omap (fun e => match e with EvCloseClosing => Some tt | _ => None end) t.

(** What construction establishes and [Subscribe] relies on: a subject
    calculator, and a topic interpreter when streams are provisioned. *)
Definition constructed (s : Subscriber) : Prop :=
  cfgSubjectCalculator (config s) <> None /\
  cfgUnmarshaler (config s) <> None /\
  (Enabled (JetStream (config s)) = true -> topicInterpreter s = true).

(** A native subscription as [QueueSubscribe] returns it: subscribed,
    its watcher waiting, no callback running. *)
Definition inPlace (sub : Native) : Prop :=
  subscribed sub = true /\ watcher sub = WatcherWaiting /\ handler sub = None.

(** The sentence [Close(); Close()] returns success twice, for the answers
    [env1] and [env2] of the rest of the system. *)
Definition closeTwiceSucceeds (env1 env2 : CloseEnv) (s : Subscriber) : Prop :=
  (Close env1 s).1.1 = None /\
  (Close env2 (Close env1 s).1.2).1.1 = None.

(** ** Sample values *)

(** A calculator that follows the default rule, topic to [topic.*]. *)
Definition sampleCalculator : SubjectCalculator :=
  fun topic =>
    {| Primary := String.append topic ".*";
       All := [String.append topic ".*"] |}.

(** An unmarshaler that refuses frames without payload and otherwise
    copies the payload. *)
Definition sampleUnmarshaler : Unmarshaler :=
  {| Unmarshal m :=
       match Data m with
       | [] => Err (New "empty frame")
       | _ => Ok (Some {| UUID := "u-1"; Metadata := []; Payload := Data m |})
       end |}.

(** A delay policy: 200ms twice, then stop (with -1 for [StopTime]). *)
Definition sampleDelay : Delay :=
  {| WaitTime n := if (n <? 3)%N then 200000000 else -1 |}.

(** The zero value of the configuration. *)
Definition zeroConfig : SubscriberSubscriptionConfig :=
  {| cfgUnmarshaler := None; QueueGroup := ""; SubscribersCount := 0;
     AckWaitTimeout := 0; CloseTimeout := 0; SubscribeTimeout := 0;
     cfgSubjectCalculator := None; AckSync := false; NakDelay := None;
     JetStream := {| Enabled := false; AutoProvision := false;
                     ConnectOptions := [] |} |}.

(** Three subscribers and no queue group; a close timeout of 5s. *)
Definition fanoutConfig : SubscriberSubscriptionConfig :=
  {| cfgUnmarshaler := None; QueueGroup := ""; SubscribersCount := 3;
     AckWaitTimeout := 0; CloseTimeout := 5 * Second; SubscribeTimeout := -1;
     cfgSubjectCalculator := None; AckSync := false; NakDelay := None;
     JetStream := {| Enabled := false; AutoProvision := false;
                     ConnectOptions := [] |} |}.

(** A defaulted configuration with the given ack mode, delay policy and
    subscriber count, in queue group [workers]. *)
Definition sampleConfig (ackSync : bool) (delay : option Delay) (n : Z)
  : SubscriberSubscriptionConfig :=
  {| cfgUnmarshaler := Some sampleUnmarshaler; QueueGroup := "workers";
     SubscribersCount := n;
     AckWaitTimeout := 30 * Second; CloseTimeout := 30 * Second;
     SubscribeTimeout := 30 * Second;
     cfgSubjectCalculator := Some sampleCalculator; AckSync := ackSync;
     NakDelay := delay;
     JetStream := {| Enabled := false; AutoProvision := false;
                     ConnectOptions := [] |} |}.

(** A frame of a persistent stream (it has a reply subject), and one of
    the core broker (it has none). *)
Definition streamFrame : NatsMsg :=
  {| Subject := "orders.new"; Reply := "$JS.ACK.orders.c.1.1.1.0.0";
     Header := []; Data := [Byte.x68; Byte.x69] |}.

Definition coreFrame : NatsMsg :=
  {| Subject := "orders.new"; Reply := "";
     Header := []; Data := [Byte.x68; Byte.x69] |}.

Definition emptyFrame : NatsMsg :=
  {| Subject := "orders.new"; Reply := ""; Header := []; Data := [] |}.

Definition sampleMessage : Message :=
  {| UUID := "u-1"; Metadata := []; Payload := [Byte.x68; Byte.x69] |}.

(** A run in which the message is handed to the consumer, which answers
    with [sig]; the frame is on its [n]-th delivery and every transport
    call succeeds. *)
Definition sampleEnv (sig : signal) (n : N) : Env :=
  {| envClosed := false; envHandoff := HandoffSent; envSignal := sig;
     envMetadata := Ok {| NumDelivered := n |};
     envCall := fun _ => None |}.

(** A subscriber as [NewSubscriberWithNatsConn] builds it from
    [sampleConfig]. *)
Definition sampleSubscriber (n : Z) : Subscriber :=
  {| conn := CoreConn; config := sampleConfig false None n;
     subsLock := false; closed := false; closing := false; outputsWg := 0;
     topicInterpreter := false |}.

(** A connection that refuses the [i]-th [QueueSubscribe] of a call. *)
Definition refusing (i : nat) : SubscribeEnv :=
  {| envEnsureStream := fun _ => None;
     envQueueSubscribe := fun j =>
       if Nat.eqb j i then Some (New "nats: timeout") else None |}.

(** A run in which a callback gets past its test of the closed flag
    before [Close] is called: the call, one delivery of the broker, and
    the four steps of the callback up to its first [select]. *)
Definition callbackAtHandoff : list label :=
  [SubscribeEnter; SubscribeTurn None None; SubscribeGo; SubscribeReturn;
   BrokerDeliver 0 streamFrame;
   Handler 0 (sampleEnv SigAcked 1); Handler 0 (sampleEnv SigAcked 1);
   Handler 0 (sampleEnv SigAcked 1); Handler 0 (sampleEnv SigAcked 1)].

(** Then [Close] marks the subscriber closed. *)
Definition closeMarksFirst : list label :=
  callbackAtHandoff ++ [CloseEnter].

(** Or [Close] goes on, the watcher unsubscribes and leaves, and the last
    goroutine closes the channel, all before the callback moves again. *)
Definition closeOutputFirst : list label :=
  callbackAtHandoff ++
  [CloseEnter; CloseSignal; WatcherUnsubscribe 0 None; WatcherExit 0;
   FinisherWake; FinisherClose].

(** A call with two subscribers whose context is cancelled once it has
    returned. *)
Definition cancelledCall : list label :=
  [SubscribeEnter; SubscribeTurn None None; SubscribeTurn None None;
   SubscribeGo; SubscribeReturn; CtxCancel].

(** ** The configuration of the test helper [newPubSub] *)

(** [nats.DefaultURL] belongs to the NATS client and [msg.GetMarshaler] to
    another package; the URL from the environment, the marshaler and the
    options are taken as they come. *)
Definition testURL (DefaultURL envURL : string) : string :=
  if String.eqb envURL "" then DefaultURL else envURL.

(** [subscriberCount := 1; if queueName != "" { subscriberCount = 2 }] *)
Definition subscriberCount (queueName : string) : Z :=
  if String.eqb queueName "" then 1 else 2.

(** The [SubscriberConfig] that [newPubSub] passes to [NewSubscriber]. *)
Definition newPubSubConfig (DefaultURL envURL queueName : string)
  (exactlyOnce : bool) (marshaler : option Unmarshaler) (options : list nat)
  : SubscriberConfig :=
  {| URL := testURL DefaultURL envURL;
     sc_QueueGroup := queueName;
     sc_SubscribersCount := subscriberCount queueName;
     sc_CloseTimeout := 30 * Second;
     sc_AckWaitTimeout := 30 * Second;
     sc_SubscribeTimeout := 0;
     NatsOptions := options;
     sc_Unmarshaler := marshaler;
     sc_SubjectCalculator := None;
     sc_AckSync := exactlyOnce;
     sc_NakDelay := None;
     sc_JetStream := {| Enabled := false; AutoProvision := false;
                        ConnectOptions := [] |} |}.

(** ** Predicates on runs *)

(** A subscriber as construction leaves it: open, its lock free, its
    wait-group empty. *)
Definition pristine (s : Subscriber) : Prop :=
  subsLock s = false /\ closed s = false /\ closing s = false /\
  outputsWg s = 0.

(** A goroutine body whose panics of its own are nil dereferences, and
    are there on some path only if [P] holds. *)
Fixpoint panicsOnlyIf (P : Prop) (p : proc) : Prop :=
  match p with
  | Return => True
  | Panic text => text = "nil pointer dereference" /\ P
  | Emit _ k => panicsOnlyIf P k
  | Call _ k => forall r, panicsOnlyIf P (k r)
  | ReadMetadata k => forall r, panicsOnlyIf P (k r)
  | IsClosed k => forall b, panicsOnlyIf P (k b)
  | SelectHandoff _ onClosing onCtxDone onSent =>
    panicsOnlyIf P onClosing /\ panicsOnlyIf P onCtxDone /\
    panicsOnlyIf P onSent
  | SelectAck onAcked onNacked onTimeout onClosing onCtxDone =>
    panicsOnlyIf P onAcked /\ panicsOnlyIf P onNacked /\
    panicsOnlyIf P onTimeout /\ panicsOnlyIf P onClosing /\
    panicsOnlyIf P onCtxDone
  end.

(** The running callbacks of some native subscriptions are such. *)
Definition handlersSafe (P : Prop) (l : list Native) : Prop :=
  Forall (fun n => match handler n with
                   | Some p => panicsOnlyIf P p
                   | None => True
                   end) l.

(** The unmarshaler of [cfg] returns, for some frame, a nil message and no
    error. *)
Definition nilMessage (cfg : SubscriberSubscriptionConfig) : Prop :=
  exists u m, cfgUnmarshaler cfg = Some u /\ Unmarshal u m = Ok None.

(** A goroutine body without [select]. *)
Fixpoint quiet (p : proc) : Prop :=
  match p with
  | Return | Panic _ => True
  | Emit _ k => quiet k
  | Call _ k => forall r, quiet (k r)
  | ReadMetadata k => forall r, quiet (k r)
  | IsClosed k => forall b, quiet (k b)
  | SelectHandoff _ _ _ _ | SelectAck _ _ _ _ _ => False
  end.

(** A goroutine body that tests the closed flag before any [select], and
    has no [select] once it has found the flag set. *)
Fixpoint quietIfClosed (p : proc) : Prop :=
  match p with
  | Return | Panic _ => True
  | Emit _ k => quietIfClosed k
  | Call _ k => forall r, quietIfClosed (k r)
  | ReadMetadata k => forall r, quietIfClosed (k r)
  | IsClosed k => quiet (k true)
  | SelectHandoff _ _ _ _ | SelectAck _ _ _ _ _ => False
  end.

(** The steps a callback makes, one after the other, each against a
    subscriber that is marked closed; the rest of the system may differ
    from step to step. *)
Inductive closedSteps : proc -> list action -> Prop :=
| closedSteps_stop p : closedSteps p []
| closedSteps_last env s ctx outputClosed p a :
    closed s = true ->
    procStep env s ctx outputClosed p = Some (a, None) ->
    closedSteps p [a]
| closedSteps_next env s ctx outputClosed p a p' acts :
    closed s = true ->
    procStep env s ctx outputClosed p = Some (a, Some p') ->
    closedSteps p' acts ->
    closedSteps p (a :: acts).

(** Where [Close] is and what it has done to the subscriber. *)
Definition closeInvariant (w : World) : Prop :=
  match closeAt w with
  | CloseIdle =>
    subsLock (sub w) = false /\ closed (sub w) = false /\
    closing (sub w) = false
  | CloseMarked =>
    subsLock (sub w) = true /\ closed (sub w) = true /\
    closing (sub w) = false
  | CloseWaiting | CloseDraining =>
    subsLock (sub w) = true /\ closed (sub w) = true /\
    closing (sub w) = true
  | CloseReturned _ =>
    subsLock (sub w) = false /\ closed (sub w) = true /\
    closing (sub w) = true
  end.

(** The two wait-group counters: [s.outputsWg] is up by one from the entry
    of [Subscribe] to the [Done] of its last goroutine, and [outputWg]
    counts the watchers still there, and one more after a failed turn. *)
Definition wgInvariant (s0 : Subscriber) (w : World) : Prop :=
  outputsWg (sub w) =
    outputsWg s0 +
    match subscribeAt w with SubscribeEntry => 0 | _ => 1 end -
    match finisher (call w) with Some FinisherExited => 1 | _ => 0 end /\
  outputWg (call w) =
    Z.of_nat (pending (natives (call w))) +
    match subscribeAt w with SubscribeReturned (Some _) => 1 | _ => 0 end.

(** The events of a turn of the loop of [Subscribe] that succeeds. *)
Definition turnEvents (s : Subscriber) (topic primary : string) : list event :=
  EvLog LDebug "Starting subscriber" ::
  (if (Enabled (JetStream (config s)) &&
       AutoProvision (JetStream (config s)))%bool
   then [EvEnsureStream topic] else []) ++
  [EvQueueSubscribe primary (QueueGroup (config s))].

(** Whether [subscribe] provisions the stream first. *)
Definition provisions (s : Subscriber) : bool :=
  (Enabled (JetStream (config s)) && AutoProvision (JetStream (config s)))%bool.

(** The error a turn of the loop ends [Subscribe] with, from what the
    connection answers: that of [ensureStream] when streams are
    provisioned, else that of [QueueSubscribe], wrapped on the way up. *)
Definition turnError (s : Subscriber) (ensure qsub : option error)
  : option error :=
  match (if provisions s then ensure else None), qsub with
  | Some err, _ =>
    Some (Wrap (Wrap err "cannot initialize subscribe") "cannot subscribe")
  | None, Some err => Some (Wrap err "cannot subscribe")
  | None, None => None
  end.

(** The native subscription a turn adds. *)
Definition nativeFor (s : Subscriber) (primary : string) : Native :=
  {| subject := primary; queue := QueueGroup (config s);
     subscribed := true; watcher := WatcherWaiting; handler := None |}.

(** The [ensureStream] calls among some events. *)
Definition ensureStreams (t : list event) : list string :=
  omap (fun e => match e with EvEnsureStream topic => Some topic | _ => None end)
    t.

(** The timers made and stopped, and the cancellations, among some
    events. *)
Definition timers (t : list event) : list Z :=
  omap (fun e => match e with EvNewTimer d => Some d | _ => None end) t.

Definition timerStops (t : list event) : list unit :=
  omap (fun e => match e with EvStopTimer => Some tt | _ => None end) t.

Definition ctxCancels (t : list event) : list unit :=
  omap (fun e => match e with EvCancelCtx => Some tt | _ => None end) t.

(** The log lines of a level among some events. *)
Definition logged (l : level) (t : list event) : list string :=
  omap (fun e => match e with
                 | EvLog LTrace text =>
                   match l with LTrace => Some text | _ => None end
                 | EvLog LDebug text =>
                   match l with LDebug => Some text | _ => None end
                 | EvLog LInfo text =>
                   match l with LInfo => Some text | _ => None end
                 | EvLog LError text =>
                   match l with LError => Some text | _ => None end
                 | _ => None
                 end) t.

(** ** More sample values *)

(** A subscriber on JetStream that provisions its streams, as
    [NewSubscriberWithNatsConn] builds it. *)
Definition streamSubscriber (n : Z) : Subscriber :=
  {| conn := JetStreamConn;
     config :=
       {| cfgUnmarshaler := Some sampleUnmarshaler; QueueGroup := "workers";
          SubscribersCount := n;
          AckWaitTimeout := 30 * Second; CloseTimeout := 30 * Second;
          SubscribeTimeout := 30 * Second;
          cfgSubjectCalculator := Some sampleCalculator; AckSync := false;
          NakDelay := None;
          JetStream := {| Enabled := true; AutoProvision := true;
                          ConnectOptions := [] |} |};
     subsLock := false; closed := false; closing := false; outputsWg := 0;
     topicInterpreter := true |}.

(** A connection on which the [i]-th [ensureStream] of a call fails. *)
Definition noStream (i : nat) : SubscribeEnv :=
  {| envEnsureStream := fun j =>
       if Nat.eqb j i then Some (New "nats: stream not found") else None;
     envQueueSubscribe := fun _ => None |}.

(** The answers of [env], but every transport call fails. *)
Definition failingCalls (env : Env) : Env :=
  {| envClosed := envClosed env; envHandoff := envHandoff env;
     envSignal := envSignal env; envMetadata := envMetadata env;
     envCall := fun _ => Some (New "nats: timeout") |}.


(** A [Close] whose wait is over before the call is made: the call goes on
    while [Close] drains the connection and returns. *)
Definition lateCall : list label :=
  [CloseEnter; CloseSignal; CloseWaitOver false;
   SubscribeEnter; SubscribeTurn None None; CloseDrain None].

(** A call on a cancelled context, whose goroutines close the channel
    before [Subscribe] returns it. *)
Definition closedBeforeReturn : list label :=
  [CtxCancel; SubscribeEnter; SubscribeTurn None None; SubscribeGo;
   WatcherUnsubscribe 0 None; WatcherExit 0; FinisherWake; FinisherClose].

(** A call whose [Unsubscribe] fails once the context is cancelled: the
    channel is closed over a native subscription that is still there. *)
Definition failedUnsubscribe : list label :=
  [SubscribeEnter; SubscribeTurn None None; SubscribeGo; SubscribeReturn;
   CtxCancel; WatcherUnsubscribe 0 (Some (New "nats: connection closed"));
   WatcherExit 0; FinisherWake; FinisherClose].

(** An unmarshaler that returns neither a message nor an error, and a
    subscriber constructed with it. *)
Definition nilUnmarshaler : Unmarshaler := {| Unmarshal _ := Ok None |}.

Definition nilSubscriber : Subscriber :=
  {| conn := CoreConn;
     config :=
       {| cfgUnmarshaler := Some nilUnmarshaler; QueueGroup := "workers";
          SubscribersCount := 1;
          AckWaitTimeout := 30 * Second; CloseTimeout := 30 * Second;
          SubscribeTimeout := 30 * Second;
          cfgSubjectCalculator := Some sampleCalculator; AckSync := false;
          NakDelay := None;
          JetStream := {| Enabled := false; AutoProvision := false;
                          ConnectOptions := [] |} |};
     subsLock := false; closed := false; closing := false; outputsWg := 0;
     topicInterpreter := false |}.

(** A call, one delivery of the broker, and the two steps of the callback
    up to its reading of the message. *)
Definition nilMessageCall : list label :=
  [SubscribeEnter; SubscribeTurn None None; BrokerDeliver 0 streamFrame;
   Handler 0 (sampleEnv SigAcked 1); Handler 0 (sampleEnv SigAcked 1)].

(** A call whose first [QueueSubscribe] is refused, then [Close] up to
    its wait. *)
Definition failedCall : list label :=
  [SubscribeEnter; SubscribeTurn None (Some (New "nats: timeout"));
   CloseEnter; CloseSignal].

(** * Properties *)

(** ** Defaulting and validation *)

Lemma Second_30 : Second * 30 = 30000000000.
Proof. reflexivity. Qed.

Lemma defaultTimeout_nonpositive (d : Z) :
  d <= 0 -> defaultTimeout d = 30 * Second.
Proof.
  intros Hd. unfold defaultTimeout.
  destruct (Z.leb_spec d 0); lia.
Qed.

Lemma defaultTimeout_positive (d : Z) :
  0 < d -> defaultTimeout d = d.
Proof.
  intros Hd. unfold defaultTimeout.
  destruct (Z.leb_spec d 0); lia.
Qed.

Lemma setDefaults_Unmarshaler u f c :
  cfgUnmarshaler (setDefaults u f c) <> None.
Proof. simpl. destruct (cfgUnmarshaler c); discriminate. Qed.

Lemma setDefaults_SubjectCalculator u f c :
  cfgSubjectCalculator (setDefaults u f c) <> None.
Proof. simpl. destruct (cfgSubjectCalculator c); discriminate. Qed.

Lemma setDefaults_SubscribersCount u f c :
  1 <= SubscribersCount (setDefaults u f c).
Proof. simpl. destruct (Z.leb_spec (SubscribersCount c) 0); lia. Qed.

(** After [setDefaults], only the queue-group check of [Validate] can
    fail. *)
Lemma Validate_setDefaults u f c :
  Validate (setDefaults u f c) =
  if (String.eqb (QueueGroup c) "" && (1 <? SubscribersCount c))%bool
  then Some errQueueGroup else None.
Proof.
  unfold Validate.
  destruct (cfgUnmarshaler (setDefaults u f c)) eqn:Hu;
    [|by apply setDefaults_Unmarshaler in Hu].
  destruct (cfgSubjectCalculator (setDefaults u f c)) eqn:Hf;
    [|by apply setDefaults_SubjectCalculator in Hf].
  simpl.
  destruct (Z.leb_spec (SubscribersCount c) 0) as [Hle|Hgt].
  - destruct (Z.ltb_spec 1 (SubscribersCount c)); [lia|].
    by rewrite !andb_false_r.
  - reflexivity.
Qed.

(** C3: construction fails with a validation error exactly when the
    defaulted configuration has an empty QueueGroup and a SubscribersCount
    greater than 1; with a QueueGroup, or with a SubscribersCount of at
    most 1, validation passes.  [NewSubscriber], once connected, is the
    same construction. *)
Theorem validation_fails_iff_queue_group_missing u f js c :
  let d := setDefaults u f c in
  (failsValidation u f js c <-> QueueGroup d = "" /\ 1 < SubscribersCount d) /\
  (QueueGroup d <> "" \/ SubscribersCount d <= 1 -> Validate d = None) /\
  (forall sc, GetSubscriberSubscriptionConfig sc = c ->
              NewSubscriber u f None js sc = NewSubscriberWithNatsConn u f js c).
Proof.
  intros d.
  assert (Hv : Validate d = Some errQueueGroup /\
               QueueGroup d = "" /\ 1 < SubscribersCount d \/
               Validate d = None /\
               (QueueGroup d <> "" \/ SubscribersCount d <= 1)).
  { subst d. rewrite Validate_setDefaults. simpl.
    destruct (String.eqb_spec (QueueGroup c) "") as [Hq|Hq]; simpl.
    - destruct (Z.ltb_spec 1 (SubscribersCount c)) as [Hn|Hn].
      + left. repeat split; try done.
        destruct (Z.leb_spec (SubscribersCount c) 0); lia.
      + right. split; [done|]. right.
        destruct (Z.leb_spec (SubscribersCount c) 0); lia.
    - right. split; [done|]. by left. }
  split; [split|split].
  - intros (err & Herr & _).
    destruct Hv as [(_ & Hq & Hn)|(Hnone & _)]; [done|].
    fold d in Herr. congruence.
  - intros [Hq Hn].
    destruct Hv as [(Hsome & _)|(_ & [Hq'|Hn'])]; [|done|lia].
    exists errQueueGroup. split; [done|].
    unfold NewSubscriberWithNatsConn. fold d. by rewrite Hsome.
  - intros Hok.
    destruct Hv as [(_ & Hq & Hn)|(Hnone & _)]; [|done].
    destruct Hok; [done|lia].
  - by intros sc <-.
Qed.

(** C9: [setDefaults] turns every non-positive timeout into 30 seconds
    and keeps every positive one, and [Validate] runs on the defaulted
    configuration, which is the one the subscriber keeps. *)
Theorem setDefaults_timeouts u f c :
  let d := setDefaults u f c in
  (CloseTimeout c <= 0 -> CloseTimeout d = 30 * Second) /\
  (0 < CloseTimeout c -> CloseTimeout d = CloseTimeout c) /\
  (AckWaitTimeout c <= 0 -> AckWaitTimeout d = 30 * Second) /\
  (0 < AckWaitTimeout c -> AckWaitTimeout d = AckWaitTimeout c) /\
  (SubscribeTimeout c <= 0 -> SubscribeTimeout d = 30 * Second) /\
  (0 < SubscribeTimeout c -> SubscribeTimeout d = SubscribeTimeout c) /\
  (forall js err, Validate d = Some err ->
                  NewSubscriberWithNatsConn u f js c = Err err) /\
  (forall js s, NewSubscriberWithNatsConn u f js c = Ok s ->
                Validate d = None /\ config s = d).
Proof.
  intros d. subst d. simpl.
  repeat split;
    try (intros; by apply defaultTimeout_nonpositive);
    try (intros; by apply defaultTimeout_positive).
  - intros js err Herr. unfold NewSubscriberWithNatsConn. by rewrite Herr.
  - revert H. unfold NewSubscriberWithNatsConn.
    destruct (Validate (setDefaults u f c)); [discriminate|done].
  - revert H. unfold NewSubscriberWithNatsConn.
    destruct (Validate (setDefaults u f c)); [discriminate|].
    destruct (Enabled _); [destruct js; [discriminate|]|];
      intros [= <-]; reflexivity.
Qed.

Lemma validation_fails_iff_queue_group_missing_witness :
  failsValidation sampleUnmarshaler sampleCalculator None fanoutConfig /\
  Validate (setDefaults sampleUnmarshaler sampleCalculator zeroConfig) = None.
Proof.
  split.
  - apply (validation_fails_iff_queue_group_missing
             sampleUnmarshaler sampleCalculator None fanoutConfig).
    split; [reflexivity|simpl; lia].
  - apply (validation_fails_iff_queue_group_missing
             sampleUnmarshaler sampleCalculator None zeroConfig).
    right. simpl. lia.
Defined.

Lemma setDefaults_timeouts_witness :
  let d := setDefaults sampleUnmarshaler sampleCalculator fanoutConfig in
  AckWaitTimeout d = 30 * Second /\
  CloseTimeout d = 5 * Second /\
  SubscribeTimeout d = 30 * Second /\
  NewSubscriberWithNatsConn sampleUnmarshaler sampleCalculator None
    fanoutConfig = Err errQueueGroup.
Proof.
  pose proof (setDefaults_timeouts sampleUnmarshaler sampleCalculator
                fanoutConfig) as (_ & Hclose & Hack & _ & Hsub & _ & Hval & _).
  split; [|split; [|split]].
  - apply Hack. simpl. lia.
  - apply Hclose. reflexivity.
  - apply Hsub. simpl. lia.
  - apply Hval. reflexivity.
Defined.

(** ** The per-message coordinator *)

Section CoordinatorFacts.

Variable StopTime : Z.
Variable cfg : SubscriberSubscriptionConfig.

(** A run that hands the message to the consumer and then sees what
    [envSignal] says. *)
Lemma exec_processMessage_sent env u m msg :
  cfgUnmarshaler cfg = Some u ->
  Unmarshal u m = Ok (Some msg) ->
  envClosed env = false ->
  envHandoff env = HandoffSent ->
  exec env (processMessage StopTime cfg m) =
  [EvLog LTrace "Received message"; EvLog LTrace "Unmarshaled message";
   EvNewTimer (AckWaitTimeout cfg); EvSend msg;
   EvLog LTrace "Message sent to consumer"] ++
  exec env (ackPhase StopTime cfg m).
Proof.
  intros Hu Hm Hclosed Hsent. unfold processMessage.
  rewrite Hu, Hm. simpl. rewrite Hclosed. simpl. by rewrite Hsent.
Qed.

Lemma calls_app t1 t2 : calls (t1 ++ t2) = calls t1 ++ calls t2.
Proof. apply omap_app. Qed.

Lemma sends_app t1 t2 : sends (t1 ++ t2) = sends t1 ++ sends t2.
Proof. apply omap_app. Qed.

Lemma metadataReads_app t1 t2 :
  metadataReads (t1 ++ t2) = metadataReads t1 ++ metadataReads t2.
Proof. apply omap_app. Qed.

Lemma calls_deferred env : calls (exec env deferred) = [].
Proof. reflexivity. Qed.

(** The transport calls of the acked branch. *)
Lemma calls_onAcked env m :
  calls (exec env (onAcked cfg m)) =
  if String.eqb (Reply m) "" then []
  else [if AckSync cfg then CallAckSync else CallAck].
Proof.
  unfold onAcked. destruct (String.eqb (Reply m) ""); [done|].
  simpl. by destruct (envCall env _).
Qed.

Lemma calls_withNakDelay env k :
  calls (exec env (withNakDelay cfg k)) = calls (exec env (k (nakDelayOf cfg env))).
Proof.
  unfold withNakDelay, nakDelayOf. destruct (NakDelay cfg); [|done].
  simpl. by destruct (envMetadata env).
Qed.

(** The transport calls of the nacked branch. *)
Lemma calls_onNacked env m :
  calls (exec env (onNacked StopTime cfg m)) =
  if String.eqb (Reply m) "" then []
  else if nakDelayOf cfg env =? StopTime then [CallTerm]
  else if 0 <? nakDelayOf cfg env then [CallNakWithDelay (nakDelayOf cfg env)]
  else [CallNak].
Proof.
  unfold onNacked. destruct (String.eqb (Reply m) ""); [done|].
  rewrite calls_withNakDelay.
  destruct (nakDelayOf cfg env =? StopTime); [|destruct (0 <? nakDelayOf cfg env)];
    simpl; by destruct (envCall env _).
Qed.

(** The metadata of the frame is read when a delay policy is set, the
    frame has a reply subject and the message is nacked; not otherwise. *)
Lemma metadataReads_onNacked env m :
  metadataReads (exec env (onNacked StopTime cfg m)) =
  if String.eqb (Reply m) "" then []
  else match NakDelay cfg with None => [] | Some _ => [tt] end.
Proof.
  unfold onNacked. destruct (String.eqb (Reply m) ""); [done|].
  unfold withNakDelay. destruct (NakDelay cfg).
  - simpl. f_equal. destruct (envMetadata env); simpl;
      repeat match goal with
             | |- context [if ?b then _ else _] => destruct b
             end; simpl; by destruct (envCall env _).
  - repeat match goal with
           | |- context [if ?b then _ else _] => destruct b
           end; simpl; by destruct (envCall env _).
Qed.

(** C8: when the unmarshaler fails the coordinator logs and returns: it
    reads neither the closed flag nor a channel, sends nothing on the
    delivery channel and makes no ack, nak or term call. *)
Theorem unmarshal_failure_drops_frame u m err env :
  cfgUnmarshaler cfg = Some u ->
  Unmarshal u m = Err err ->
  processMessage StopTime cfg m =
    Log LTrace "Received message"
      (Log LError "Cannot unmarshal message" Return) /\
  exec env (processMessage StopTime cfg m) =
    [EvLog LTrace "Received message";
     EvLog LError "Cannot unmarshal message"] /\
  sends (exec env (processMessage StopTime cfg m)) = [] /\
  calls (exec env (processMessage StopTime cfg m)) = [].
Proof.
  intros Hu Hm. unfold processMessage. rewrite Hu, Hm. done.
Qed.

(** C6: on the acked signal, a frame without reply subject gets no
    transport call; otherwise the one call is [AckSync] when the flag is
    set and [Ack] when it is not, and the run goes on to its last log line
    only with the answer of that call. *)
Theorem acked_dispatch env u m msg :
  cfgUnmarshaler cfg = Some u ->
  Unmarshal u m = Ok (Some msg) ->
  envClosed env = false ->
  envHandoff env = HandoffSent ->
  envSignal env = SigAcked ->
  let run := exec env (processMessage StopTime cfg m) in
  (Reply m = "" ->
   calls run = [] /\
   exists t, run = t ++ [EvLog LTrace "ack without a reply subject is a no-op";
                         EvStopTimer; EvCancelCtx]) /\
  (Reply m <> "" -> AckSync cfg = true ->
   calls run = [CallAckSync] /\
   exists t, run = t ++ [EvCall CallAckSync;
                         match envCall env CallAckSync with
                         | Some _ => EvLog LError "Cannot send ack"
                         | None => EvLog LTrace "Message Acked"
                         end; EvStopTimer; EvCancelCtx]) /\
  (Reply m <> "" -> AckSync cfg = false ->
   calls run = [CallAck] /\
   exists t, run = t ++ [EvCall CallAck;
                         match envCall env CallAck with
                         | Some _ => EvLog LError "Cannot send ack"
                         | None => EvLog LTrace "Message Acked"
                         end; EvStopTimer; EvCancelCtx]).
Proof.
  intros Hu Hm Hclosed Hsent Hsig run. subst run.
  rewrite (exec_processMessage_sent env u m msg) by done.
  rewrite calls_app. cbn [ackPhase exec]. rewrite Hsig.
  rewrite calls_onAcked. unfold onAcked.
  split; [|split].
  - intros Hr. rewrite Hr. split; [done|].
    by eexists [_; _; _; _; _].
  - intros Hr Hsync. apply String.eqb_neq in Hr. rewrite Hr, Hsync.
    split; [done|]. eexists [_; _; _; _; _]. cbn.
    by destruct (envCall env CallAckSync).
  - intros Hr Hsync. apply String.eqb_neq in Hr. rewrite Hr, Hsync.
    split; [done|]. eexists [_; _; _; _; _]. cbn.
    by destruct (envCall env CallAck).
Qed.

(** C2: on the nacked signal, a frame without reply subject gets no
    transport call; otherwise the delay is the policy's answer to the
    frame's NumDelivered (zero, with an error logged, when the metadata
    cannot be read), and the one transport call is [Term] when the delay
    is [StopTime], else [NakWithDelay] of a positive delay, else [Nak]. *)
Theorem nacked_dispatch env u m msg :
  cfgUnmarshaler cfg = Some u ->
  Unmarshal u m = Ok (Some msg) ->
  envClosed env = false ->
  envHandoff env = HandoffSent ->
  envSignal env = SigNacked ->
  let run := exec env (processMessage StopTime cfg m) in
  let nakDelay := nakDelayOf cfg env in
  (Reply m = "" -> calls run = [] /\ metadataReads run = []) /\
  (Reply m <> "" -> nakDelay = StopTime -> calls run = [CallTerm]) /\
  (Reply m <> "" -> nakDelay <> StopTime -> 0 < nakDelay ->
   calls run = [CallNakWithDelay nakDelay]) /\
  (Reply m <> "" -> nakDelay <> StopTime -> nakDelay <= 0 ->
   calls run = [CallNak]) /\
  (Reply m <> "" -> forall delay err,
   NakDelay cfg = Some delay -> envMetadata env = Err err ->
   nakDelay = 0 /\
   EvLog LError "Cannot parse nats message metadata, use nak without delay"
     ∈ run).
Proof.
  intros Hu Hm Hclosed Hsent Hsig run nakDelay. subst run nakDelay.
  rewrite (exec_processMessage_sent env u m msg) by done.
  rewrite calls_app, metadataReads_app. cbn [ackPhase exec]. rewrite Hsig.
  rewrite calls_onNacked, metadataReads_onNacked.
  split; [|split; [|split; [|split]]].
  - intros Hr. by rewrite Hr.
  - intros Hr Hstop. apply String.eqb_neq in Hr. rewrite Hr.
    apply Z.eqb_eq in Hstop. by rewrite Hstop.
  - intros Hr Hstop Hpos. apply String.eqb_neq in Hr. rewrite Hr.
    apply Z.eqb_neq in Hstop. rewrite Hstop.
    apply Z.ltb_lt in Hpos. by rewrite Hpos.
  - intros Hr Hstop Hneg. apply String.eqb_neq in Hr. rewrite Hr.
    apply Z.eqb_neq in Hstop. rewrite Hstop.
    apply Z.ltb_ge in Hneg. by rewrite Hneg.
  - intros Hr delay err Hdelay Hmeta. split.
    + unfold nakDelayOf. by rewrite Hdelay, Hmeta.
    + apply String.eqb_neq in Hr.
      unfold onNacked, withNakDelay. rewrite Hr, Hdelay.
      cbn [exec]. rewrite Hmeta. cbn [Log exec].
      rewrite !elem_of_app, !elem_of_cons. right. right. left. done.
Qed.

(** C10: without a delay policy, and with a [StopTime] other than the zero
    duration, a nacked message whose frame has a reply subject gets an
    immediate [Nak] and nothing else, and its metadata is not read. *)
Theorem nacked_without_policy env u m msg :
  StopTime <> 0 ->
  NakDelay cfg = None ->
  cfgUnmarshaler cfg = Some u ->
  Unmarshal u m = Ok (Some msg) ->
  Reply m <> "" ->
  envClosed env = false ->
  envHandoff env = HandoffSent ->
  envSignal env = SigNacked ->
  let run := exec env (processMessage StopTime cfg m) in
  calls run = [CallNak] /\
  (CallTerm ∉ calls run) /\
  (forall delay, CallNakWithDelay delay ∉ calls run) /\
  metadataReads run = [] /\
  (EvMetadata ∉ run).
Proof.
  intros Hstop Hdelay Hu Hm Hr Hclosed Hsent Hsig run.
  assert (Hcalls : calls run = [CallNak]).
  { subst run.
    rewrite (exec_processMessage_sent env u m msg) by done.
    rewrite calls_app. cbn [ackPhase exec]. rewrite Hsig.
    rewrite calls_onNacked. apply String.eqb_neq in Hr. rewrite Hr.
    unfold nakDelayOf. rewrite Hdelay.
    assert ((0 =? StopTime) = false) as -> by (apply Z.eqb_neq; lia).
    done. }
  assert (Hreads : metadataReads run = []).
  { subst run.
    rewrite (exec_processMessage_sent env u m msg) by done.
    rewrite metadataReads_app. cbn [ackPhase exec]. rewrite Hsig.
    rewrite metadataReads_onNacked. apply String.eqb_neq in Hr.
    by rewrite Hr, Hdelay. }
  split; [done|]. rewrite Hcalls.
  split; [by intros [=]%list_elem_of_singleton|].
  split; [by intros delay [=]%list_elem_of_singleton|].
  split; [done|].
  intros Hin.
  assert (Htt : tt ∈ metadataReads run).
  { apply list_elem_of_omap. by exists EvMetadata. }
  rewrite Hreads in Htt. by apply elem_of_nil in Htt.
Qed.

End CoordinatorFacts.

Lemma unmarshal_failure_drops_frame_witness :
  exec (sampleEnv SigAcked 1)
    (processMessage (-1) (sampleConfig false None 1) emptyFrame) =
  [EvLog LTrace "Received message"; EvLog LError "Cannot unmarshal message"].
Proof.
  apply (unmarshal_failure_drops_frame (-1) (sampleConfig false None 1)
           sampleUnmarshaler emptyFrame (New "empty frame")
           (sampleEnv SigAcked 1)); reflexivity.
Defined.

Lemma acked_dispatch_witness :
  calls (exec (sampleEnv SigAcked 1)
           (processMessage (-1) (sampleConfig true None 1) coreFrame)) = [] /\
  calls (exec (sampleEnv SigAcked 1)
           (processMessage (-1) (sampleConfig true None 1) streamFrame)) =
    [CallAckSync] /\
  calls (exec (sampleEnv SigAcked 1)
           (processMessage (-1) (sampleConfig false None 1) streamFrame)) =
    [CallAck].
Proof.
  split; [|split].
  - apply (acked_dispatch (-1) (sampleConfig true None 1)
             (sampleEnv SigAcked 1) sampleUnmarshaler coreFrame sampleMessage);
      reflexivity.
  - apply (acked_dispatch (-1) (sampleConfig true None 1)
             (sampleEnv SigAcked 1) sampleUnmarshaler streamFrame
             sampleMessage); try reflexivity; discriminate.
  - apply (acked_dispatch (-1) (sampleConfig false None 1)
             (sampleEnv SigAcked 1) sampleUnmarshaler streamFrame
             sampleMessage); try reflexivity; discriminate.
Defined.

Lemma nacked_dispatch_witness :
  calls (exec (sampleEnv SigNacked 1)
           (processMessage (-1) (sampleConfig false (Some sampleDelay) 1)
              coreFrame)) = [] /\
  calls (exec (sampleEnv SigNacked 3)
           (processMessage (-1) (sampleConfig false (Some sampleDelay) 1)
              streamFrame)) = [CallTerm] /\
  calls (exec (sampleEnv SigNacked 1)
           (processMessage (-1) (sampleConfig false (Some sampleDelay) 1)
              streamFrame)) = [CallNakWithDelay 200000000] /\
  calls (exec (sampleEnv SigNacked 1)
           (processMessage (-1) (sampleConfig false None 1) streamFrame)) =
    [CallNak].
Proof.
  split; [|split; [|split]].
  - apply (nacked_dispatch (-1) (sampleConfig false (Some sampleDelay) 1)
             (sampleEnv SigNacked 1) sampleUnmarshaler coreFrame
             sampleMessage); reflexivity.
  - apply (nacked_dispatch (-1) (sampleConfig false (Some sampleDelay) 1)
             (sampleEnv SigNacked 3) sampleUnmarshaler streamFrame
             sampleMessage); try reflexivity; discriminate.
  - apply (nacked_dispatch (-1) (sampleConfig false (Some sampleDelay) 1)
             (sampleEnv SigNacked 1) sampleUnmarshaler streamFrame
             sampleMessage); try reflexivity; discriminate.
  - apply (nacked_dispatch (-1) (sampleConfig false None 1)
             (sampleEnv SigNacked 1) sampleUnmarshaler streamFrame
             sampleMessage); try reflexivity; try discriminate.
Defined.

Lemma nacked_without_policy_witness :
  calls (exec (sampleEnv SigNacked 2)
           (processMessage (-1) (sampleConfig false None 1) streamFrame)) =
    [CallNak] /\
  metadataReads (exec (sampleEnv SigNacked 2)
           (processMessage (-1) (sampleConfig false None 1) streamFrame)) = [].
Proof.
  pose proof (nacked_without_policy (-1) (sampleConfig false None 1)
                (sampleEnv SigNacked 2) sampleUnmarshaler streamFrame
                sampleMessage) as H.
  destruct H as (Hcalls & _ & _ & Hreads & _);
    try reflexivity; try discriminate.
  split; [exact Hcalls|exact Hreads].
Defined.

(** ** Close *)

Lemma setLock_false_true s :
  subsLock s = false -> setLock false (setLock true s) = s.
Proof. destruct s; simpl; by intros ->. Qed.

(** A [Close] on a closed subscriber returns success and does nothing. *)
Lemma Close_closed env s :
  closed s = true -> Close env s = (None, setLock false s, []).
Proof.
  intros Hc. unfold Close. simpl. rewrite Hc. by destruct s.
Qed.

(** What a [Close] on an open subscriber returns. *)
Lemma Close_open env s :
  closed s = false ->
  Close env s =
  ((closeWait env (closeClosing (markClosed (setLock true s)))).1,
   setLock false (closeClosing (markClosed (setLock true s))),
   [EvLog LDebug "Closing subscriber"; EvCloseClosing] ++
   (closeWait env (closeClosing (markClosed (setLock true s)))).2 ++
   [EvLog LInfo "Subscriber closed"]).
Proof.
  intros Hc. unfold Close. simpl. rewrite Hc.
  by destruct (closeWait env _).
Qed.

(** C4: a [Close] that waits and sees the wait-group time out returns the
    error of unfinished work without calling [Drain]; one that sees it
    drain calls [Drain] once, after the wait, and returns its error
    wrapped, or success. *)
Theorem Close_timeout_or_drain env s :
  closed s = false ->
  (envTimedOut env = true ->
   (Close env s).1.1 = Some errWaitGroup /\
   (EvDrain ∉ (Close env s).2) /\
   (Close env s).2 =
     [EvLog LDebug "Closing subscriber"; EvCloseClosing;
      EvWaitGroupTimeout (CloseTimeout (config s));
      EvLog LInfo "Subscriber closed"]) /\
  (envTimedOut env = false ->
   (Close env s).1.1 =
     match envDrain env with
     | Some err => Some (Wrap err "cannot close conn")
     | None => None
     end /\
   (Close env s).2 =
     [EvLog LDebug "Closing subscriber"; EvCloseClosing;
      EvWaitGroupTimeout (CloseTimeout (config s)); EvDrain;
      EvLog LInfo "Subscriber closed"]).
Proof.
  intros Hc. rewrite (Close_open env s Hc). unfold closeWait. simpl.
  split; intros ->; simpl.
  - split; [done|]. split; [|done].
    rewrite !elem_of_cons. intros [H|[H|[H|[H|H]]]]; try discriminate.
    by apply elem_of_nil in H.
  - done.
Qed.

Lemma Close_timeout_or_drain_witness :
  (Close {| envTimedOut := true; envDrain := None |}
     (sampleSubscriber 1)).1.1 = Some errWaitGroup /\
  (Close {| envTimedOut := false; envDrain := Some (New "nats: closed") |}
     (sampleSubscriber 1)).1.1 =
    Some (Wrap (New "nats: closed") "cannot close conn").
Proof.
  split.
  - apply (Close_timeout_or_drain
             {| envTimedOut := true; envDrain := None |} (sampleSubscriber 1));
      reflexivity.
  - apply (Close_timeout_or_drain
             {| envTimedOut := false; envDrain := Some (New "nats: closed") |}
             (sampleSubscriber 1)); reflexivity.
Defined.

(** C5, as the specification states it, fails: the first [Close] of a
    subscriber whose wait-group does not drain in time returns an error. *)
Lemma Close_twice_first_may_fail :
  ~ closeTwiceSucceeds {| envTimedOut := true; envDrain := None |}
      {| envTimedOut := false; envDrain := None |} (sampleSubscriber 1).
Proof. intros [H _]. vm_compute in H. discriminate. Qed.

(** C5, amended: the first [Close] marks the subscriber closed and closes
    the closing channel once; every later [Close] returns success, does
    nothing and leaves the subscriber as it is, whatever the first one
    returned; and the first returns success exactly when the wait-group
    drains in time and [Drain] succeeds. *)
Theorem Close_idempotent env1 env2 s :
  subsLock s = false ->
  closed s = false ->
  let first := Close env1 s in
  let second := Close env2 first.1.2 in
  closed first.1.2 = true /\
  closing first.1.2 = true /\
  closings (first.2 ++ second.2) = [tt] /\
  second = (None, first.1.2, []) /\
  (forall env s', closed s' = true -> subsLock s' = false ->
                  Close env s' = (None, s', [])) /\
  (first.1.1 = None <-> envTimedOut env1 = false /\ envDrain env1 = None) /\
  (closeTwiceSucceeds env1 env2 s <->
   envTimedOut env1 = false /\ envDrain env1 = None).
Proof.
  intros Hlock Hc first second.
  assert (Hlater : forall env s', closed s' = true -> subsLock s' = false ->
                                  Close env s' = (None, s', [])).
  { intros env s' Hc' Hl'. rewrite Close_closed by done.
    destruct s'; simpl in *; by subst. }
  assert (Hfirst : first.1.1 = None <->
                   envTimedOut env1 = false /\ envDrain env1 = None).
  { subst first. rewrite (Close_open env1 s Hc). unfold closeWait. simpl.
    destruct (envTimedOut env1); simpl.
    - split; [discriminate|]. by intros [? _].
    - destruct (envDrain env1); simpl.
      + split; [discriminate|]. by intros [_ ?].
      + done. }
  assert (Hstate : closed first.1.2 = true /\ closing first.1.2 = true /\
                   subsLock first.1.2 = false).
  { subst first. by rewrite (Close_open env1 s Hc). }
  destruct Hstate as (Hclosed & Hclosing & Hunlocked).
  assert (Hsecond : second = (None, first.1.2, [])).
  { subst second. by apply Hlater. }
  split; [done|]. split; [done|].
  split.
  { rewrite Hsecond. subst first. rewrite (Close_open env1 s Hc).
    unfold closeWait. simpl. by destruct (envTimedOut env1). }
  split; [done|]. split; [done|]. split; [done|].
  unfold closeTwiceSucceeds. fold first. fold second. rewrite Hsecond.
  simpl. rewrite <- Hfirst. split; [by intros [? _]|done].
Qed.

Lemma Close_idempotent_witness :
  Close {| envTimedOut := false; envDrain := None |}
    (Close {| envTimedOut := true; envDrain := None |}
       (sampleSubscriber 1)).1.2 =
  (None,
   (Close {| envTimedOut := true; envDrain := None |}
      (sampleSubscriber 1)).1.2, []).
Proof.
  apply (Close_idempotent {| envTimedOut := true; envDrain := None |}
           {| envTimedOut := false; envDrain := None |}
           (sampleSubscriber 1)); reflexivity.
Defined.

(** ** Subscribe *)

Lemma queueSubscribes_app t1 t2 :
  queueSubscribes (t1 ++ t2) = queueSubscribes t1 ++ queueSubscribes t2.
Proof. apply omap_app. Qed.

(** A subscriber that [NewSubscriberWithNatsConn] returns is
    [constructed], open, and has an empty wait-group. *)
Lemma NewSubscriberWithNatsConn_constructed u f js c s :
  NewSubscriberWithNatsConn u f js c = Ok s ->
  constructed s /\ closed s = false /\ closing s = false /\
  subsLock s = false /\ outputsWg s = 0.
Proof.
  unfold NewSubscriberWithNatsConn, constructed.
  destruct (Validate _); [discriminate|].
  destruct (Enabled (JetStream (setDefaults u f c))) eqn:Hjs.
  - destruct js; [discriminate|]. intros [= <-]. cbn -[setDefaults].
    repeat split; try done.
    + apply setDefaults_SubjectCalculator.
    + apply setDefaults_Unmarshaler.
  - intros [= <-]. cbn -[setDefaults].
    repeat split; try done.
    + apply setDefaults_SubjectCalculator.
    + apply setDefaults_Unmarshaler.
    + by rewrite Hjs.
Qed.

(** [subscribe] with a connection that answers [qsub] to
    [QueueSubscribe], the stream being there. *)
Lemma subscribe_constructed s topic qsub :
  constructed s ->
  exists sub evs,
    inPlace sub /\
    length (queueSubscribes evs) = 1%nat /\
    subscribe s topic None qsub =
      Returns (match qsub with Some err => Err err | None => Ok sub end, evs).
Proof.
  intros (Hcalc & _ & Hjs). unfold subscribe, queueSubscribe.
  destruct (cfgSubjectCalculator (config s)) as [calc|]; [|done].
  destruct (Enabled (JetStream (config s))) eqn:He; simpl.
  - destruct (AutoProvision (JetStream (config s))).
    + unfold SubscribeInitialize. rewrite Hjs by done.
      eexists _, _. split; [|split]; [| |reflexivity]; done.
    + eexists _, _. split; [|split]; [| |reflexivity]; done.
  - eexists _, _. split; [|split]; [| |reflexivity]; done.
Qed.

(** The loop of [Subscribe] when its first [k] turns succeed and the next
    [QueueSubscribe] fails: it stops there. *)
Lemma subscribeLoop_fails env s topic err k :
  constructed s ->
  forall todo i c,
  (k < todo)%nat ->
  (forall j, (i <= j <= i + k)%nat -> envEnsureStream env j = None) ->
  (forall j, (i <= j < i + k)%nat -> envQueueSubscribe env j = None) ->
  envQueueSubscribe env (i + k) = Some err ->
  exists subs evs,
    subscribeLoop env s topic todo i c =
      Returns (Some (Wrap err "cannot subscribe"),
               {| outputWg := outputWg c + Z.of_nat k + 1;
                  natives := natives c ++ subs;
                  finisher := finisher c;
                  outputCloses := outputCloses c |}, evs) /\
    length subs = k /\ Forall inPlace subs /\
    length (queueSubscribes evs) = S k.
Proof.
  intros Hs. induction k as [|k IH]; intros todo i c Htodo Hens Hok Herr.
  - destruct todo as [|todo]; [lia|]. simpl.
    rewrite Nat.add_0_r in Herr.
    unfold subscribeIter. rewrite Hens by lia. rewrite Herr.
    destruct (subscribe_constructed s topic (Some err) Hs)
      as (sub & evs & _ & Hq & ->).
    exists [], (EvLog LDebug "Starting subscriber" :: evs).
    rewrite app_nil_r. simpl. rewrite Z.add_0_r.
    repeat split; try done; by rewrite Hq.
  - destruct todo as [|todo]; [lia|]. simpl.
    unfold subscribeIter. rewrite Hens by lia. rewrite Hok by lia.
    destruct (subscribe_constructed s topic None Hs)
      as (sub & evs & Hsub & Hq & ->).
    destruct (IH todo (S i)
                (setNatives (natives (addOutputWg 1 c) ++ [sub])
                   (addOutputWg 1 c)))
      as (subs & evs' & -> & Hlen & Hall & Hq').
    { lia. }
    { intros j Hj. apply Hens. lia. }
    { intros j Hj. apply Hok. lia. }
    { by replace (S i + k)%nat with (i + S k)%nat by lia. }
    exists (sub :: subs), ((EvLog LDebug "Starting subscriber" :: evs) ++ evs').
    simpl. rewrite <- app_assoc. simpl.
    split.
    { by replace (outputWg c + Z.of_nat (S k) + 1)
        with (outputWg c + 1 + Z.of_nat k + 1) by lia. }
    split; [by rewrite Hlen|]. split; [by constructor|].
    change (EvLog LDebug "Starting subscriber" :: evs ++ evs')
      with ([EvLog LDebug "Starting subscriber"] ++ evs ++ evs').
    rewrite !queueSubscribes_app, !length_app.
    rewrite Hq, Hq'. done.
Qed.

(** C7: when the first [i] calls of [QueueSubscribe] succeed and the next
    one fails, [Subscribe] returns that error wrapped and makes no further
    call; the [i] native subscriptions it made stay subscribed, with their
    watchers waiting; it calls [Unsubscribe] on none and does not start
    the goroutine that closes the delivery channel. *)
Theorem Subscribe_fails_fast env s topic i err :
  constructed s ->
  (i < Z.to_nat (SubscribersCount (config s)))%nat ->
  (forall j, (j <= i)%nat -> envEnsureStream env j = None) ->
  (forall j, (j < i)%nat -> envQueueSubscribe env j = None) ->
  envQueueSubscribe env i = Some err ->
  exists c evs,
    Subscribe env s topic =
      Returns (Some (Wrap err "cannot subscribe"), addOutputsWg 1 s, c, evs) /\
    length (natives c) = i /\ Forall inPlace (natives c) /\
    length (queueSubscribes evs) = S i /\
    finisher c = None /\ outputCloses c = 0%nat /\
    outputWg c = Z.of_nat i + 1.
Proof.
  intros Hs Hi Hens Hok Herr. unfold Subscribe.
  destruct (subscribeLoop_fails env (addOutputsWg 1 s) topic err i)
    with (todo := Z.to_nat (SubscribersCount (config (addOutputsWg 1 s))))
         (i := 0%nat) (c := newCall)
    as (subs & evs & -> & Hlen & Hall & Hq); try done.
  - intros j Hj. apply Hens. lia.
  - intros j Hj. apply Hok. lia.
  - eexists _, evs. split; [reflexivity|]. simpl. repeat split; try done.
Qed.

Lemma Subscribe_fails_fast_witness :
  exists c evs,
    Subscribe (refusing 2) (sampleSubscriber 4) "orders" =
      Returns (Some (Wrap (New "nats: timeout") "cannot subscribe"),
               addOutputsWg 1 (sampleSubscriber 4), c, evs) /\
    length (natives c) = 2%nat /\ Forall inPlace (natives c) /\
    length (queueSubscribes evs) = 3%nat /\
    finisher c = None /\ outputCloses c = 0%nat /\
    outputWg c = 3.
Proof.
  apply (Subscribe_fails_fast (refusing 2) (sampleSubscriber 4) "orders" 2
           (New "nats: timeout")).
  - repeat split; discriminate.
  - simpl. lia.
  - reflexivity.
  - intros j Hj. simpl. destruct (Nat.eqb_spec j 2); [lia|reflexivity].
  - reflexivity.
Defined.

(** ** The delivery channel *)

Lemma pending_app l1 l2 : pending (l1 ++ l2) = (pending l1 + pending l2)%nat.
Proof. unfold pending. by rewrite List.filter_app, length_app. Qed.

Lemma pending_cons n l :
  pending (n :: l) = ((if notExited n then 1 else 0) + pending l)%nat.
Proof. unfold pending. simpl. by destruct (notExited n). Qed.

(** Replacing one watcher changes the count by what it was and what it
    becomes. *)
Lemma pending_insert l i n n' :
  l !! i = Some n ->
  (pending (<[i := n']> l) + (if notExited n then 1 else 0) =
   pending l + (if notExited n' then 1 else 0))%nat.
Proof.
  revert i. induction l as [|x l IH]; intros [|i] Hi; simplify_eq/=.
  - rewrite !pending_cons. lia.
  - rewrite !pending_cons. specialize (IH i Hi). lia.
Qed.

Lemma pending_zero l :
  pending l = 0%nat -> Forall (fun n => watcher n = WatcherExited) l.
Proof.
  induction l as [|x l IH]; [constructor|].
  rewrite pending_cons. unfold notExited at 1.
  destruct (watcher x) eqn:Hx; try (intros; lia).
  intros H. constructor; [done|]. apply IH. lia.
Qed.

Lemma pending_positive l i n :
  l !! i = Some n -> notExited n = true -> (0 < pending l)%nat.
Proof.
  revert i. induction l as [|x l IH]; intros [|i] Hi Hn; simplify_eq/=.
  - rewrite pending_cons, Hn. lia.
  - rewrite pending_cons. specialize (IH i Hi Hn). lia.
Qed.

(** What [subscribe] returns is subscribed, with its watcher to come. *)
Lemma subscribe_inPlace s topic ensure qsub sub evs :
  subscribe s topic ensure qsub = Returns (Ok sub, evs) -> inPlace sub.
Proof.
  assert (Hq : forall r evs',
             queueSubscribe s topic qsub = Returns (r, evs') ->
             r = Ok sub -> inPlace sub).
  { unfold queueSubscribe. intros r evs'.
    destruct (cfgSubjectCalculator (config s)); [|done].
    destruct qsub; intros [= <- _]; [done|]. by intros [= <-]. }
  unfold subscribe. destruct (_ && _)%bool.
  - destruct (SubscribeInitialize s ensure) as [[e|]|]; try done.
    destruct (queueSubscribe s topic qsub) as [[r evs']|] eqn:Hqs; [|done].
    intros [= -> _]. by eapply Hq.
  - intros H. by eapply Hq.
Qed.

(** One turn of the loop: the counter goes up by one, and on success one
    native subscription is added, in place. *)
Lemma subscribeIter_Returns s topic ensure qsub c r c' evs :
  subscribeIter s topic ensure qsub c = Returns (r, c', evs) ->
  finisher c' = finisher c /\ outputCloses c' = outputCloses c /\
  outputWg c' = outputWg c + 1 /\
  match r with
  | Some _ => natives c' = natives c
  | None => exists sub, inPlace sub /\ natives c' = natives c ++ [sub]
  end.
Proof.
  unfold subscribeIter.
  destruct (subscribe s topic ensure qsub) as [[[sub|err] evs']|] eqn:Hs;
    [| |done]; intros [= <- <- _]; simpl; repeat split; try done.
  exists sub. split; [|done]. by eapply subscribe_inPlace.
Qed.

Lemma callInvariant_same w w' :
  call w' = call w -> subscribeAt w' = subscribeAt w ->
  config (sub w') = config (sub w) ->
  callInvariant w -> callInvariant w'.
Proof.
  unfold callInvariant, turns. by intros -> -> ->.
Qed.

(** The last goroutine exists only after the loop. *)
Lemma loopInv_finisher n pc c :
  loopInv n pc c -> finisher c <> None ->
  (pc = SubscribeSpawned \/ pc = SubscribeReturned None) /\
  length (natives c) = n /\
  outputWg c = Z.of_nat (pending (natives c)).
Proof.
  destruct pc as [|i| |[err|]|]; simpl.
  - by intros ->.
  - by intros (_ & _ & -> & _).
  - intros (? & _ & ?) _. auto.
  - by intros ->.
  - intros (? & _ & ?) _. auto.
  - by intros ->.
Qed.

(** Replacing the native subscriptions by as many, with as many watchers
    still there. *)
Lemma loopInv_natives n pc c l :
  length l = length (natives c) ->
  pending l = pending (natives c) ->
  loopInv n pc c -> loopInv n pc (setNatives l c).
Proof.
  intros Hlen Hpend. destruct pc as [|i| |[err|]|]; simpl; try done.
  - intros ->. by destruct l.
  - by rewrite Hlen, Hpend.
  - by rewrite Hlen, Hpend.
  - by rewrite Hlen, Hpend.
Qed.

(** A watcher runs its [Done]. *)
Lemma loopInv_exit n pc c num x :
  natives c !! num = Some x -> watcher x = WatcherUnsubscribed ->
  loopInv n pc c ->
  loopInv n pc (addOutputWg (-1) (setNatives (<[num := exited x]> (natives c)) c)).
Proof.
  intros Hx Hwx.
  pose proof (pending_insert _ _ _ (exited x) Hx) as Hp.
  unfold notExited in Hp. rewrite Hwx in Hp. simpl in Hp.
  destruct pc as [|i| |[err|]|]; simpl; try done.
  - intros ->. done.
  - rewrite length_insert. intros (? & ? & ? & ?). repeat split; try done. lia.
  - rewrite length_insert. intros (? & ? & ?). repeat split; try done. lia.
  - rewrite length_insert. intros (? & ? & ?). repeat split; try done. lia.
Qed.

(** The last goroutine moves on. *)
Lemma loopInv_setFinisher n pc c f :
  finisher c <> None -> loopInv n pc c -> loopInv n pc (setFinisher f c).
Proof.
  intros Hfin Hl.
  by destruct (loopInv_finisher n pc c Hl Hfin) as ([-> | ->] & ? & ?).
Qed.

Lemma loopInv_closeOutput n pc c :
  finisher c <> None -> loopInv n pc c -> loopInv n pc (closeOutput c).
Proof.
  intros Hfin Hl.
  by destruct (loopInv_finisher n pc c Hl Hfin) as ([-> | ->] & ? & ?).
Qed.

Lemma watcherInv_insert l num x x' :
  l !! num = Some x ->
  (watcher x' = WatcherWaiting -> subscribed x' = true) ->
  watcherInv l -> watcherInv (<[num := x']> l).
Proof. intros Hx Hx' Hw. by apply Forall_insert. Qed.

Lemma watcherInv_lookup l num x :
  watcherInv l -> l !! num = Some x ->
  watcher x = WatcherWaiting -> subscribed x = true.
Proof. intros Hw Hx. by apply (Forall_lookup_1 _ _ _ _ Hw Hx). Qed.

(** A callback that moves changes no watcher. *)
Lemma callInvariant_setHandler w num x p :
  natives (call w) !! num = Some x ->
  callInvariant w ->
  callInvariant
    (withCall (setNatives (<[num := setHandler p x]> (natives (call w)))
                 (call w)) w).
Proof.
  intros Hx (Hf & Hl & Hw). split; [done|]. split.
  - apply loopInv_natives; [by rewrite length_insert| |done].
    pose proof (pending_insert _ _ _ (setHandler p x) Hx) as H.
    change (notExited (setHandler p x)) with (notExited x) in H. lia.
  - apply watcherInv_insert with x; [done| |done].
    by apply (watcherInv_lookup _ _ _ Hw Hx).
Qed.

Lemma onNative_Some num f w w' :
  onNative num f w = Some w' ->
  exists x x', natives (call w) !! num = Some x /\ f x = Some x' /\
    w' = withCall (setNatives (<[num := x']> (natives (call w))) (call w)) w.
Proof.
  unfold onNative. destruct (natives (call w) !! num) as [x|]; [|done].
  destruct (f x) as [x'|] eqn:Hf; [|done]. intros [= <-]. by exists x, x'.
Qed.

(** Every step keeps the invariant of the call, and the configuration. *)
Lemma fire_invariant StopTime topic l w w' :
  fire StopTime topic l w = Some w' ->
  callInvariant w ->
  callInvariant w' /\ config (sub w') = config (sub w).
Proof.
  unfold fire. destruct (crashed w); [done|].
  intros Hfire Hinv. pose proof Hinv as (Hf & Hl & Hw).
  destruct l.
  - (* SubscribeEnter *)
    destruct (subscribeAt w) eqn:Hpc; simplify_eq. split; [|done].
    simpl in Hl. unfold callInvariant. simpl. rewrite Hl. simpl.
    repeat split; try done; [lia|constructor].
  - (* SubscribeTurn *)
    destruct (subscribeAt w) as [|i| | |] eqn:Hpc; try done.
    destruct (Nat.ltb_spec i (turns w)) as [Hi|Hi]; [|done].
    destruct Hl as (_ & Hlen & Hfin & Hwg).
    unfold finisherInv in Hf. rewrite Hfin in Hf.
    destruct (subscribeIter _ _ _ _ _) as [[[r c'] evs]|] eqn:Hiter.
    + apply subscribeIter_Returns in Hiter as (Hf' & Hc' & Hwg' & Hn').
      destruct r as [err|]; simplify_eq; (split; [|done]).
      * unfold callInvariant, finisherInv. simpl.
        by rewrite Hf', Hfin, Hc', Hn'.
      * destruct Hn' as (x & (Hsub & Hwat & _) & Hn').
        unfold callInvariant, finisherInv. simpl.
        rewrite Hf', Hfin, Hc', Hn'. split; [done|]. split.
        -- rewrite length_app, pending_app, pending_cons. simpl.
           unfold notExited. rewrite Hwat. unfold pending at 2. simpl.
           unfold turns in *. simpl. repeat split; try done; lia.
        -- apply Forall_app. split; [done|]. by constructor.
    + simplify_eq. split; [|done].
      unfold callInvariant, finisherInv. simpl. by rewrite Hfin.
  - (* SubscribeGo *)
    destruct (subscribeAt w) as [|i| | |] eqn:Hpc; try done.
    destruct (Nat.ltb_spec i (turns w)) as [Hi|Hi]; [done|]. simplify_eq.
    split; [|done].
    destruct Hl as (Hle & Hlen & Hfin & Hwg).
    unfold finisherInv in Hf. rewrite Hfin in Hf.
    unfold callInvariant, finisherInv. simpl.
    split; [done|]. split; [|done].
    split; [unfold turns in *; simpl; lia|]. by split.
  - (* SubscribeReturn *)
    destruct (subscribeAt w) eqn:Hpc; simplify_eq. by split.
  - (* CtxCancel *)
    simplify_eq. split; [|done]. by eapply callInvariant_same.
  - (* CloseEnter *)
    repeat case_match; simplify_eq. split; [|done].
    by eapply callInvariant_same.
  - (* CloseSignal *)
    repeat case_match; simplify_eq. split; [|done].
    by eapply callInvariant_same.
  - (* CloseWaitOver *)
    repeat case_match; simplify_eq; (split; [|done]);
      by eapply callInvariant_same.
  - (* CloseDrain *)
    repeat case_match; simplify_eq; (split; [|done]);
      by eapply callInvariant_same.
  - (* WatcherUnsubscribe *)
    destruct (_ || _)%bool; [|done].
    apply onNative_Some in Hfire as (x & x' & Hx & Hx' & ->).
    destruct (watcher x) eqn:Hwx; simplify_eq. split; [|done].
    split; [done|]. split.
    + apply loopInv_natives; [by rewrite length_insert| |done].
      pose proof (pending_insert _ _ _ (unsubscribed err x) Hx) as H.
      unfold notExited in H. rewrite Hwx in H. simpl in H. lia.
    + by apply watcherInv_insert with x.
  - (* WatcherExit *)
    destruct (onNative _ _ _) as [w1|] eqn:Hon; [|done]. simplify_eq.
    apply onNative_Some in Hon as (x & x' & Hx & Hx' & ->).
    destruct (watcher x) eqn:Hwx; simplify_eq. split; [|done].
    assert (Hpos : (0 < pending (natives (call w)))%nat).
    { eapply pending_positive; [done|]. unfold notExited. by rewrite Hwx. }
    split; [|split].
    + unfold finisherInv in *. simpl.
      destruct (finisher (call w)) as [f|] eqn:Hfin; [|done].
      destruct (loopInv_finisher _ _ _ Hl) as (_ & _ & Hwg);
        [by rewrite Hfin|].
      destruct f; try done; lia.
    + by apply (loopInv_exit _ _ (call w)).
    + by apply watcherInv_insert with x.
  - (* FinisherWake *)
    destruct (finisher (call w)) as [[]|] eqn:Hfin; try done.
    destruct (Z.eqb_spec (outputWg (call w)) 0) as [Hz|]; [|done].
    simplify_eq. split; [|done].
    unfold finisherInv in Hf. rewrite Hfin in Hf.
    split; [done|]. split; [|done].
    apply loopInv_setFinisher; [by rewrite Hfin|done].
  - (* FinisherClose *)
    destruct (finisher (call w)) as [[]|] eqn:Hfin; try done.
    unfold finisherInv in Hf. rewrite Hfin in Hf. destruct Hf as [Hc Hz].
    rewrite Hc in Hfire. simplify_eq. split; [|done].
    split; [|split; [|done]].
    + unfold finisherInv. simpl. by rewrite Hc.
    + apply (loopInv_setFinisher _ _ (closeOutput (call w)));
        [simpl; by rewrite Hfin|].
      apply loopInv_closeOutput; [by rewrite Hfin|done].
  - (* FinisherExit *)
    destruct (finisher (call w)) as [[]|] eqn:Hfin; try done.
    unfold finisherInv in Hf. rewrite Hfin in Hf.
    simplify_eq. split; [|done].
    split; [done|]. split; [|done].
    apply (loopInv_setFinisher _ _ (call w)); [by rewrite Hfin|done].
  - (* BrokerDeliver *)
    apply onNative_Some in Hfire as (x & x' & Hx & Hx' & ->).
    repeat case_match; simplify_eq. split; [|done].
    by apply callInvariant_setHandler.
  - (* Handler *)
    destruct (natives (call w) !! num) as [x|] eqn:Hx; [|done].
    destruct (handler x) as [p|]; [|done].
    destruct (procStep _ _ _ _ _) as [[a p']|]; [|done]. simplify_eq.
    pose proof (callInvariant_setHandler w num x p' Hx Hinv) as H.
    split; [|by destruct a].
    destruct a; simpl; [done| |]; by eapply callInvariant_same.
Qed.

(** A step that changes how often the channel was closed is the close of
    the last goroutine. *)
Lemma fire_outputCloses StopTime topic l w w' :
  fire StopTime topic l w = Some w' ->
  outputCloses (call w') <> outputCloses (call w) -> l = FinisherClose.
Proof.
  intros Hfire Hc. unfold fire in Hfire.
  destruct (crashed w); [done|].
  destruct l; try done; exfalso; apply Hc; clear Hc;
    try (by repeat case_match; simplify_eq);
    try (by apply onNative_Some in Hfire as (? & ? & _ & _ & ->)).
  - destruct (subscribeAt w); try done. destruct (_ <? _)%nat; [|done].
    destruct (subscribeIter _ _ _ _ _) as [[[r c'] evs]|] eqn:Hiter.
    + apply subscribeIter_Returns in Hiter as (_ & Hc' & _).
      by destruct r; simplify_eq.
    + by simplify_eq.
  - destruct (_ || _)%bool; [|done].
    by apply onNative_Some in Hfire as (? & ? & _ & _ & ->).
  - destruct (onNative _ _ _) eqn:Hon; simplify_eq.
    by apply onNative_Some in Hon as (? & ? & _ & _ & ->).
  - repeat case_match; simplify_eq. by destruct a.
Qed.

(** While no [Unsubscribe] fails, a native subscription is subscribed
    only as long as its watcher waits. *)
Lemma fire_subscribed StopTime topic l w w' :
  unsubscribeSucceeds l ->
  fire StopTime topic l w = Some w' ->
  Forall (fun n => subscribed n = true -> watcher n = WatcherWaiting)
    (natives (call w)) ->
  Forall (fun n => subscribed n = true -> watcher n = WatcherWaiting)
    (natives (call w')).
Proof.
  intros Hl Hfire Hinv. unfold fire in Hfire.
  destruct (crashed w); [done|].
  destruct l; try (by repeat case_match; simplify_eq).
  - (* SubscribeTurn *)
    destruct (subscribeAt w); try done. destruct (_ <? _)%nat; [|done].
    destruct (subscribeIter _ _ _ _ _) as [[[r c'] evs]|] eqn:Hiter.
    + apply subscribeIter_Returns in Hiter as (_ & _ & _ & Hn').
      destruct r as [err|]; simplify_eq; simpl.
      * by rewrite Hn'.
      * destruct Hn' as (x & (_ & Hwat & _) & ->).
        apply Forall_app. split; [done|]. by constructor.
    + by simplify_eq.
  - (* WatcherUnsubscribe *)
    destruct (_ || _)%bool; [|done].
    apply onNative_Some in Hfire as (x & x' & Hx & Hx' & ->).
    destruct (watcher x); simplify_eq. simpl.
    apply Forall_insert; [done|]. by destruct err.
  - (* WatcherExit *)
    destruct (onNative _ _ _) as [w1|] eqn:Hon; [|done]. simplify_eq.
    apply onNative_Some in Hon as (x & x' & Hx & Hx' & ->).
    destruct (watcher x) eqn:Hwx; simplify_eq. simpl.
    apply Forall_insert; [done|]. simpl. intros Hsub.
    pose proof (Forall_lookup_1 _ _ _ _ Hinv Hx Hsub) as Hwait. congruence.
  - (* BrokerDeliver *)
    apply onNative_Some in Hfire as (x & x' & Hx & Hx' & ->).
    repeat case_match; simplify_eq. simpl.
    apply Forall_insert; [done|]. by apply (Forall_lookup_1 _ _ _ _ Hinv Hx).
  - (* Handler *)
    destruct (natives (call w) !! num) as [x|] eqn:Hx; [|done].
    destruct (handler x) as [p|]; [|done].
    destruct (procStep _ _ _ _ _) as [[a p']|]; [|done]. simplify_eq.
    assert (Forall (fun n => subscribed n = true -> watcher n = WatcherWaiting)
              (<[num := setHandler p' x]> (natives (call w)))) as H.
    { apply Forall_insert; [done|].
      by apply (Forall_lookup_1 _ _ _ _ Hinv Hx). }
    by destruct a.
Qed.

Section Runs.

Variable StopTime : Z.
Variable topic : string.
Variable s : Subscriber.

Lemma callInvariant_start : callInvariant (start s).
Proof. repeat split. constructor. Qed.

Lemma reachable_invariant w :
  reachable StopTime topic s w ->
  callInvariant w /\ config (sub w) = config s.
Proof.
  induction 1 as [|w w' _ [Hinv Hcfg] [l Hfire]].
  - split; [apply callInvariant_start|done].
  - destruct (fire_invariant _ _ _ _ _ Hfire Hinv) as [Hinv' Hcfg'].
    split; [done|congruence].
Qed.

Lemma run_reachable ls w w' :
  reachable StopTime topic s w -> run StopTime topic ls w = Some w' ->
  reachable StopTime topic s w'.
Proof.
  revert w. induction ls as [|l ls IH]; intros w Hw; simpl.
  - by intros [= <-].
  - destruct (fire StopTime topic l w) as [w1|] eqn:Hfire; [|done].
    apply IH. eapply reachable_step; [done|]. by exists l.
Qed.

Lemma run_app ls1 ls2 w :
  run StopTime topic (ls1 ++ ls2) w =
  match run StopTime topic ls1 w with
  | Some w' => run StopTime topic ls2 w'
  | None => None
  end.
Proof.
  revert w. induction ls1 as [|l ls1 IH]; intros w; simpl; [done|].
  by destruct (fire StopTime topic l w).
Qed.

(** The channel is closed at most once, and only after the loop of
    [Subscribe] and after every watcher of the call has left. *)
Lemma closedOnceAfterWatchers_holds :
  closedOnceAfterWatchers StopTime topic s.
Proof.
  intros w Hw. destruct (reachable_invariant w Hw) as [(Hf & Hl & Hwi) _].
  unfold finisherInv in Hf.
  destruct (finisher (call w)) as [f|] eqn:Hfin.
  - destruct (loopInv_finisher _ _ _ Hl) as (Hpc & Hlen & Hwg);
      [by rewrite Hfin|].
    split; [destruct f; lia|]. intros Hc.
    split; [done|]. split; [done|].
    assert (Hp : pending (natives (call w)) = 0%nat) by (destruct f; lia).
    by apply pending_zero in Hp.
  - split; [lia|]. intros Hc. lia.
Qed.

(** When no [Unsubscribe] has failed, the native subscriptions are all
    unsubscribed once the channel is closed. *)
Lemma closedAfterUnsubscribe_holds : closedAfterUnsubscribe StopTime topic s.
Proof.
  assert (Hruns : forall ls w w',
            Forall unsubscribeSucceeds ls ->
            run StopTime topic ls w = Some w' ->
            Forall (fun n => subscribed n = true -> watcher n = WatcherWaiting)
              (natives (call w)) ->
            Forall (fun n => subscribed n = true -> watcher n = WatcherWaiting)
              (natives (call w'))).
  { induction ls as [|l ls IH]; intros w w' Hls; simpl.
    - by intros [= <-].
    - destruct (fire StopTime topic l w) as [w1|] eqn:Hfire; [|done].
      inversion Hls as [|? ? Hl Hls']; subst. intros Hrun Hinv.
      apply (IH w1 w' Hls' Hrun). by eapply fire_subscribed. }
  intros ls w Hls Hrun Hc.
  pose proof (Hruns ls (start s) w Hls Hrun ltac:(constructor)) as Hinv.
  destruct (closedOnceAfterWatchers_holds w) as [_ Hexit].
  { eapply run_reachable; [apply reachable_start|done]. }
  destruct (Hexit Hc) as (_ & _ & Hgone).
  rewrite Forall_forall in Hinv, Hgone. apply Forall_forall. intros x Hx.
  specialize (Hinv x Hx). specialize (Hgone x Hx).
  destruct (subscribed x); [|done]. specialize (Hinv eq_refl). congruence.
Qed.

Lemma fire_WatcherUnsubscribe w num err x :
  crashed w = None ->
  closing (sub w) = true \/ ctxDone w = true ->
  natives (call w) !! num = Some x -> watcher x = WatcherWaiting ->
  fire StopTime topic (WatcherUnsubscribe num err) w =
  Some (withCall (setNatives (<[num := unsubscribed err x]> (natives (call w)))
                    (call w)) w).
Proof.
  intros Hcr Hsig Hx Hwx. unfold fire, onNative. rewrite Hcr, Hx, Hwx.
  by destruct Hsig as [-> | ->]; [|rewrite orb_true_r].
Qed.

Lemma fire_WatcherExit w num x :
  crashed w = None ->
  natives (call w) !! num = Some x -> watcher x = WatcherUnsubscribed ->
  fire StopTime topic (WatcherExit num) w =
  Some (withCall (addOutputWg (-1)
                    (setNatives (<[num := exited x]> (natives (call w)))
                       (call w))) w).
Proof.
  intros Hcr Hx Hwx. unfold fire, onNative. by rewrite Hcr, Hx, Hwx.
Qed.

(** A watcher that is still there can leave once the subscriber is
    closing or the context is cancelled, whatever [Unsubscribe] answers. *)
Lemma watcher_can_exit errs w num x :
  crashed w = None ->
  closing (sub w) = true \/ ctxDone w = true ->
  natives (call w) !! num = Some x -> notExited x = true ->
  exists ls w',
    Forall (ownStep errs) ls /\ run StopTime topic ls w = Some w' /\
    sub w' = sub w /\ ctxDone w' = ctxDone w /\ crashed w' = None /\
    subscribeAt w' = subscribeAt w /\
    finisher (call w') = finisher (call w) /\
    outputCloses (call w') = outputCloses (call w) /\
    S (pending (natives (call w'))) = pending (natives (call w)).
Proof.
  intros Hcr Hsig Hx Hne.
  unfold notExited in Hne. destruct (watcher x) eqn:Hwx; [| |done].
  - exists [WatcherUnsubscribe num (errs num); WatcherExit num]. eexists.
    split; [by repeat constructor|]. split.
    + simpl. rewrite (fire_WatcherUnsubscribe w num (errs num) x) by done.
      rewrite (fire_WatcherExit _ num (unsubscribed (errs num) x));
        [done|done| |done].
      simpl. apply list_lookup_insert_eq. by eapply lookup_lt_Some.
    + simpl. repeat split; try done.
      rewrite list_insert_insert_eq.
      pose proof (pending_insert _ _ _
                    (exited (unsubscribed (errs num) x)) Hx) as Hp.
      unfold notExited in Hp. rewrite Hwx in Hp. simpl in Hp. lia.
  - exists [WatcherExit num]. eexists.
    split; [by repeat constructor|]. split.
    + simpl. by rewrite (fire_WatcherExit w num x).
    + simpl. repeat split; try done.
      pose proof (pending_insert _ _ _ (exited x) Hx) as Hp.
      unfold notExited in Hp. rewrite Hwx in Hp. simpl in Hp. lia.
Qed.

Lemma pending_positive_inv l :
  (0 < pending l)%nat -> exists num x, l !! num = Some x /\ notExited x = true.
Proof.
  induction l as [|x l IH]; [unfold pending; simpl; lia|].
  rewrite pending_cons. destruct (notExited x) eqn:Hx.
  - intros _. by exists 0%nat, x.
  - intros H. destruct IH as (num & y & Hy & Hne); [lia|].
    by exists (S num), y.
Qed.

(** All watchers can leave. *)
Lemma watchers_can_exit errs k :
  forall w,
  pending (natives (call w)) = k ->
  crashed w = None ->
  closing (sub w) = true \/ ctxDone w = true ->
  exists ls w',
    Forall (ownStep errs) ls /\ run StopTime topic ls w = Some w' /\
    crashed w' = None /\
    subscribeAt w' = subscribeAt w /\
    finisher (call w') = finisher (call w) /\
    outputCloses (call w') = outputCloses (call w) /\
    pending (natives (call w')) = 0%nat.
Proof.
  induction k as [|k IH]; intros w Hk Hcr Hsig.
  - exists [], w. repeat split; try done.
  - destruct (pending_positive_inv (natives (call w))) as (num & x & Hx & Hne);
      [lia|].
    destruct (watcher_can_exit errs w num x Hcr Hsig Hx Hne)
      as (ls1 & w1 & Hown1 & Hrun1 & Hsub & Hctx & Hcr1 & Hpc1 & Hfin1 & Hc1 & Hp1).
    destruct (IH w1) as (ls2 & w2 & Hown2 & Hrun2 & Hcr2 & Hpc2 & Hfin2 & Hc2 & Hp2).
    { lia. } { done. } { by rewrite Hsub, Hctx. }
    exists (ls1 ++ ls2), w2. split; [by apply Forall_app|].
    rewrite run_app, Hrun1. repeat split; try done; congruence.
Qed.

Lemma fire_FinisherWake w :
  crashed w = None ->
  finisher (call w) = Some FinisherWaiting -> outputWg (call w) = 0 ->
  fire StopTime topic FinisherWake w =
  Some (withCall (setFinisher FinisherWoken (call w)) w).
Proof. intros Hcr Hf Hwg. unfold fire. by rewrite Hcr, Hf, Hwg. Qed.

Lemma fire_FinisherClose w :
  crashed w = None ->
  finisher (call w) = Some FinisherWoken -> outputCloses (call w) = 0%nat ->
  fire StopTime topic FinisherClose w =
  Some (withCall (setFinisher FinisherClosed (closeOutput (call w))) w).
Proof. intros Hcr Hf Hc. unfold fire. by rewrite Hcr, Hf, Hc. Qed.

Lemma canClose_holds : canClose StopTime topic s.
Proof.
  intros errs w Hw Hcr Hstarted Hsig.
  destruct (watchers_can_exit errs _ w eq_refl Hcr Hsig)
    as (ls & w1 & Hown & Hrun & Hcr1 & Hpc1 & Hfin1 & Hc1 & Hp1).
  pose proof (run_reachable _ _ _ Hw Hrun) as Hw1.
  destruct (reachable_invariant w1 Hw1) as [(Hf & Hl & _) _].
  destruct (loopInv_finisher _ _ _ Hl) as (_ & _ & Hwg); [congruence|].
  rewrite Hp1 in Hwg. unfold finisherInv in Hf.
  destruct (finisher (call w1)) as [[]|] eqn:Hf1; [| | | |congruence].
  - exists (ls ++ [FinisherWake; FinisherClose]). eexists.
    split; [apply Forall_app; split; [done|by repeat constructor]|].
    rewrite run_app, Hrun. split.
    + simpl. rewrite fire_FinisherWake by done.
      by rewrite fire_FinisherClose.
    + simpl. by rewrite Hf.
  - exists (ls ++ [FinisherClose]). eexists.
    split; [apply Forall_app; split; [done|by repeat constructor]|].
    rewrite run_app, Hrun. destruct Hf as [Hf _]. split.
    + simpl. by rewrite fire_FinisherClose.
    + simpl. by rewrite Hf.
  - exists ls, w1. by destruct Hf.
  - exists ls, w1. by destruct Hf.
Qed.

Lemma closedByFinisher_holds : closedByFinisher StopTime topic s.
Proof. intros w l w' _ Hfire Hc. by eapply fire_outputCloses. Qed.

(** A callback hands a message over only by the send of its first
    [select], on an open channel. *)
Lemma procStep_Deliver env s0 ctx outputClosed p msg p' :
  procStep env s0 ctx outputClosed p = Some (Deliver msg, p') ->
  outputClosed = false /\
  exists onClosing onCtxDone onSent,
    p = SelectHandoff msg onClosing onCtxDone onSent /\ p' = Some onSent.
Proof.
  destruct p; simpl; intros Hp; repeat case_match; simplify_eq.
  split; [done|]. by eexists _, _, _.
Qed.

(** A closed channel hands over nothing more. *)
Lemma silentOnceOutputClosed_holds : silentOnceOutputClosed StopTime topic s.
Proof.
  intros w w' _ [l Hfire] Hc. unfold fire in Hfire.
  destruct (crashed w); [done|].
  destruct l; repeat case_match; simplify_eq; try done;
    try (apply onNative_Some in Hfire as (? & ? & _ & _ & ->); done).
  - destruct (onNative _ _ _) eqn:Hon; simplify_eq.
    apply onNative_Some in Hon as (? & ? & _ & _ & ->); done.
  - destruct a as [|msg|text]; try done.
    match goal with
    | H : procStep _ _ _ _ _ = Some _ |- _ =>
      apply procStep_Deliver in H as [H _]
    end.
    by rewrite Hc in *.
Qed.

(** A callback that finds the subscriber closed at its test, or whose
    first [select] takes another case than the send, hands nothing over. *)
Lemma sends_processMessage_closed cfg env m :
  envClosed env = true \/ envHandoff env <> HandoffSent ->
  sends (exec env (processMessage StopTime cfg m)) = [].
Proof.
  intros Henv. unfold processMessage.
  destruct (cfgUnmarshaler cfg) as [u|]; [|done].
  destruct (Unmarshal u m) as [[msg|]|err]; [|done|done].
  simpl. destruct (envClosed env) eqn:Hc; [done|].
  destruct Henv as [|Hh]; [done|]. simpl.
  by destruct (envHandoff env).
Qed.

(** C1, amended: for a Subscribe call, [close(output)] runs at most once,
    and only after the loop of the call has made all its turns and the
    watcher of every native subscription it made has called [Unsubscribe]
    and left, whether [Unsubscribe] succeeded or not, and whether the call
    has returned the channel yet or not; only the last goroutine of the
    call runs it; in a run in which no [Unsubscribe] fails every native
    subscription of the call is unsubscribed by then; once that goroutine
    is started and the subscriber is closing or the context is cancelled,
    the goroutines of the call can reach that close by their own steps,
    whatever [Unsubscribe] answers; after it no message is handed over;
    and a coordinator that finds the closed flag set at its test, or whose
    first select takes the closing or the cancelled case, sends nothing. *)
Theorem delivery_channel_closed_once :
  closedOnceAfterWatchers StopTime topic s /\
  closedAfterUnsubscribe StopTime topic s /\
  closedByFinisher StopTime topic s /\
  canClose StopTime topic s /\
  silentOnceOutputClosed StopTime topic s /\
  (forall cfg env m,
     envClosed env = true \/ envHandoff env <> HandoffSent ->
     sends (exec env (processMessage StopTime cfg m)) = []).
Proof.
  split; [apply closedOnceAfterWatchers_holds|].
  split; [apply closedAfterUnsubscribe_holds|].
  split; [apply closedByFinisher_holds|].
  split; [apply canClose_holds|].
  split; [apply silentOnceOutputClosed_holds|].
  apply sends_processMessage_closed.
Qed.

End Runs.

(** C1, as the specification states it, fails: a callback that has passed
    its test of the closed flag hands its message over after [Close] has
    marked the subscriber closed. *)
Lemma delivery_after_marked_closed :
  ~ deliveryChannelClaim (-1) "orders" (sampleSubscriber 1).
Proof.
  intros (_ & Hsilent & _).
  destruct (run (-1) "orders" closeMarksFirst (start (sampleSubscriber 1)))
    as [w|] eqn:Hrun; [|by vm_compute in Hrun].
  destruct (fire (-1) "orders" (Handler 0 (sampleEnv SigAcked 1)) w)
    as [w'|] eqn:Hfire.
  - assert (Hw : reachable (-1) "orders" (sampleSubscriber 1) w).
    { eapply run_reachable; [apply reachable_start|done]. }
    assert (Hstep : step (-1) "orders" w w') by (by eexists).
    assert (Hclosed : closed (sub w) = true).
    { vm_compute in Hrun. by injection Hrun as <-. }
    specialize (Hsilent w w' Hw Hstep Hclosed).
    vm_compute in Hrun. injection Hrun as <-.
    vm_compute in Hfire. injection Hfire as <-. discriminate.
  - vm_compute in Hrun. injection Hrun as <-. by vm_compute in Hfire.
Qed.

(** And a callback that is as far when the channel is closed sends on the
    closed channel, which panics. *)
Lemma send_on_closed_channel :
  ~ neverSendsOnClosed (-1) "orders" (sampleSubscriber 1).
Proof.
  intros Hnever.
  destruct (run (-1) "orders"
              (closeOutputFirst ++ [Handler 0 (sampleEnv SigAcked 1)])
              (start (sampleSubscriber 1))) as [w|] eqn:Hrun;
    [|by vm_compute in Hrun].
  apply (Hnever w).
  - eapply run_reachable; [apply reachable_start|done].
  - vm_compute in Hrun. by injection Hrun as <-.
Qed.

(** Nor is every native subscription terminated when the channel is
    closed: a watcher whose [Unsubscribe] fails logs the error and leaves,
    and the channel is closed over a native subscription that is still
    subscribed. *)
Lemma closed_over_failed_unsubscribe :
  ~ closedOnceAfterUnsubscribe (-1) "orders" (sampleSubscriber 1).
Proof.
  intros Hclaim.
  destruct (run (-1) "orders" failedUnsubscribe (start (sampleSubscriber 1)))
    as [w|] eqn:Hrun; [|by vm_compute in Hrun].
  destruct (Hclaim w) as [_ Hall].
  - eapply run_reachable; [apply reachable_start|done].
  - vm_compute in Hrun. injection Hrun as <-.
    specialize (Hall eq_refl). by inversion Hall.
Qed.

(** The channel can be closed before [Subscribe] has returned it: on a
    context that is cancelled already, the goroutines of the call run to
    the close between the [go] statement and the [return]. *)
Lemma closed_before_Subscribe_returns :
  exists w,
    run (-1) "orders" closedBeforeReturn (start (sampleSubscriber 1)) = Some w /\
    outputCloses (call w) = 1%nat /\ subscribeAt w = SubscribeSpawned.
Proof. eexists. split; [by vm_compute|]. by split. Qed.

Lemma delivery_channel_closed_once_witness :
  match run (-1) "orders" cancelledCall (start (sampleSubscriber 2)) with
  | Some w =>
    exists ls w',
      Forall (ownStep (fun _ => Some (New "nats: connection closed"))) ls /\
      run (-1) "orders" ls w = Some w' /\
      crashed w' = None /\ outputCloses (call w') = 1%nat
  | None => False
  end /\
  sends (exec {| envClosed := true; envHandoff := HandoffSent;
                 envSignal := SigAcked;
                 envMetadata := Ok {| NumDelivered := 1 |};
                 envCall := fun _ => None |}
           (processMessage (-1) (sampleConfig false None 2) streamFrame)) = [].
Proof.
  pose proof (delivery_channel_closed_once (-1) "orders" (sampleSubscriber 2))
    as (_ & _ & _ & Hcan & _ & Hsends).
  split.
  - destruct (run (-1) "orders" cancelledCall (start (sampleSubscriber 2)))
      as [w|] eqn:Hrun; [|by vm_compute in Hrun].
    apply Hcan.
    + eapply run_reachable; [apply reachable_start|exact Hrun].
    + vm_compute in Hrun. by injection Hrun as <-.
    + vm_compute in Hrun. by injection Hrun as <-.
    + right. vm_compute in Hrun. by injection Hrun as <-.
  - apply Hsends. by left.
Defined.

(** ** The two views of the code agree *)

(** A step of a callback among the other goroutines is a step of its run
    in isolation, when the run is told the closed flag the step reads. *)
Lemma procStep_exec env s ctx outputClosed p a p' :
  closed s = envClosed env ->
  procStep env s ctx outputClosed p = Some (a, Some p') ->
  exists evs, exec env p = evs ++ exec env p' /\
              forall msg, a = Deliver msg -> evs = [EvSend msg].
Proof.
  intros Hc. destruct p; simpl; intros Hp.
  - done.
  - done.
  - simplify_eq. by exists [e].
  - simplify_eq. by exists [EvCall c].
  - simplify_eq. by exists [EvMetadata].
  - unfold isClosed in Hp. destruct (subsLock s); [done|].
    simplify_eq. rewrite Hc. by exists [].
  - destruct (envHandoff env); repeat case_match; simplify_eq.
    + by exists [].
    + by exists [].
    + exists [EvSend msg]. split; [done|]. by intros ? [= <-].
  - destruct (envSignal env); repeat case_match; simplify_eq; by exists [].
Qed.

Section SubscribeSteps.

Variable StopTime : Z.
Variable topic : string.

(** The loop of [Subscribe], run without another goroutine in between, is
    a run of its steps. *)
Lemma subscribeLoop_run env todo :
  forall i w r c evs,
  subscribeLoop env (sub w) topic todo i (call w) = Returns (r, c, evs) ->
  crashed w = None ->
  subscribeAt w = SubscribeTest i ->
  (i + todo)%nat = turns w ->
  exists ls,
    run StopTime topic ls w =
    Some (withSubscribeAt (SubscribeReturned r) (withCall c w)).
Proof.
  induction todo as [|todo IH]; intros i w r c evs Hloop Hcr Hpc Hturns.
  - simpl in Hloop. simplify_eq. exists [SubscribeGo; SubscribeReturn].
    simpl. unfold fire at 1. rewrite Hcr, Hpc.
    destruct (Nat.ltb_spec i (turns w)); [lia|].
    unfold fire. simpl. by rewrite Hcr.
  - simpl in Hloop.
    destruct (subscribeIter _ _ _ _ _) as [[[[err|] c1] evs1]|] eqn:Hiter;
      [| |done].
    + simplify_eq.
      exists [SubscribeTurn (envEnsureStream env i) (envQueueSubscribe env i)].
      simpl. unfold fire. rewrite Hcr, Hpc, Hiter.
      destruct (Nat.ltb_spec i (turns w)); [done|lia].
    + destruct (subscribeLoop env (sub w) topic todo (S i) c1)
        as [[[r' c'] evs']|] eqn:Hrest; [|done]. simplify_eq.
      destruct (IH (S i) (withSubscribeAt (SubscribeTest (S i)) (withCall c1 w))
                  r c evs') as [ls Hls]; try done.
      { unfold turns in *. simpl. lia. }
      exists (SubscribeTurn (envEnsureStream env i) (envQueueSubscribe env i)
              :: ls).
      simpl. unfold fire at 1. rewrite Hcr, Hpc, Hiter.
      destruct (Nat.ltb_spec i (turns w)); [|lia]. by rewrite Hls.
Qed.

(** [Subscribe], run without another goroutine in between, is a run of
    its steps from the start. *)
Lemma Subscribe_run env s r s' c evs :
  Subscribe env s topic = Returns (r, s', c, evs) ->
  exists ls,
    run StopTime topic ls (start s) =
    Some {| sub := s'; ctxDone := false; call := c;
            subscribeAt := SubscribeReturned r; closeAt := CloseIdle;
            delivered := []; crashed := None |}.
Proof.
  unfold Subscribe.
  destruct (subscribeLoop _ _ _ _ _ _) as [[[r' c'] evs']|] eqn:Hloop; [|done].
  intros [= <- <- <- <-].
  destruct (subscribeLoop_run env
              (Z.to_nat (SubscribersCount (config (addOutputsWg 1 s)))) 0%nat
              (withSubscribeAt (SubscribeTest 0)
                 (withSub (addOutputsWg 1 s) (start s))) r' c' evs')
    as [ls Hls]; try done.
  exists (SubscribeEnter :: ls).
  change (run StopTime topic (SubscribeEnter :: ls) (start s))
    with (run StopTime topic ls
            (withSubscribeAt (SubscribeTest 0)
               (withSub (addOutputsWg 1 s) (start s)))).
  by rewrite Hls.
Qed.

End SubscribeSteps.

(** [Close] on an open subscriber, run without another goroutine in
    between, is a run of its steps: three when the wait times out, and
    [Drain] as the fourth when it does not; it can report a drained
    wait-group only if the counter is at zero. *)
Lemma Close_run StopTime topic env s :
  subsLock s = false -> closed s = false ->
  envTimedOut env = true \/ outputsWg s = 0 ->
  run StopTime topic
    ([CloseEnter; CloseSignal; CloseWaitOver (envTimedOut env)] ++
     if envTimedOut env then [] else [CloseDrain (envDrain env)]) (start s) =
  Some {| sub := (Close env s).1.2; ctxDone := false; call := newCall;
          subscribeAt := SubscribeEntry;
          closeAt := CloseReturned (Close env s).1.1;
          delivered := []; crashed := None |}.
Proof.
  intros Hlock Hc Hwait. rewrite (Close_open env s Hc).
  simpl. unfold fire at 1. simpl. rewrite Hlock, Hc. simpl.
  unfold closeWait. destruct (envTimedOut env) eqn:Ht.
  - done.
  - destruct Hwait as [|Hz]; [done|]. simpl. unfold fire. simpl.
    by rewrite Hz.
Qed.

(** * Further properties *)

(** ** Configuration and construction *)

Lemma defaultTimeout_idempotent d :
  defaultTimeout (defaultTimeout d) = defaultTimeout d.
Proof.
  unfold defaultTimeout. destruct (Z.leb_spec d 0) as [Hd|Hd].
  - reflexivity.
  - destruct (Z.leb_spec d 0); [lia|done].
Qed.

(** X1: defaulting twice is defaulting once, so a configuration read back
    from a subscriber can be given to a constructor again unchanged. *)
Theorem setDefaults_idempotent u f c :
  setDefaults u f (setDefaults u f c) = setDefaults u f c.
Proof.
  unfold setDefaults. simpl. rewrite !defaultTimeout_idempotent.
  f_equal.
  - by destruct (cfgUnmarshaler c).
  - destruct (Z.leb_spec (SubscribersCount c) 0) as [Hn|Hn]; [done|].
    destruct (Z.leb_spec (SubscribersCount c) 0); [lia|done].
  - by destruct (cfgSubjectCalculator c).
Qed.

(** X2: [Validate] on a configuration as it is given, not defaulted: it
    passes exactly when an unmarshaler and a subject calculator are set
    and the queue group is not missing, and the missing unmarshaler is
    reported before the queue group, the subject calculator last. *)
Theorem Validate_reports_first_failure c :
  (Validate c = None <->
   cfgUnmarshaler c <> None /\
   ~ (QueueGroup c = "" /\ 1 < SubscribersCount c) /\
   cfgSubjectCalculator c <> None) /\
  (Validate c = Some errUnmarshalerMissing <-> cfgUnmarshaler c = None) /\
  (Validate c = Some errQueueGroup <->
   cfgUnmarshaler c <> None /\ QueueGroup c = "" /\ 1 < SubscribersCount c) /\
  (Validate c = Some errSubjectCalculator <->
   cfgUnmarshaler c <> None /\
   ~ (QueueGroup c = "" /\ 1 < SubscribersCount c) /\
   cfgSubjectCalculator c = None).
Proof.
  unfold Validate.
  destruct (cfgUnmarshaler c) as [u|].
  - destruct (String.eqb_spec (QueueGroup c) "") as [Hq|Hq];
      destruct (Z.ltb_spec 1 (SubscribersCount c)) as [Hn|Hn]; simpl;
      destruct (cfgSubjectCalculator c) as [f|];
      repeat split; try done; try (intros; intuition (try done; try lia)).
  - repeat split; try done; intros; intuition done.
Qed.

(** What [NewSubscriberWithNatsConn] returns when validation passes. *)
Lemma NewSubscriberWithNatsConn_valid u f js c :
  Validate (setDefaults u f c) = None ->
  NewSubscriberWithNatsConn u f js c =
  if Enabled (JetStream c) then
    match js with
    | Some err => Err err
    | None =>
      Ok {| conn := JetStreamConn; config := setDefaults u f c;
            subsLock := false; closed := false; closing := false;
            outputsWg := 0; topicInterpreter := true |}
    end
  else
    Ok {| conn := CoreConn; config := setDefaults u f c;
          subsLock := false; closed := false; closing := false;
          outputsWg := 0; topicInterpreter := false |}.
Proof. intros Hv. unfold NewSubscriberWithNatsConn. by rewrite Hv. Qed.

(** X3: [NewSubscriber] succeeds exactly when the connection is made, the
    queue group is not missing and, with JetStream enabled, the JetStream
    context is obtained; a connection error comes first and wrapped, and
    the subscriber returned is open, unlocked, with an empty wait-group,
    the defaulted configuration, and the JetStream connection and topic
    interpreter exactly when JetStream is enabled. *)
Theorem NewSubscriber_succeeds_iff u f connect js sc :
  ((exists s, NewSubscriber u f connect js sc = Ok s) <->
   connect = None /\
   ~ (sc_QueueGroup sc = "" /\ 1 < sc_SubscribersCount sc) /\
   (Enabled (sc_JetStream sc) = true -> js = None)) /\
  (forall err, connect = Some err ->
     NewSubscriber u f connect js sc = Err (Wrap err "cannot connect to NATS")) /\
  (forall s, NewSubscriber u f connect js sc = Ok s ->
     pristine s /\ constructed s /\
     config s = setDefaults u f (GetSubscriberSubscriptionConfig sc) /\
     topicInterpreter s = Enabled (sc_JetStream sc) /\
     conn s = if Enabled (sc_JetStream sc) then JetStreamConn else CoreConn).
Proof.
  set (c := GetSubscriberSubscriptionConfig sc).
  assert (Hval : Validate (setDefaults u f c) = None <->
                 ~ (sc_QueueGroup sc = "" /\ 1 < sc_SubscribersCount sc)).
  { rewrite Validate_setDefaults. simpl.
    destruct (String.eqb_spec (sc_QueueGroup sc) "") as [Hq|Hq];
      destruct (Z.ltb_spec 1 (sc_SubscribersCount sc)) as [Hn|Hn]; simpl;
      split; try done; intros; intuition (try done; try lia). }
  split; [|split].
  - unfold NewSubscriber. fold c. split.
    + intros [s Hs]. destruct connect; [done|]. split; [done|].
      unfold NewSubscriberWithNatsConn in Hs.
      destruct (Validate (setDefaults u f c)) eqn:Hv; [done|].
      split; [by apply Hval|]. intros He. simpl in Hs.
      change (Enabled (JetStream c)) with (Enabled (sc_JetStream sc)) in Hs.
      rewrite He in Hs. by destruct js.
    + intros (-> & Hq & Hjs). apply Hval in Hq.
      rewrite NewSubscriberWithNatsConn_valid by done.
      change (Enabled (JetStream c)) with (Enabled (sc_JetStream sc)).
      destruct (Enabled (sc_JetStream sc)); [|by eexists].
      rewrite Hjs by done. by eexists.
  - by intros err ->.
  - intros s Hs. unfold NewSubscriber in Hs. destruct connect; [done|].
    fold c in Hs.
    pose proof (NewSubscriberWithNatsConn_constructed _ _ _ _ _ Hs)
      as (Hcons & Hc & Hcl & Hl & Hwg).
    split; [done|]. split; [done|].
    unfold NewSubscriberWithNatsConn in Hs.
    destruct (Validate (setDefaults u f c)); [done|]. simpl in Hs.
    change (Enabled (JetStream c)) with (Enabled (sc_JetStream sc)) in Hs.
    destruct (Enabled (sc_JetStream sc)); [destruct js; [done|]|];
      by injection Hs as <-.
Qed.

(** X4: the subscriber configuration of the test helper [newPubSub]
    passes validation for every queue name: one subscriber without a queue
    group, two with one; the subscriber has all three timeouts at 30
    seconds and the ack mode asked for. *)
Theorem newPubSub_subscriber_config_valid u f js
  DefaultURL envURL queueName exactlyOnce marshaler options :
  exists s,
    NewSubscriber u f None js
      (newPubSubConfig DefaultURL envURL queueName exactlyOnce marshaler
         options) = Ok s /\
    QueueGroup (config s) = queueName /\
    SubscribersCount (config s) = (if String.eqb queueName "" then 1 else 2) /\
    AckSync (config s) = exactlyOnce /\
    AckWaitTimeout (config s) = 30 * Second /\
    CloseTimeout (config s) = 30 * Second /\
    SubscribeTimeout (config s) = 30 * Second /\
    conn s = CoreConn.
Proof.
  unfold NewSubscriber.
  rewrite NewSubscriberWithNatsConn_valid.
  - simpl. eexists. split; [reflexivity|]. simpl. unfold subscriberCount.
    repeat split; by destruct (String.eqb queueName "").
  - rewrite Validate_setDefaults. simpl. unfold subscriberCount.
    by destruct (String.eqb queueName "").
Qed.

(** ** More on the per-message coordinator *)

Section CoordinatorRuns.

Variable StopTime : Z.
Variable cfg : SubscriberSubscriptionConfig.

(** Take a run of [processMessage] apart along the answers it gets. *)
Ltac split_run :=
  unfold processMessage, ackPhase, onAcked, onNacked, withNakDelay, Log,
    deferred;
  repeat (simpl; case_match); simpl.

(** X5: a run of the coordinator makes at most one transport call and at
    most one send, whatever the rest of the system answers; a transport
    call is made only for a frame with a reply subject, after the message
    was sent to the consumer, and on its ack or nack. *)
Theorem processMessage_one_send_one_call env m :
  let run := exec env (processMessage StopTime cfg m) in
  (length (sends run) <= 1)%nat /\
  (length (calls run) <= 1)%nat /\
  (calls run <> [] ->
   Reply m <> "" /\
   (envSignal env = SigAcked \/ envSignal env = SigNacked) /\
   exists u msg, cfgUnmarshaler cfg = Some u /\ Unmarshal u m = Ok (Some msg) /\
                 sends run = [msg]).
Proof.
  intros run. subst run. split; [|split].
  - split_run; lia.
  - split_run; lia.
  - destruct (cfgUnmarshaler cfg) as [u|] eqn:Hu;
      [|by unfold processMessage; rewrite Hu].
    destruct (Unmarshal u m) as [[msg|]|err] eqn:Hm;
      [|by unfold processMessage; rewrite Hu, Hm
       |by unfold processMessage; rewrite Hu, Hm].
    intros Hcalls.
    assert (Hr : Reply m <> "").
    { intros Hr. apply Hcalls. unfold processMessage, ackPhase, onAcked, onNacked.
      rewrite Hu, Hm, Hr. simpl. by repeat (simpl; case_match). }
    split; [done|]. split.
    + destruct (envSignal env) eqn:Hs; auto; exfalso; apply Hcalls;
        unfold processMessage, ackPhase; rewrite Hu, Hm; simpl;
        repeat (simpl; case_match); simpl; by rewrite ?Hs.
    + exists u, msg. split; [done|]. split; [done|].
      revert Hcalls. unfold processMessage. rewrite Hu, Hm. simpl.
      destruct (envClosed env); [done|]. simpl.
      destruct (envHandoff env); [done|done|]. intros _. simpl. f_equal.
      unfold ackPhase, onAcked, onNacked, withNakDelay, Log, deferred.
      by repeat (simpl; case_match).
Qed.

(** The events up to the handoff. *)
Lemma exec_processMessage_unmarshaled env u m msg :
  cfgUnmarshaler cfg = Some u ->
  Unmarshal u m = Ok (Some msg) ->
  exec env (processMessage StopTime cfg m) =
  [EvLog LTrace "Received message"; EvLog LTrace "Unmarshaled message";
   EvNewTimer (AckWaitTimeout cfg)] ++
  if envClosed env then [EvStopTimer; EvCancelCtx]
  else match envHandoff env with
       | HandoffClosing =>
         [EvLog LTrace "Closing, message discarded";
          EvStopTimer; EvCancelCtx]
       | HandoffCtxDone =>
         [EvLog LTrace "Context cancelled, message discarded";
          EvStopTimer; EvCancelCtx]
       | HandoffSent =>
         [EvSend msg; EvLog LTrace "Message sent to consumer"] ++
         exec env (ackPhase StopTime cfg m)
       end.
Proof.
  intros Hu Hm. unfold processMessage. rewrite Hu, Hm. simpl.
  destruct (envClosed env); [done|]. simpl. by destruct (envHandoff env).
Qed.

(** X6: when the consumer gives no answer - the ack-wait timer fires, the
    subscriber is closing, or the context is cancelled - the coordinator
    logs which and returns without any transport call: the frame is
    neither acked nor nacked. *)
Theorem processMessage_no_answer env u m msg :
  cfgUnmarshaler cfg = Some u ->
  Unmarshal u m = Ok (Some msg) ->
  envClosed env = false ->
  envHandoff env = HandoffSent ->
  envSignal env <> SigAcked ->
  envSignal env <> SigNacked ->
  let run := exec env (processMessage StopTime cfg m) in
  calls run = [] /\ sends run = [msg] /\ logged LError run = [] /\
  run =
  [EvLog LTrace "Received message"; EvLog LTrace "Unmarshaled message";
   EvNewTimer (AckWaitTimeout cfg); EvSend msg;
   EvLog LTrace "Message sent to consumer";
   EvLog LTrace
     match envSignal env with
     | SigClosing => "Closing, message discarded before ack"
     | SigCtxDone => "Context cancelled, message discarded before ack"
     | _ => "Ack timeout"
     end;
   EvStopTimer; EvCancelCtx].
Proof.
  intros Hu Hm Hc Hh Ha Hn run. subst run.
  rewrite (exec_processMessage_unmarshaled env u m msg Hu Hm), Hc, Hh.
  simpl. by destruct (envSignal env).
Qed.

(** X7: a message that is not handed to the consumer is dropped without a
    transport call: silently when the subscriber is found closed, with a
    trace line when the first [select] takes the closing or the cancelled
    case. *)
Theorem processMessage_discards env u m msg :
  cfgUnmarshaler cfg = Some u ->
  Unmarshal u m = Ok (Some msg) ->
  envClosed env = true \/ envHandoff env <> HandoffSent ->
  let run := exec env (processMessage StopTime cfg m) in
  calls run = [] /\ sends run = [] /\ logged LError run = [] /\
  (envClosed env = true ->
   run = [EvLog LTrace "Received message"; EvLog LTrace "Unmarshaled message";
          EvNewTimer (AckWaitTimeout cfg); EvStopTimer; EvCancelCtx]) /\
  (envClosed env = false ->
   run = [EvLog LTrace "Received message"; EvLog LTrace "Unmarshaled message";
          EvNewTimer (AckWaitTimeout cfg);
          EvLog LTrace
            match envHandoff env with
            | HandoffCtxDone => "Context cancelled, message discarded"
            | _ => "Closing, message discarded"
            end;
          EvStopTimer; EvCancelCtx]).
Proof.
  intros Hu Hm Henv run. subst run.
  rewrite (exec_processMessage_unmarshaled env u m msg Hu Hm).
  destruct (envClosed env).
  - by repeat split.
  - destruct Henv as [|Hh]; [done|].
    destruct (envHandoff env); by repeat split.
Qed.

(** X8: a run that unmarshals its frame makes the ack-wait timer once,
    with [AckWaitTimeout], and on every path ends by stopping it and then
    cancelling the context of the message, each once; a run that cannot
    unmarshal makes no timer. *)
Theorem processMessage_cleans_up env m :
  let run := exec env (processMessage StopTime cfg m) in
  (forall u msg, cfgUnmarshaler cfg = Some u -> Unmarshal u m = Ok (Some msg) ->
     timers run = [AckWaitTimeout cfg] /\
     timerStops run = [tt] /\ ctxCancels run = [tt] /\
     drop (length run - 2) run = [EvStopTimer; EvCancelCtx]) /\
  (forall u err, cfgUnmarshaler cfg = Some u -> Unmarshal u m = Err err ->
     timers run = [] /\ timerStops run = [] /\ ctxCancels run = []).
Proof.
  intros run. subst run. split.
  - intros u msg Hu Hm. unfold processMessage. rewrite Hu, Hm.
    unfold ackPhase, onAcked, onNacked, withNakDelay, Log, deferred.
    repeat (simpl; case_match); simpl; done.
  - intros u err Hu Hm. unfold processMessage. by rewrite Hu, Hm.
Qed.

(** The transport calls of a run, from the answers other than the errors
    of the calls. *)
Lemma calls_processMessage env u m msg :
  cfgUnmarshaler cfg = Some u ->
  Unmarshal u m = Ok (Some msg) ->
  calls (exec env (processMessage StopTime cfg m)) =
  if envClosed env then []
  else match envHandoff env with
       | HandoffSent =>
         match envSignal env with
         | SigAcked =>
           if String.eqb (Reply m) "" then []
           else [if AckSync cfg then CallAckSync else CallAck]
         | SigNacked =>
           if String.eqb (Reply m) "" then []
           else if nakDelayOf cfg env =? StopTime then [CallTerm]
           else if 0 <? nakDelayOf cfg env
                then [CallNakWithDelay (nakDelayOf cfg env)]
                else [CallNak]
         | _ => []
         end
       | _ => []
       end.
Proof.
  intros Hu Hm.
  rewrite (exec_processMessage_unmarshaled env u m msg Hu Hm).
  destruct (envClosed env); [done|]. destruct (envHandoff env); try done.
  rewrite calls_app. cbn [ackPhase exec app calls omap list_omap].
  destruct (envSignal env); try done.
  - apply calls_onAcked.
  - apply calls_onNacked.
Qed.

(** Nothing is sent to the consumer after the handoff. *)
Lemma sends_ackPhase env m : sends (exec env (ackPhase StopTime cfg m)) = [].
Proof.
  unfold ackPhase, onAcked, onNacked, withNakDelay, Log, deferred.
  by repeat (simpl; case_match).
Qed.

(** X9: the error a transport call returns changes the log line and
    nothing else: the call is not made again and no other call is made;
    a failed call is logged at error level. *)
Theorem processMessage_no_retry env env' m :
  envClosed env' = envClosed env ->
  envHandoff env' = envHandoff env ->
  envSignal env' = envSignal env ->
  envMetadata env' = envMetadata env ->
  calls (exec env' (processMessage StopTime cfg m)) =
  calls (exec env (processMessage StopTime cfg m)) /\
  sends (exec env' (processMessage StopTime cfg m)) =
  sends (exec env (processMessage StopTime cfg m)) /\
  (forall c err, calls (exec env (processMessage StopTime cfg m)) = [c] ->
     envCall env c = Some err ->
     exists text, EvLog LError text ∈ exec env (processMessage StopTime cfg m)).
Proof.
  intros Hc Hh Hs Hmd.
  destruct (cfgUnmarshaler cfg) as [u|] eqn:Hu;
    [|by unfold processMessage; rewrite Hu].
  destruct (Unmarshal u m) as [[msg|]|e] eqn:Hm;
    [|by unfold processMessage; rewrite Hu, Hm
     |by unfold processMessage; rewrite Hu, Hm].
  split; [|split].
  - rewrite !(calls_processMessage _ u m msg Hu Hm), Hc, Hh, Hs.
    unfold nakDelayOf. by rewrite Hmd.
  - rewrite !(exec_processMessage_unmarshaled _ u m msg Hu Hm), Hc, Hh.
    destruct (envClosed env); [done|]. destruct (envHandoff env); try done.
    rewrite !sends_app, !sends_ackPhase. done.
  - intros c err. unfold processMessage. rewrite Hu, Hm.
    unfold ackPhase, onAcked, onNacked, withNakDelay, Log, deferred.
    repeat (simpl; case_match); simpl; intros; simplify_eq;
      eexists; rewrite !elem_of_cons; eauto 20.
Qed.

End CoordinatorRuns.

Lemma processMessage_no_answer_witness :
  let run := exec (sampleEnv SigTimeout 1)
               (processMessage (-1) (sampleConfig false None 1) streamFrame) in
  calls run = [] /\ sends run = [sampleMessage] /\ logged LError run = [] /\
  run =
  [EvLog LTrace "Received message"; EvLog LTrace "Unmarshaled message";
   EvNewTimer (30 * Second); EvSend sampleMessage;
   EvLog LTrace "Message sent to consumer"; EvLog LTrace "Ack timeout";
   EvStopTimer; EvCancelCtx].
Proof.
  apply (processMessage_no_answer (-1) (sampleConfig false None 1)
           (sampleEnv SigTimeout 1) sampleUnmarshaler streamFrame
           sampleMessage); try reflexivity; discriminate.
Defined.

Lemma processMessage_discards_witness :
  let env := {| envClosed := false; envHandoff := HandoffCtxDone;
                envSignal := SigAcked;
                envMetadata := Ok {| NumDelivered := 1 |};
                envCall := fun _ => None |} in
  let run := exec env
               (processMessage (-1) (sampleConfig false None 1) streamFrame) in
  calls run = [] /\ sends run = [] /\
  EvLog LTrace "Context cancelled, message discarded" ∈ run.
Proof.
  intros env run.
  destruct (processMessage_discards (-1) (sampleConfig false None 1) env
              sampleUnmarshaler streamFrame sampleMessage)
    as (Hcalls & Hsends & _ & _ & Hrun);
    [reflexivity|reflexivity|right; discriminate|].
  split; [exact Hcalls|]. split; [exact Hsends|].
  subst run. rewrite Hrun by reflexivity. simpl. rewrite !elem_of_cons. auto.
Defined.

Lemma processMessage_no_retry_witness :
  let p := processMessage (-1) (sampleConfig true None 1) streamFrame in
  calls (exec (failingCalls (sampleEnv SigAcked 1)) p) = [CallAckSync] /\
  sends (exec (failingCalls (sampleEnv SigAcked 1)) p) = [sampleMessage] /\
  exists text,
    EvLog LError text ∈ exec (failingCalls (sampleEnv SigAcked 1)) p.
Proof.
  intros p.
  destruct (processMessage_no_retry (-1) (sampleConfig true None 1)
              (failingCalls (sampleEnv SigAcked 1)) (sampleEnv SigAcked 1)
              streamFrame) as (Hcalls & Hsends & Hlog);
    try reflexivity.
  split; [reflexivity|]. split; [reflexivity|].
  apply (Hlog CallAckSync (New "nats: timeout")); reflexivity.
Defined.

(** ** More on Subscribe *)

Section SubscribeFacts.

Variable env : SubscribeEnv.
Variable s : Subscriber.
Variable topic : string.
Variable calculator : SubjectCalculator.

Hypothesis s_constructed : constructed s.
Hypothesis s_calculator : cfgSubjectCalculator (config s) = Some calculator.

Local Abbreviation primary := (Primary (calculator topic)).

Lemma ensureStreams_app t1 t2 :
  ensureStreams (t1 ++ t2) = ensureStreams t1 ++ ensureStreams t2.
Proof. apply omap_app. Qed.

Lemma queueSubscribes_turnEvents :
  queueSubscribes (turnEvents s topic primary) =
  [(primary, QueueGroup (config s))].
Proof. unfold turnEvents. by destruct (_ && _)%bool. Qed.

Lemma ensureStreams_turnEvents :
  ensureStreams (turnEvents s topic primary) =
  if provisions s then [topic] else [].
Proof. unfold turnEvents, provisions. by destruct (_ && _)%bool. Qed.

(** A turn of the loop, for a constructed subscriber. *)
Lemma subscribeIter_constructed ensure qsub c :
  exists evs,
    subscribeIter s topic ensure qsub c =
      Returns (turnError s ensure qsub,
               match turnError s ensure qsub with
               | None => setNatives (natives c ++ [nativeFor s primary])
                           (addOutputWg 1 c)
               | Some _ => addOutputWg 1 c
               end, evs) /\
    (turnError s ensure qsub = None -> evs = turnEvents s topic primary) /\
    Forall (fun q => q = (primary, QueueGroup (config s)))
      (queueSubscribes evs) /\
    (length (queueSubscribes evs) <= 1)%nat /\
    (length (ensureStreams evs) <= 1)%nat /\
    (provisions s = false -> ensureStreams evs = []) /\
    (provisions s = true -> ensure <> None -> queueSubscribes evs = []) /\
    (provisions s = true -> ensureStreams evs = [topic]).
Proof.
  destruct s_constructed as (_ & _ & Hjs).
  unfold subscribeIter, subscribe, queueSubscribe, SubscribeInitialize,
    turnError, turnEvents, provisions.
  rewrite s_calculator. fold primary.
  destruct (Enabled (JetStream (config s))) eqn:He; simpl.
  - rewrite Hjs by done.
    destruct (AutoProvision (JetStream (config s))); simpl.
    + destruct ensure; simpl.
      * eexists. split; [reflexivity|]. simpl.
        repeat split; try done; try lia; by constructor.
      * destruct qsub; eexists; (split; [reflexivity|]); simpl;
          repeat split; try done; try lia; by repeat constructor.
    + destruct qsub; eexists; (split; [reflexivity|]); simpl;
        repeat split; try done; try lia; by repeat constructor.
  - destruct qsub; eexists; (split; [reflexivity|]); simpl;
      repeat split; try done; try lia; by repeat constructor.
Qed.

(** The loop, for a constructed subscriber and whatever the connection
    answers. *)
Lemma subscribeLoop_constructed todo :
  forall i c,
  exists r c' evs subs,
    subscribeLoop env s topic todo i c = Returns (r, c', evs) /\
    natives c' = natives c ++ subs /\
    Forall (fun x => x = nativeFor s primary) subs /\
    (length subs <= length (queueSubscribes evs) <= todo)%nat /\
    Forall (fun q => q = (primary, QueueGroup (config s)))
      (queueSubscribes evs) /\
    (provisions s = false -> ensureStreams evs = []) /\
    outputCloses c' = outputCloses c /\
    match r with
    | None => finisher c' = Some FinisherWaiting /\ length subs = todo /\
              outputWg c' = outputWg c + Z.of_nat todo
    | Some _ => finisher c' = finisher c /\ (length subs < todo)%nat /\
                outputWg c' = outputWg c + Z.of_nat (length subs) + 1
    end.
Proof.
  induction todo as [|todo IH]; intros i c; simpl.
  - exists None, (setFinisher FinisherWaiting c), [], [].
    rewrite app_nil_r. simpl. repeat split; try done; try lia.
  - destruct (subscribeIter_constructed (envEnsureStream env i)
                (envQueueSubscribe env i) c)
      as (evs & -> & Hevs & Hq & Hlen & _ & Hens & _).
    destruct (turnError s _ _) as [err|] eqn:Hr.
    + exists (Some err), (addOutputWg 1 c), evs, [].
      rewrite app_nil_r. simpl. repeat split; try done; lia.
    + destruct (IH (S i) (setNatives (natives c ++ [nativeFor s primary])
                            (addOutputWg 1 c)))
        as (r & c' & evs' & subs & -> & Hn & Hsubs & Hlen' & Hq' & Hens' &
            Hc & Hr').
      exists r, c', (evs ++ evs'), (nativeFor s primary :: subs).
      rewrite (Hevs eq_refl). simpl in Hn.
      rewrite <- app_assoc in Hn. simpl in Hn.
      rewrite queueSubscribes_app, ensureStreams_app, length_app.
      rewrite queueSubscribes_turnEvents, ensureStreams_turnEvents. simpl.
      split; [done|]. split; [done|]. split; [by constructor|].
      split; [lia|].
      split; [by constructor|].
      split; [intros Hp; by rewrite (Hens' Hp), Hp|].
      split; [done|].
      destruct r; simpl in *; repeat split; try tauto; lia.
Qed.

(** The loop while the turns succeed, and where it stops. *)
Lemma subscribeLoop_turns k :
  forall todo i c,
  (k <= todo)%nat ->
  (forall j, (i <= j < i + k)%nat ->
     turnError s (envEnsureStream env j) (envQueueSubscribe env j) = None) ->
  subscribeLoop env s topic todo i c =
  match subscribeLoop env s topic (todo - k) (i + k)
          {| outputWg := outputWg c + Z.of_nat k;
             natives := natives c ++ replicate k (nativeFor s primary);
             finisher := finisher c; outputCloses := outputCloses c |} with
  | Panics => Panics
  | Returns (r, c', evs) =>
    Returns (r, c', concat (replicate k (turnEvents s topic primary)) ++ evs)
  end.
Proof.
  induction k as [|k IH]; intros todo i c Hk Hok.
  - rewrite Nat.sub_0_r, Nat.add_0_r, Z.add_0_r, app_nil_r. simpl.
    destruct c. simpl.
    by destruct (subscribeLoop env s topic todo i _) as [[[r c'] evs]|].
  - destruct todo as [|todo]; [lia|]. cbn [subscribeLoop].
    destruct (subscribeIter_constructed (envEnsureStream env i)
                (envQueueSubscribe env i) c) as (evs & -> & Hevs & _).
    rewrite Hok by lia. rewrite (Hevs (Hok i ltac:(lia))).
    rewrite (IH todo (S i)); [|lia|intros j Hj; apply Hok; lia].
    replace (S todo - S k)%nat with (todo - k)%nat by lia.
    replace (i + S k)%nat with (S i + k)%nat by lia.
    set (c1 := {| outputWg := _ + Z.of_nat k |}).
    set (c2 := {| outputWg := _ + Z.of_nat (S k) |}).
    assert (Hc : c1 = c2).
    { subst c1 c2. cbn [setNatives addOutputWg outputWg natives finisher
                        outputCloses].
      f_equal; [lia|]. by rewrite <- app_assoc. }
    rewrite Hc.
    destruct (subscribeLoop env s topic (todo - k) (S i + k) c2)
      as [[[r c'] evs']|]; [|done].
    cbn [replicate concat]. by rewrite <- app_assoc.
Qed.

End SubscribeFacts.

Lemma constructed_addOutputsWg delta s :
  constructed s -> constructed (addOutputsWg delta s).
Proof. by intros (? & ? & ?). Qed.

(** X10: for a constructed subscriber and whatever the connection
    answers, [Subscribe] returns (it has no nil dereference), having added
    one to the subscriber's wait-group; it makes at most
    [SubscribersCount] calls of [QueueSubscribe], all on the primary
    subject of the topic and in the configured queue group, and no
    [ensureStream] call unless streams are provisioned; it starts the
    goroutine that closes the delivery channel exactly when it returns no
    error, and then has made [SubscribersCount] native subscriptions. *)
Theorem Subscribe_calls env s topic calculator :
  constructed s ->
  cfgSubjectCalculator (config s) = Some calculator ->
  let primary := Primary (calculator topic) in
  exists r c evs,
    Subscribe env s topic = Returns (r, addOutputsWg 1 s, c, evs) /\
    Forall (fun x => x = nativeFor s primary) (natives c) /\
    (length (natives c) <= length (queueSubscribes evs)
     <= Z.to_nat (SubscribersCount (config s)))%nat /\
    Forall (fun q => q = (primary, QueueGroup (config s)))
      (queueSubscribes evs) /\
    (provisions s = false -> ensureStreams evs = []) /\
    outputCloses c = 0%nat /\
    match r with
    | None =>
      finisher c = Some FinisherWaiting /\
      length (natives c) = Z.to_nat (SubscribersCount (config s)) /\
      outputWg c = Z.of_nat (length (natives c))
    | Some _ =>
      finisher c = None /\
      (length (natives c) < Z.to_nat (SubscribersCount (config s)))%nat /\
      outputWg c = Z.of_nat (length (natives c)) + 1
    end.
Proof.
  intros Hs Hcalc primary. unfold Subscribe.
  destruct (subscribeLoop_constructed env (addOutputsWg 1 s) topic calculator
              (constructed_addOutputsWg 1 s Hs) Hcalc
              (Z.to_nat (SubscribersCount (config (addOutputsWg 1 s))))
              0%nat newCall)
    as (r & c & evs & subs & Hloop & Hn & Hsubs & Hlen & Hq & Hens & Hc & Hr).
  exists r, c, evs. rewrite Hloop. simpl in Hn. rewrite Hn.
  split; [done|]. split; [done|]. split; [done|]. split; [done|].
  split; [done|]. split; [done|].
  destruct r; simpl in Hr; destruct Hr as (? & ? & ?); repeat split;
    try done; lia.
Qed.

(** X11: when the connection accepts every call, [Subscribe] returns the
    channel after exactly [SubscribersCount] turns, each one the log line,
    then [ensureStream] if streams are provisioned, then [QueueSubscribe];
    the native subscriptions are all alike and subscribed, the inner
    wait-group counts them, and the goroutine that closes the channel is
    waiting. *)
Theorem Subscribe_succeeds env s topic calculator :
  constructed s ->
  cfgSubjectCalculator (config s) = Some calculator ->
  (forall j, (j < Z.to_nat (SubscribersCount (config s)))%nat ->
     turnError s (envEnsureStream env j) (envQueueSubscribe env j) = None) ->
  let n := Z.to_nat (SubscribersCount (config s)) in
  let primary := Primary (calculator topic) in
  Subscribe env s topic =
  Returns (None, addOutputsWg 1 s,
           {| outputWg := Z.of_nat n;
              natives := replicate n (nativeFor s primary);
              finisher := Some FinisherWaiting; outputCloses := 0 |},
           concat (replicate n (turnEvents s topic primary))).
Proof.
  intros Hs Hcalc Hok n primary. unfold Subscribe.
  change (config (addOutputsWg 1 s)) with (config s). fold n.
  rewrite (subscribeLoop_turns env (addOutputsWg 1 s) topic calculator
             (constructed_addOutputsWg 1 s Hs) Hcalc n n 0%nat newCall);
    [|done|intros j Hj; apply Hok; lia].
  rewrite Nat.sub_diag. simpl. by rewrite app_nil_r.
Qed.

(** X12: when streams are provisioned and [ensureStream] fails in turn
    [i], after [i] turns that succeeded, [Subscribe] returns that error
    wrapped twice and does not call [QueueSubscribe] in that turn; the [i]
    native subscriptions made before stay, and no goroutine is started to
    close the channel. *)
Theorem Subscribe_provision_fails env s topic calculator i err :
  constructed s ->
  cfgSubjectCalculator (config s) = Some calculator ->
  provisions s = true ->
  (i < Z.to_nat (SubscribersCount (config s)))%nat ->
  (forall j, (j < i)%nat ->
     envEnsureStream env j = None /\ envQueueSubscribe env j = None) ->
  envEnsureStream env i = Some err ->
  let primary := Primary (calculator topic) in
  exists evs,
    Subscribe env s topic =
    Returns (Some (Wrap (Wrap err "cannot initialize subscribe")
                     "cannot subscribe"),
             addOutputsWg 1 s,
             {| outputWg := Z.of_nat i + 1;
                natives := replicate i (nativeFor s primary);
                finisher := None; outputCloses := 0 |}, evs) /\
    length (queueSubscribes evs) = i /\
    ensureStreams evs = replicate (S i) topic.
Proof.
  intros Hs Hcalc Hp Hi Hok Herr primary. unfold Subscribe.
  set (s1 := addOutputsWg 1 s).
  assert (Hs1 : constructed s1) by by apply constructed_addOutputsWg.
  assert (Hp1 : provisions s1 = true) by exact Hp.
  assert (Hcalc1 : cfgSubjectCalculator (config s1) = Some calculator)
    by exact Hcalc.
  assert (Hi1 : (i < Z.to_nat (SubscribersCount (config s1)))%nat) by exact Hi.
  rewrite (subscribeLoop_turns env s1 topic calculator Hs1 Hcalc1 i _ 0%nat
             newCall); [|lia|].
  2:{ intros j Hj. destruct (Hok j) as [He Hq]; [lia|].
      unfold turnError. by rewrite He, Hq, Hp1. }
  destruct (Z.to_nat (SubscribersCount (config s1)) - i)%nat as [|todo] eqn:Hn;
    [lia|].
  cbn [subscribeLoop].
  destruct (subscribeIter_constructed s1 topic calculator
              Hs1 Hcalc1 (envEnsureStream env (0 + i))
              (envQueueSubscribe env (0 + i))
              {| outputWg := outputWg newCall + Z.of_nat i;
                 natives := natives newCall ++
                            replicate i (nativeFor s1 (Primary (calculator topic)));
                 finisher := finisher newCall;
                 outputCloses := outputCloses newCall |})
    as (evs & Hiter & _ & _ & _ & Hlen & _ & Hnoq & Hone).
  rewrite Hiter. unfold turnError. rewrite Hp1. simpl in Herr |- *.
  rewrite Herr. eexists. split; [reflexivity|].
  rewrite queueSubscribes_app, ensureStreams_app, length_app.
  rewrite Hnoq; [|done|by simpl; rewrite Herr].
  unfold primary.
  assert (Hqs : forall k, length (queueSubscribes
                  (concat (replicate k
                     (turnEvents s1 topic (Primary (calculator topic)))))) = k).
  { induction k as [|k IH]; [done|]. cbn [replicate concat].
    rewrite queueSubscribes_app, length_app, IH.
    by rewrite (queueSubscribes_turnEvents s1 topic calculator). }
  assert (Hes : forall k, ensureStreams
                  (concat (replicate k
                     (turnEvents s1 topic (Primary (calculator topic))))) =
                replicate k topic).
  { induction k as [|k IH]; [done|]. cbn [replicate concat].
    rewrite ensureStreams_app, IH.
    by rewrite (ensureStreams_turnEvents s1 topic calculator), Hp1. }
  rewrite Hqs, Hes. split; [simpl; lia|].
  rewrite (Hone Hp1). by rewrite replicate_cons_app.
Qed.

Lemma Subscribe_calls_witness :
  exists r c evs,
    Subscribe (refusing 2) (sampleSubscriber 4) "orders" =
      Returns (r, addOutputsWg 1 (sampleSubscriber 4), c, evs) /\
    (length (queueSubscribes evs) <= 4)%nat /\
    Forall (fun q => q = ("orders.*", "workers")) (queueSubscribes evs) /\
    ensureStreams evs = [] /\ outputCloses c = 0%nat.
Proof.
  destruct (Subscribe_calls (refusing 2) (sampleSubscriber 4) "orders"
              sampleCalculator) as (r & c & evs & Hsub & _ & Hn & Hq & He & Hc & _).
  - repeat split; discriminate.
  - reflexivity.
  - exists r, c, evs. split; [exact Hsub|]. split; [exact (proj2 Hn)|].
    split; [exact Hq|]. split; [by apply He|exact Hc].
Defined.

Lemma Subscribe_succeeds_witness :
  Subscribe (refusing 2) (streamSubscriber 2) "orders" =
  Returns (None, addOutputsWg 1 (streamSubscriber 2),
           {| outputWg := 2;
              natives := replicate 2 (nativeFor (streamSubscriber 2) "orders.*");
              finisher := Some FinisherWaiting; outputCloses := 0 |},
           [EvLog LDebug "Starting subscriber"; EvEnsureStream "orders";
            EvQueueSubscribe "orders.*" "workers";
            EvLog LDebug "Starting subscriber"; EvEnsureStream "orders";
            EvQueueSubscribe "orders.*" "workers"]).
Proof.
  apply (Subscribe_succeeds (refusing 2) (streamSubscriber 2) "orders"
           sampleCalculator).
  - repeat split; discriminate.
  - reflexivity.
  - intros j Hj. simpl in Hj. unfold turnError. simpl.
    destruct (Nat.eqb_spec j 2); [lia|reflexivity].
Defined.

Lemma Subscribe_provision_fails_witness :
  exists evs,
    Subscribe (noStream 1) (streamSubscriber 3) "orders" =
    Returns (Some (Wrap (Wrap (New "nats: stream not found")
                           "cannot initialize subscribe") "cannot subscribe"),
             addOutputsWg 1 (streamSubscriber 3),
             {| outputWg := 2;
                natives := [nativeFor (streamSubscriber 3) "orders.*"];
                finisher := None; outputCloses := 0 |}, evs) /\
    length (queueSubscribes evs) = 1%nat /\
    ensureStreams evs = ["orders"; "orders"].
Proof.
  apply (Subscribe_provision_fails (noStream 1) (streamSubscriber 3) "orders"
           sampleCalculator 1 (New "nats: stream not found")).
  - repeat split; discriminate.
  - reflexivity.
  - reflexivity.
  - simpl. lia.
  - intros j Hj. simpl. destruct (Nat.eqb_spec j 1); [lia|done].
  - reflexivity.
Defined.

(** ** More on Close *)

(** X13: [Close] always leaves the subscriber marked closed with its lock
    released, and touches neither the configuration, the connection nor
    the wait-group; it returns an error only when it is the one that
    closes an open subscriber, and it closes the closing channel once
    then, and not at all on a closed subscriber. *)
Theorem Close_leaves_closed_unlocked env s :
  let s' := (Close env s).1.2 in
  subsLock s' = false /\ closed s' = true /\ isClosed s' = Some true /\
  config s' = config s /\ conn s' = conn s /\ outputsWg s' = outputsWg s /\
  topicInterpreter s' = topicInterpreter s /\
  (closed s = false -> closing s' = true) /\
  (closed s = true -> closing s' = closing s) /\
  ((Close env s).1.1 <> None -> closed s = false) /\
  (closings (Close env s).2 = if closed s then [] else [tt]).
Proof.
  destruct (closed s) eqn:Hc.
  - rewrite (Close_closed env s Hc). simpl. unfold isClosed. simpl.
    rewrite Hc. repeat split; done.
  - rewrite (Close_open env s Hc). simpl. unfold closeWait.
    repeat split; try done. by destruct (envTimedOut env).
Qed.

(** ** More on the interleaved goroutines *)

Section MoreRuns.

Variable StopTime : Z.
Variable topic : string.

(** X14: the closed flag, the closing channel, the cancelled context and
    the closed delivery channel are final: no step undoes them; and a step
    takes nothing back from the consumer, it hands over at most one
    message more. *)
Theorem flags_are_final w w' :
  step StopTime topic w w' ->
  (closed (sub w) = true -> closed (sub w') = true) /\
  (closing (sub w) = true -> closing (sub w') = true) /\
  (ctxDone w = true -> ctxDone w' = true) /\
  (outputCloses (call w) <= outputCloses (call w'))%nat /\
  (delivered w' = delivered w \/
   exists msg, delivered w' = delivered w ++ [msg]) /\
  config (sub w') = config (sub w).
Proof.
  intros [l Hfire]. unfold fire in Hfire.
  destruct (crashed w); [done|].
  destruct l.
  - (* SubscribeEnter *)
    repeat case_match; simplify_eq. repeat split; auto; try lia.
  - (* SubscribeTurn *)
    destruct (subscribeAt w); try done. destruct (_ <? _)%nat; [|done].
    destruct (subscribeIter _ _ _ _ _) as [[[r c'] evs]|] eqn:Hiter.
    + apply subscribeIter_Returns in Hiter as (_ & Hc' & _).
      destruct r; simplify_eq; simpl; rewrite Hc'; repeat split; auto; try lia.
    + simplify_eq. repeat split; auto; try lia.
  - (* SubscribeGo *)
    repeat case_match; simplify_eq. repeat split; auto; try lia.
  - (* SubscribeReturn *)
    repeat case_match; simplify_eq. repeat split; auto; try lia.
  - (* CtxCancel *)
    simplify_eq. repeat split; auto; try lia.
  - (* CloseEnter *)
    repeat case_match; simplify_eq. repeat split; auto; try lia.
  - (* CloseSignal *)
    repeat case_match; simplify_eq. repeat split; auto; try lia.
  - (* CloseWaitOver *)
    repeat case_match; simplify_eq; repeat split; auto; try lia.
  - (* CloseDrain *)
    repeat case_match; simplify_eq; repeat split; auto; try lia.
  - (* WatcherUnsubscribe *)
    destruct (_ || _)%bool; [|done].
    apply onNative_Some in Hfire as (? & ? & _ & _ & ->).
    repeat split; auto; try lia.
  - (* WatcherExit *)
    destruct (onNative _ _ _) eqn:Hon; simplify_eq.
    apply onNative_Some in Hon as (? & ? & _ & _ & ->).
    repeat split; auto; try lia.
  - (* FinisherWake *)
    repeat case_match; simplify_eq. repeat split; auto; try lia.
  - (* FinisherClose *)
    repeat case_match; simplify_eq; simpl; repeat split; auto; try lia.
  - (* FinisherExit *)
    repeat case_match; simplify_eq. repeat split; auto; try lia.
  - (* BrokerDeliver *)
    apply onNative_Some in Hfire as (? & ? & _ & _ & ->).
    repeat split; auto; try lia.
  - (* Handler *)
    repeat case_match; simplify_eq.
    destruct a; simpl; repeat split; auto; try lia. right. by eexists.
Qed.

End MoreRuns.

Lemma flags_are_final_witness :
  match run (-1) "orders" closeMarksFirst (start (sampleSubscriber 1)) with
  | Some w =>
    forall w', fire (-1) "orders" CloseSignal w = Some w' ->
      closed (sub w') = true /\ config (sub w') = config (sub w)
  | None => False
  end.
Proof.
  destruct (run (-1) "orders" closeMarksFirst (start (sampleSubscriber 1)))
    as [w|] eqn:Hrun; [|by vm_compute in Hrun].
  intros w' Hfire.
  destruct (flags_are_final (-1) "orders" w w') as (Hc & _ & _ & _ & _ & Hcfg).
  - by exists CloseSignal.
  - split; [|exact Hcfg]. apply Hc.
    vm_compute in Hrun. by injection Hrun as <-.
Defined.

Section Counters.

Variable StopTime : Z.
Variable topic : string.
Variable s : Subscriber.

Lemma closeInvariant_same w w' :
  closeAt w' = closeAt w -> subsLock (sub w') = subsLock (sub w) ->
  closed (sub w') = closed (sub w) -> closing (sub w') = closing (sub w) ->
  closeInvariant w -> closeInvariant w'.
Proof. unfold closeInvariant. by intros -> -> -> ->. Qed.

(** Every step keeps [Close] and the subscriber in step. *)
Lemma fire_closeInvariant l w w' :
  fire StopTime topic l w = Some w' -> closeInvariant w -> closeInvariant w'.
Proof.
  unfold fire. destruct (crashed w); [done|].
  intros Hfire Hinv. destruct l.
  - (* SubscribeEnter *)
    repeat case_match; simplify_eq; by eapply closeInvariant_same.
  - (* SubscribeTurn *)
    destruct (subscribeAt w); try done. destruct (_ <? _)%nat; [|done].
    destruct (subscribeIter _ _ _ _ _) as [[[[] c'] evs]|];
      simplify_eq; by eapply closeInvariant_same.
  - (* SubscribeGo *)
    repeat case_match; simplify_eq; by eapply closeInvariant_same.
  - (* SubscribeReturn *)
    repeat case_match; simplify_eq; by eapply closeInvariant_same.
  - (* CtxCancel *)
    simplify_eq. by eapply closeInvariant_same.
  - (* CloseEnter *)
    unfold closeInvariant in *. destruct (closeAt w); try done.
    destruct (subsLock (sub w)); [done|].
    destruct (closed (sub w)); [done|]. simplify_eq. simpl. tauto.
  - (* CloseSignal *)
    unfold closeInvariant in *.
    destruct (closeAt w); try done. simplify_eq. simpl. tauto.
  - (* CloseWaitOver *)
    unfold closeInvariant in *. destruct (closeAt w); try done.
    destruct timedOut; [|destruct (_ =? _); [|done]];
      simplify_eq; simpl; tauto.
  - (* CloseDrain *)
    unfold closeInvariant in *.
    destruct (closeAt w); try done. simplify_eq. simpl. tauto.
  - (* WatcherUnsubscribe *)
    destruct (_ || _)%bool; [|done].
    apply onNative_Some in Hfire as (? & ? & _ & _ & ->).
    by eapply closeInvariant_same.
  - (* WatcherExit *)
    destruct (onNative _ _ _) eqn:Hon; simplify_eq.
    apply onNative_Some in Hon as (? & ? & _ & _ & ->).
    by eapply closeInvariant_same.
  - (* FinisherWake *)
    repeat case_match; simplify_eq; by eapply closeInvariant_same.
  - (* FinisherClose *)
    repeat case_match; simplify_eq; by eapply closeInvariant_same.
  - (* FinisherExit *)
    repeat case_match; simplify_eq; by eapply closeInvariant_same.
  - (* BrokerDeliver *)
    apply onNative_Some in Hfire as (? & ? & _ & _ & ->).
    by eapply closeInvariant_same.
  - (* Handler *)
    destruct (natives (call w) !! num); [|done].
    destruct (handler _); [|done].
    destruct (procStep _ _ _ _ _) as [[a p']|]; [|done]. simplify_eq.
    destruct a; by eapply closeInvariant_same.
Qed.

Lemma wgInvariant_same w w' :
  outputsWg (sub w') = outputsWg (sub w) ->
  subscribeAt w' = subscribeAt w -> call w' = call w ->
  wgInvariant s w -> wgInvariant s w'.
Proof. unfold wgInvariant. by intros -> -> ->. Qed.

(** Every step keeps the two wait-group counters as [wgInvariant] says. *)
Lemma fire_wgInvariant l w w' :
  fire StopTime topic l w = Some w' ->
  callInvariant w -> wgInvariant s w -> wgInvariant s w'.
Proof.
  unfold fire. destruct (crashed w); [done|].
  intros Hfire (Hf & Hl & _) Hinv. pose proof Hinv as [Hs Hc].
  destruct l.
  - (* SubscribeEnter *)
    destruct (subscribeAt w) eqn:Hpc; simplify_eq.
    unfold wgInvariant. simpl in *.
    rewrite Hl in *. simpl in *. split; [lia|done].
  - (* SubscribeTurn *)
    destruct (subscribeAt w) as [|i| | |] eqn:Hpc; try done.
    destruct (_ <? _)%nat; [|done].
    destruct Hl as (_ & _ & Hfin & _).
    destruct (subscribeIter _ _ _ _ _) as [[[r c'] evs]|] eqn:Hiter.
    + apply subscribeIter_Returns in Hiter as (Hf' & _ & Hwg' & Hn').
      destruct r as [err|]; simplify_eq; unfold wgInvariant; simpl.
      * rewrite Hf', Hfin, Hn', Hwg'. rewrite Hfin in Hs. split; lia.
      * destruct Hn' as (x & (_ & Hwx & _) & ->).
        rewrite Hf', Hfin, Hwg', pending_app, pending_cons.
        unfold notExited. rewrite Hwx. unfold pending at 2. simpl.
        rewrite Hfin in Hs. split; lia.
    + simplify_eq. unfold wgInvariant. simpl. rewrite Hfin in *. split; lia.
  - (* SubscribeGo *)
    destruct (subscribeAt w) as [|i| | |] eqn:Hpc; try done.
    destruct (_ <? _)%nat; [done|]. simplify_eq. unfold wgInvariant. simpl.
    destruct Hl as (_ & _ & Hfin & _). rewrite Hfin in Hs. split; lia.
  - (* SubscribeReturn *)
    destruct (subscribeAt w) eqn:Hpc; simplify_eq.
    unfold wgInvariant. simpl. split; lia.
  - (* CtxCancel *)
    simplify_eq. by eapply wgInvariant_same.
  - (* CloseEnter *)
    repeat case_match; simplify_eq; by eapply wgInvariant_same.
  - (* CloseSignal *)
    repeat case_match; simplify_eq; by eapply wgInvariant_same.
  - (* CloseWaitOver *)
    repeat case_match; simplify_eq; by eapply wgInvariant_same.
  - (* CloseDrain *)
    repeat case_match; simplify_eq; by eapply wgInvariant_same.
  - (* WatcherUnsubscribe *)
    destruct (_ || _)%bool; [|done].
    apply onNative_Some in Hfire as (x & x' & Hx & Hx' & ->).
    destruct (watcher x) eqn:Hwx; simplify_eq.
    unfold wgInvariant. simpl. split; [done|].
    pose proof (pending_insert _ _ _ (unsubscribed err x) Hx) as H.
    unfold notExited in H. rewrite Hwx in H. simpl in H. lia.
  - (* WatcherExit *)
    destruct (onNative _ _ _) as [w1|] eqn:Hon; [|done]. simplify_eq.
    apply onNative_Some in Hon as (x & x' & Hx & Hx' & ->).
    destruct (watcher x) eqn:Hwx; simplify_eq.
    unfold wgInvariant. simpl. split; [done|].
    pose proof (pending_insert _ _ _ (exited x) Hx) as H.
    unfold notExited in H. rewrite Hwx in H. simpl in H. lia.
  - (* FinisherWake *)
    destruct (finisher (call w)) as [[]|] eqn:Hfin; try done.
    destruct (_ =? _); [|done]. simplify_eq.
    unfold wgInvariant. simpl. by rewrite ?Hfin in Hs.
  - (* FinisherClose *)
    destruct (finisher (call w)) as [[]|] eqn:Hfin; try done.
    destruct (outputCloses (call w)); simplify_eq;
      unfold wgInvariant; simpl; by rewrite ?Hfin in Hs.
  - (* FinisherExit *)
    destruct (finisher (call w)) as [[]|] eqn:Hfin; try done.
    simplify_eq. unfold wgInvariant. simpl. split; [|done].
    destruct (loopInv_finisher _ _ _ Hl) as ([Hpc|Hpc] & _);
      [by rewrite Hfin| |]; rewrite ?Hpc, ?Hfin in Hs; rewrite Hpc; lia.
  - (* BrokerDeliver *)
    apply onNative_Some in Hfire as (x & x' & Hx & Hx' & ->).
    destruct (subscribed x); [|done]. destruct (handler x); [done|].
    simplify_eq. unfold wgInvariant. simpl. split; [done|].
    pose proof (pending_insert _ _ _
                  (setHandler (Some (processMessage StopTime
                                      (config (sub w)) m)) x) Hx) as H.
    change (notExited (setHandler _ x)) with (notExited x) in H. lia.
  - (* Handler *)
    destruct (natives (call w) !! num) as [x|] eqn:Hx; [|done].
    destruct (handler x) as [p|]; [|done].
    destruct (procStep _ _ _ _ _) as [[a p']|]; [|done]. simplify_eq.
    pose proof (pending_insert _ _ _ (setHandler p' x) Hx) as H.
    change (notExited (setHandler p' x)) with (notExited x) in H.
    unfold wgInvariant. destruct a; simpl; (split; [done|lia]).
Qed.

Lemma reachable_wgInvariant w :
  reachable StopTime topic s w -> wgInvariant s w.
Proof.
  induction 1 as [|w w' Hw IH [l Hfire]].
  - split; simpl; [lia|done].
  - eapply fire_wgInvariant; [done| |done].
    by apply (reachable_invariant StopTime topic s).
Qed.

Lemma reachable_closeInvariant w :
  pristine s -> reachable StopTime topic s w -> closeInvariant w.
Proof.
  intros (Hl & Hc & Hcl & _). induction 1 as [|w w' Hw IH [l Hfire]].
  - by repeat split.
  - by eapply fire_closeInvariant.
Qed.

(** X15: [Close] sets the flag before it closes the closing channel, and
    holds the lock from the setting of the flag until it returns: in every
    state the closing channel is closed only if the flag is set, the lock
    is held only if the flag is set, and while the lock is held a callback
    cannot make the step of its test of the flag. *)
Theorem Close_marks_then_signals w :
  pristine s ->
  reachable StopTime topic s w ->
  closeInvariant w /\
  (closing (sub w) = true -> closed (sub w) = true) /\
  (subsLock (sub w) = true ->
   closed (sub w) = true /\
   forall env k outputClosed,
     procStep env (sub w) (ctxDone w) outputClosed (IsClosed k) = None) /\
  (closed (sub w) = true <-> closeAt w <> CloseIdle).
Proof.
  intros Hs Hw. pose proof (reachable_closeInvariant w Hs Hw) as Hinv.
  split; [done|]. unfold closeInvariant in Hinv.
  destruct (closeAt w); destruct Hinv as (Hl & Hc & Hcl);
    rewrite Hl, Hc, Hcl; repeat split; try done;
    intros; simpl; unfold isClosed; by rewrite Hl.
Qed.

(** X16: neither wait-group counter goes below zero, so no [Done] panics:
    the inner one counts the watchers still there, and one more after a
    turn of the loop failed, and the subscriber's is up by one from the
    entry of [Subscribe] until the last goroutine has closed the channel
    and run its [Done]. *)
Theorem wait_groups_never_negative w :
  reachable StopTime topic s w ->
  0 <= outputWg (call w) /\
  outputsWg s <= outputsWg (sub w) <= outputsWg s + 1 /\
  (outputsWg (sub w) = outputsWg s <->
   subscribeAt w = SubscribeEntry \/
   finisher (call w) = Some FinisherExited) /\
  (subscribeAt w = SubscribeReturned None ->
   outputWg (call w) = Z.of_nat (pending (natives (call w)))) /\
  (subscribeAt w = SubscribeSpawned ->
   outputWg (call w) = Z.of_nat (pending (natives (call w)))) /\
  (forall err, subscribeAt w = SubscribeReturned (Some err) ->
     outputWg (call w) = Z.of_nat (pending (natives (call w))) + 1).
Proof.
  intros Hw. destruct (reachable_wgInvariant w Hw) as [Hs Hc].
  destruct (reachable_invariant StopTime topic s w Hw) as [(_ & Hl & _) _].
  assert (Hentry : subscribeAt w = SubscribeEntry ->
                   finisher (call w) = None).
  { intros Hpc. rewrite Hpc in Hl. simpl in Hl. by rewrite Hl. }
  split; [|split; [|split; [|split; [|split]]]].
  - rewrite Hc. destruct (subscribeAt w) as [| | |[]|]; lia.
  - destruct (subscribeAt w) as [| | |[]|] eqn:Hpc;
      destruct (finisher (call w)) as [[]|] eqn:Hfin; try lia;
      by specialize (Hentry eq_refl).
  - destruct (subscribeAt w) as [| | |[]|] eqn:Hpc;
      destruct (finisher (call w)) as [[]|] eqn:Hfin;
      try specialize (Hentry eq_refl); simplify_eq;
      (split; [intros; try lia; auto|intros [|]; simplify_eq; lia]).
  - intros Hpc. rewrite Hc, Hpc. lia.
  - intros Hpc. rewrite Hc, Hpc. lia.
  - intros err Hpc. by rewrite Hc, Hpc.
Qed.


(** Once [Subscribe] has returned, no step brings it back. *)
Lemma returned_is_final w w' r :
  step StopTime topic w w' ->
  subscribeAt w = SubscribeReturned r -> subscribeAt w' = SubscribeReturned r.
Proof.
  intros [l Hfire] Hpc. unfold fire in Hfire.
  destruct (crashed w); [done|].
  destruct l; rewrite ?Hpc in Hfire; simpl in Hfire; try done;
    try (destruct (onNative _ _ _) eqn:Hon; simplify_eq;
         apply onNative_Some in Hon as (? & ? & _ & _ & ->); done);
    repeat case_match; simplify_eq; try done;
    try (apply onNative_Some in Hfire as (? & ? & _ & _ & ->); done);
    try (by destruct a).
Qed.

(** X18: after a [Subscribe] that failed, the subscriber's wait-group
    stays up by one for good - no goroutine is there to run the [Done] -
    and the delivery channel of that call is never closed; so the wait of
    a [Close] that has not found the wait-group drained by then can only
    end by the timeout, with the error of unfinished work and without
    [Drain]. *)
Theorem failed_Subscribe_blocks_Close w err :
  pristine s ->
  reachable StopTime topic s w ->
  subscribeAt w = SubscribeReturned (Some err) ->
  outputsWg (sub w) = 1 /\
  finisher (call w) = None /\ outputCloses (call w) = 0%nat /\
  (forall timedOut w',
     fire StopTime topic (CloseWaitOver timedOut) w = Some w' ->
     timedOut = true /\
     closeAt w' = CloseReturned (Some errWaitGroup)) /\
  (forall w', step StopTime topic w w' ->
     subscribeAt w' = SubscribeReturned (Some err)).
Proof.
  intros (_ & _ & _ & Hwg0) Hw Hpc.
  destruct (reachable_wgInvariant w Hw) as [Hs _].
  destruct (reachable_invariant StopTime topic s w Hw) as [(Hf & Hl & _) _].
  rewrite Hpc in Hl, Hs. simpl in Hl. unfold finisherInv in Hf.
  rewrite Hl in Hs, Hf.
  split; [lia|]. split; [done|]. split; [done|]. split.
  - intros timedOut w' Hfire. unfold fire in Hfire.
    destruct (crashed w); [done|]. destruct (closeAt w); try done.
    destruct timedOut.
    + by simplify_eq.
    + destruct (Z.eqb_spec (outputsWg (sub w)) 0); [lia|done].
  - intros w' Hstep. by apply (returned_is_final w w' (Some err)).
Qed.

End Counters.

Lemma Close_marks_then_signals_witness :
  match run (-1) "orders" closeMarksFirst (start (sampleSubscriber 1)) with
  | Some w =>
    closeAt w = CloseMarked /\ closed (sub w) = true /\
    forall env k outputClosed,
      procStep env (sub w) (ctxDone w) outputClosed (IsClosed k) = None
  | None => False
  end.
Proof.
  destruct (run (-1) "orders" closeMarksFirst (start (sampleSubscriber 1)))
    as [w|] eqn:Hrun; [|by vm_compute in Hrun].
  destruct (Close_marks_then_signals (-1) "orders" (sampleSubscriber 1) w)
    as (_ & _ & Hlock & _).
  - by repeat split.
  - eapply run_reachable; [apply reachable_start|exact Hrun].
  - assert (Hl : subsLock (sub w) = true).
    { vm_compute in Hrun. by injection Hrun as <-. }
    split; [|exact (Hlock Hl)].
    vm_compute in Hrun. by injection Hrun as <-.
Defined.

Lemma wait_groups_never_negative_witness :
  match run (-1) "orders" cancelledCall (start (sampleSubscriber 2)) with
  | Some w =>
    0 <= outputWg (call w) /\ 0 <= outputsWg (sub w) <= 1 /\
    outputWg (call w) = Z.of_nat (pending (natives (call w)))
  | None => False
  end.
Proof.
  destruct (run (-1) "orders" cancelledCall (start (sampleSubscriber 2)))
    as [w|] eqn:Hrun; [|by vm_compute in Hrun].
  destruct (wait_groups_never_negative (-1) "orders" (sampleSubscriber 2) w)
    as (H0 & Hwg & _ & Hret & _).
  - eapply run_reachable; [apply reachable_start|exact Hrun].
  - split; [exact H0|]. split; [exact Hwg|]. apply Hret.
    vm_compute in Hrun. by injection Hrun as <-.
Defined.


(** The wait of [Close] can be over before [Subscribe] is entered: [Close]
    then drains the connection and returns with the call under way. *)
Lemma Close_returns_with_call_under_way :
  exists w,
    run (-1) "orders" lateCall (start (sampleSubscriber 2)) = Some w /\
    closeAt w = CloseReturned None /\
    subscribeAt w = SubscribeTest 1 /\ outputsWg (sub w) = 1 /\
    outputCloses (call w) = 0%nat.
Proof. eexists. split; [by vm_compute|]. by repeat split. Qed.

Lemma failed_Subscribe_blocks_Close_witness :
  match run (-1) "orders" failedCall (start (sampleSubscriber 1)) with
  | Some w =>
    outputsWg (sub w) = 1 /\ finisher (call w) = None /\
    forall timedOut w',
      fire (-1) "orders" (CloseWaitOver timedOut) w = Some w' ->
      timedOut = true /\
      closeAt w' = CloseReturned (Some errWaitGroup)
  | None => False
  end.
Proof.
  destruct (run (-1) "orders" failedCall (start (sampleSubscriber 1)))
    as [w|] eqn:Hrun; [|by vm_compute in Hrun].
  destruct (failed_Subscribe_blocks_Close (-1) "orders" (sampleSubscriber 1) w
              (Wrap (New "nats: timeout") "cannot subscribe"))
    as (Hwg & Hfin & _ & Hclose & _).
  - by repeat split.
  - eapply run_reachable; [apply reachable_start|exact Hrun].
  - vm_compute in Hrun. by injection Hrun as <-.
  - by split; [|split].
Defined.

(** ** Panics *)

(** The panics of the coordinator are the nil dereferences of a missing
    unmarshaler and of a nil message returned without an error. *)
Lemma panicsOnlyIf_processMessage (P : Prop) StopTime cfg m :
  (cfgUnmarshaler cfg = None -> P) ->
  (forall u, cfgUnmarshaler cfg = Some u -> Unmarshal u m = Ok None -> P) ->
  panicsOnlyIf P (processMessage StopTime cfg m).
Proof.
  intros Hnil Hmsg. unfold processMessage.
  destruct (cfgUnmarshaler cfg) as [u|]; [|simpl; auto].
  unfold ackPhase, onAcked, onNacked, withNakDelay, Log, deferred.
  destruct (Unmarshal u m) as [[msg|]|err] eqn:Hm; simpl;
    [|by split; [|apply (Hmsg u)]|done].
  intros [|]; simpl; [done|].
  repeat split; repeat (simpl; case_match); simpl; try done;
    intros; repeat (simpl; case_match); simpl; try done;
    intros; repeat (simpl; case_match); simpl; done.
Qed.

(** A step of such a body leaves such a body, and panics only by a send
    on the closed channel or by one of its nil dereferences. *)
Lemma procStep_panicsOnlyIf (P : Prop) env s ctx outputClosed p a p' :
  panicsOnlyIf P p ->
  procStep env s ctx outputClosed p = Some (a, p') ->
  match p' with Some q => panicsOnlyIf P q | None => True end /\
  forall text, a = Crash text ->
    text = "send on closed channel" \/
    (text = "nil pointer dereference" /\ P).
Proof.
  destruct p; simpl; intros Hp Hstep; repeat case_match; simplify_eq;
    try done; try (split; [by apply Hp|done]);
    try (split; [tauto|done]).
  - split; [done|]. intros ? [= <-]. by right.
  - split; [done|]. intros ? [= <-]. by left.
Qed.

Section Panics.

Variable StopTime : Z.
Variable topic : string.
Variable s : Subscriber.

Lemma handlersSafe_insert (P : Prop) l num x x' :
  l !! num = Some x ->
  match handler x' with Some p => panicsOnlyIf P p | None => True end ->
  handlersSafe P l -> handlersSafe P (<[num := x']> l).
Proof. intros Hx Hx' Hl. by apply Forall_insert. Qed.

Lemma handlersSafe_lookup (P : Prop) l num x :
  handlersSafe P l -> l !! num = Some x ->
  match handler x with Some p => panicsOnlyIf P p | None => True end.
Proof. intros Hl Hx. by apply (Forall_lookup_1 _ _ _ _ Hl Hx). Qed.

(** Every step keeps the subscriber constructed and the panics of the
    callbacks as said, and panics only by a send on the closed channel or
    on a nil message. *)
Lemma fire_safe l w w' :
  fire StopTime topic l w = Some w' ->
  callInvariant w ->
  constructed (sub w) ->
  handlersSafe (nilMessage (config (sub w))) (natives (call w)) ->
  constructed (sub w') /\
  handlersSafe (nilMessage (config (sub w))) (natives (call w')) /\
  forall text, crashed w' = Some text ->
    text = "send on closed channel" \/
    (text = "nil pointer dereference" /\ nilMessage (config (sub w))).
Proof.
  unfold fire. destruct (crashed w) eqn:Hcr; [done|].
  intros Hfire (Hf & Hl & _) Hs Hh. destruct l.
  - (* SubscribeEnter *)
    repeat case_match; simplify_eq. simpl. by rewrite Hcr.
  - (* SubscribeTurn *)
    destruct (subscribeAt w); try done. destruct (_ <? _)%nat; [|done].
    destruct Hs as (Hcalc & Hu & Hjs).
    destruct (cfgSubjectCalculator (config (sub w))) as [calc|] eqn:Hc;
      [|done].
    destruct (subscribeIter_constructed (sub w) topic calc
                ltac:(unfold constructed; by rewrite Hc) Hc ensure qsub
                (call w)) as (evs & Hiter & _).
    rewrite Hiter in Hfire.
    destruct (turnError _ _ _); simplify_eq; simpl; rewrite Hcr.
    + repeat split; try done. by rewrite Hc.
    + repeat split; try done; [by rewrite Hc|].
      apply Forall_app. split; [done|]. by constructor.
  - (* SubscribeGo *)
    repeat case_match; simplify_eq. simpl. by rewrite Hcr.
  - (* SubscribeReturn *)
    repeat case_match; simplify_eq. simpl. by rewrite Hcr.
  - (* CtxCancel *)
    simplify_eq. simpl. by rewrite Hcr.
  - (* CloseEnter *)
    repeat case_match; simplify_eq. simpl. by rewrite Hcr.
  - (* CloseSignal *)
    repeat case_match; simplify_eq. simpl. by rewrite Hcr.
  - (* CloseWaitOver *)
    repeat case_match; simplify_eq; simpl; by rewrite Hcr.
  - (* CloseDrain *)
    repeat case_match; simplify_eq; simpl; by rewrite Hcr.
  - (* WatcherUnsubscribe *)
    destruct (_ || _)%bool; [|done].
    apply onNative_Some in Hfire as (x & x' & Hx & Hx' & ->).
    destruct (watcher x); simplify_eq. simpl. rewrite Hcr.
    repeat split; try done; try apply Hs.
    apply handlersSafe_insert with x; [done| |done].
    by apply (handlersSafe_lookup _ _ _ _ Hh Hx).
  - (* WatcherExit *)
    destruct (onNative _ _ _) as [w1|] eqn:Hon; [|done]. simplify_eq.
    apply onNative_Some in Hon as (x & x' & Hx & Hx' & ->).
    destruct (watcher x); simplify_eq. simpl. rewrite Hcr.
    repeat split; try done; try apply Hs.
    apply handlersSafe_insert with x; [done| |done].
    by apply (handlersSafe_lookup _ _ _ _ Hh Hx).
  - (* FinisherWake *)
    repeat case_match; simplify_eq. simpl. by rewrite Hcr.
  - (* FinisherClose *)
    destruct (finisher (call w)) as [[]|] eqn:Hfin; try done.
    unfold finisherInv in Hf. rewrite ?Hfin in Hf. destruct Hf as [Hc0 _].
    rewrite Hc0 in Hfire. simplify_eq. simpl. by rewrite Hcr.
  - (* FinisherExit *)
    repeat case_match; simplify_eq. simpl. by rewrite Hcr.
  - (* BrokerDeliver *)
    apply onNative_Some in Hfire as (x & x' & Hx & Hx' & ->).
    destruct (subscribed x); [|done]. destruct (handler x); [done|].
    simplify_eq. simpl. rewrite Hcr.
    repeat split; try done; try apply Hs.
    apply handlersSafe_insert with x; [done| |done]. simpl.
    apply panicsOnlyIf_processMessage.
    + intros Hnone. by destruct Hs as (_ & Hu & _).
    + intros u Hu Hm. by exists u, m.
  - (* Handler *)
    destruct (natives (call w) !! num) as [x|] eqn:Hx; [|done].
    destruct (handler x) as [p|] eqn:Hp; [|done].
    destruct (procStep _ _ _ _ _) as [[a p']|] eqn:Hstep; [|done].
    simplify_eq.
    pose proof (handlersSafe_lookup _ _ _ _ Hh Hx) as Hsafe.
    rewrite Hp in Hsafe.
    destruct (procStep_panicsOnlyIf _ _ _ _ _ _ _ _ Hsafe Hstep) as [Hp' Ha].
    assert (Hh' : handlersSafe (nilMessage (config (sub w)))
                    (<[num := setHandler p' x]> (natives (call w))))
      by by apply handlersSafe_insert with x.
    destruct a; simpl; rewrite ?Hcr; repeat split; try done; try apply Hs.
    intros ? [= <-]. by apply Ha.
Qed.

Lemma reachable_safe w :
  constructed s ->
  reachable StopTime topic s w ->
  constructed (sub w) /\
  handlersSafe (nilMessage (config s)) (natives (call w)) /\
  forall text, crashed w = Some text ->
    text = "send on closed channel" \/
    (text = "nil pointer dereference" /\ nilMessage (config s)).
Proof.
  intros Hs. induction 1 as [|w w' Hw (Hc & Hh & _) [l Hfire]].
  - repeat split; try apply Hs; try done. constructor.
  - destruct (reachable_invariant StopTime topic s w Hw) as [Hinv Hcfg].
    rewrite <- Hcfg in *. by eapply fire_safe.
Qed.

(** X19: with a constructed subscriber, the goroutines of the subscriber
    panic in two ways only: by the send of a callback on the closed
    delivery channel, and by the nil dereference of a callback whose
    unmarshaler has returned a nil message and no error.  [Subscribe] and
    the callbacks dereference no nil unmarshaler, subject calculator or
    topic interpreter, and the delivery channel is never closed twice. *)
Theorem panics_of_constructed_subscriber w text :
  constructed s ->
  reachable StopTime topic s w ->
  crashed w = Some text ->
  text = "send on closed channel" \/
  (text = "nil pointer dereference" /\ nilMessage (config s)).
Proof. intros Hs Hw. by apply (reachable_safe w Hs Hw). Qed.

End Panics.

Lemma panics_of_constructed_subscriber_witness :
  match run (-1) "orders"
          (closeOutputFirst ++ [Handler 0 (sampleEnv SigAcked 1)])
          (start (sampleSubscriber 1)) with
  | Some w => crashed w = Some "send on closed channel"
  | None => False
  end /\
  match run (-1) "orders" nilMessageCall (start nilSubscriber) with
  | Some w =>
    crashed w = Some "nil pointer dereference" /\
    nilMessage (config nilSubscriber)
  | None => False
  end.
Proof.
  split.
  - destruct (run (-1) "orders"
                (closeOutputFirst ++ [Handler 0 (sampleEnv SigAcked 1)])
                (start (sampleSubscriber 1))) as [w|] eqn:Hrun;
      [|by vm_compute in Hrun].
    destruct (crashed w) as [text|] eqn:Hcrashed;
      [|by vm_compute in Hrun; injection Hrun as <-].
    destruct (panics_of_constructed_subscriber (-1) "orders"
                (sampleSubscriber 1) w text) as [-> | [_ (u & m & Hu & Hm)]].
    + repeat split; discriminate.
    + eapply run_reachable; [apply reachable_start|exact Hrun].
    + exact Hcrashed.
    + reflexivity.
    + exfalso. injection Hu as <-. simpl in Hm. by destruct (Data m).
  - destruct (run (-1) "orders" nilMessageCall (start nilSubscriber))
      as [w|] eqn:Hrun; [|by vm_compute in Hrun].
    destruct (crashed w) as [text|] eqn:Hcrashed;
      [|by vm_compute in Hrun; injection Hrun as <-].
    destruct (panics_of_constructed_subscriber (-1) "orders"
                nilSubscriber w text) as [-> | [-> Hnil]].
    + repeat split; discriminate.
    + eapply run_reachable; [apply reachable_start|exact Hrun].
    + exact Hcrashed.
    + exfalso. vm_compute in Hrun. injection Hrun as <-. discriminate.
    + by split.
Defined.

(** ** Callbacks on a closed subscriber *)

Lemma closedSteps_quiet (P : Prop) p acts :
  closedSteps p acts -> quiet p -> panicsOnlyIf P p ->
  Forall (fun a => a = Silent \/
                   (a = Crash "nil pointer dereference" /\ P)) acts.
Proof.
  induction 1 as [p|env s ctx oc p a Hc Hstep|env s ctx oc p a p' acts Hc Hstep _ IH];
    intros Hq Hp.
  - constructor.
  - constructor; [|constructor].
    destruct p; simpl in *; repeat case_match; simplify_eq; try done;
      try (by left).
    destruct Hp as [-> HP]. by right.
  - assert (a = Silent /\ quiet p' /\ panicsOnlyIf P p') as (-> & Hq' & Hp').
    { destruct p; simpl in *; repeat case_match; simplify_eq; try done;
        by repeat split. }
    constructor; [by left|]. by apply IH.
Qed.

Lemma closedSteps_quietIfClosed (P : Prop) p acts :
  closedSteps p acts -> quietIfClosed p -> panicsOnlyIf P p ->
  Forall (fun a => a = Silent \/
                   (a = Crash "nil pointer dereference" /\ P)) acts.
Proof.
  induction 1 as [p|env s ctx oc p a Hc Hstep|env s ctx oc p a p' acts Hc Hstep Hrest IH];
    intros Hq Hp.
  - constructor.
  - constructor; [|constructor].
    destruct p; simpl in *; repeat case_match; simplify_eq; try done;
      try (by left).
    destruct Hp as [-> HP]. by right.
  - destruct p; simpl in *; try done; simplify_eq.
    + constructor; [by left|]. by apply IH.
    + constructor; [by left|]. by apply IH.
    + constructor; [by left|]. by apply IH.
    + unfold isClosed in Hstep. destruct (subsLock s); [done|].
      rewrite Hc in Hstep. simplify_eq. constructor; [by left|].
      by apply (closedSteps_quiet P (k true)).
Qed.

Lemma quietIfClosed_processMessage StopTime cfg m :
  quietIfClosed (processMessage StopTime cfg m).
Proof.
  unfold processMessage. destruct (cfgUnmarshaler cfg) as [u|]; [|done].
  simpl. by destruct (Unmarshal u m) as [[msg|]|err].
Qed.

(** X20: a callback all of whose steps are made once the subscriber is
    marked closed hands nothing to the consumer, whatever the rest of the
    system does: each of its steps is silent, or is the nil dereference
    that comes before the test of the flag; and with an unmarshaler that
    returns a message or an error for the frame, all its steps are
    silent: it finds the flag set at its test and returns. *)
Theorem callback_on_closed_subscriber_is_silent StopTime cfg m acts :
  closedSteps (processMessage StopTime cfg m) acts ->
  Forall (fun a => a = Silent \/ a = Crash "nil pointer dereference") acts /\
  (forall u, cfgUnmarshaler cfg = Some u -> Unmarshal u m <> Ok None ->
     Forall (fun a => a = Silent) acts).
Proof.
  intros Hsteps. split.
  - eapply Forall_impl.
    + apply (closedSteps_quietIfClosed True _ _ Hsteps);
        [apply quietIfClosed_processMessage|].
      by apply panicsOnlyIf_processMessage.
    + intros a [-> | [-> _]]; auto.
  - intros u Hu Hm. eapply Forall_impl.
    + apply (closedSteps_quietIfClosed False _ _ Hsteps);
        [apply quietIfClosed_processMessage|].
      apply panicsOnlyIf_processMessage; [by rewrite Hu|].
      intros u' Hu' Hm'. rewrite Hu in Hu'. by injection Hu' as <-.
    + by intros a [-> | [_ []]].
Qed.

Lemma callback_on_closed_subscriber_is_silent_witness :
  closedSteps (processMessage (-1) (sampleConfig false None 1) streamFrame)
    (replicate 7 Silent) /\
  Forall (fun a => a = Silent) (replicate 7 Silent) /\
  closedSteps (processMessage (-1) (config nilSubscriber) streamFrame)
    [Silent; Crash "nil pointer dereference"].
Proof.
  assert (Hsteps : closedSteps
             (processMessage (-1) (sampleConfig false None 1) streamFrame)
             (replicate 7 Silent)).
  { do 6 (eapply (closedSteps_next (sampleEnv SigAcked 1)
                    (markClosed (sampleSubscriber 1)) false false);
          [reflexivity|reflexivity|]).
    eapply (closedSteps_last (sampleEnv SigAcked 1)
              (markClosed (sampleSubscriber 1)) false false); reflexivity. }
  split; [exact Hsteps|]. split.
  - destruct (callback_on_closed_subscriber_is_silent (-1)
                (sampleConfig false None 1) streamFrame (replicate 7 Silent)
                Hsteps) as [_ Hsilent].
    by apply (Hsilent sampleUnmarshaler).
  - eapply (closedSteps_next (sampleEnv SigAcked 1)
              (markClosed nilSubscriber) false false);
      [reflexivity|reflexivity|].
    eapply (closedSteps_last (sampleEnv SigAcked 1)
              (markClosed nilSubscriber) false false); reflexivity.
Defined.
